(** * Hypercube automorphisms: the bit-string engine and the cube model

    A shallow embedding of [bits.py] and [cubes.py].  Python integers are
    [Z]; a Python [str] is a list of characters; a Python list is a list
    read and written through Python's index rule (negative indices count
    from the end, anything else out of range raises [IndexError]); the
    dictionary of edges is a finite map keyed by pairs of ids.  Vertex
    objects are mutable and shared by reference, so the vertex set keeps an
    object store next to its list of references. *)

From Stdlib Require Import ZArith Ascii String Lia.
From stdpp Require Import base tactics option list list_numbers sorting gmap.

Local Open Scope Z_scope.

(** ** Exceptions and results *)

Inductive exn : Set := ValueError | IndexError | TypeError | OverflowError.

#[global] Instance exn_eq_dec : EqDecision exn.
Proof. solve_decision. Defined.

Abbreviation result := (sum exn).

#[global] Instance res_ret : MRet result := λ A a, inr a.
#[global] Instance res_bind : MBind result := λ A B k r,
  match r with
  | inl e => inl e
  | inr a => k a
  end.

(** [[ f x for x in xs ]] where [f] may raise. *)
Fixpoint res_map {A B} (f : A → result B) (xs : list A) : result (list B) :=
  match xs with
  | [] => inr []
  | x :: xs' =>
      y ← f x; ys ← res_map f xs'; mret (y :: ys)
  end.

(** [list(filter(f, xs))] where [f] may raise. *)
Fixpoint res_filter {A} (f : A → result bool) (xs : list A) : result (list A) :=
  match xs with
  | [] => inr []
  | x :: xs' =>
      b ← f x; ys ← res_filter f xs'; mret (if b : bool then x :: ys else ys)
  end.

(** ** Python sequences *)

Abbreviation pystr := (list ascii).

(** The slot a Python index denotes in a sequence of length [len]. *)
Definition py_index (len : nat) (i : Z) : option nat :=
  if decide (0 ≤ i < Z.of_nat len) then Some (Z.to_nat i)
  else if decide (- Z.of_nat len ≤ i < 0) then Some (Z.to_nat (Z.of_nat len + i))
  else None.

(** [l[i]] *)
Definition py_getitem {A} (l : list A) (i : Z) : result A :=
  match py_index (length l) i with
  | Some k => match l !! k with Some x => inr x | None => inl IndexError end
  | None => inl IndexError
  end.

(** [l[i] = x] *)
Definition py_setitem {A} (l : list A) (i : Z) (x : A) : result (list A) :=
  match py_index (length l) i with
  | Some k => inr (<[k:=x]> l)
  | None => inl IndexError
  end.

(** [range(n)] and [range(m, n)] *)
Definition range (n : Z) : list Z := seqZ 0 n.
Definition range2 (m n : Z) : list Z := seqZ m (n - m).

(** [enumerate(l)] *)
Definition enumerate {A} (l : list A) : list (Z * A) :=
  imap (λ i x, (Z.of_nat i, x)) l.

(** ** bits.py *)

Module bits.

Definition is_bit_char (c : ascii) : bool :=
  bool_decide (c = "0"%char) || bool_decide (c = "1"%char).

Definition is_wildcard_char (c : ascii) : bool :=
  is_bit_char c || bool_decide (c = "*"%char).

(** [re.compile("[01]+").fullmatch] *)
Definition BIT_STRING_PATTERN (s : pystr) : bool :=
  match s with
  | [] => false
  | _ => forallb is_bit_char s
  end.

(** [re.compile("[01*]+").fullmatch] *)
Definition WILDCARD_STRING_PATTERN (s : pystr) : bool :=
  match s with
  | [] => false
  | _ => forallb is_wildcard_char s
  end.

(** [int(bit)] on a character the pattern let through. *)
Definition int_of_bit (bit : ascii) : Z :=
  if bool_decide (bit = "1"%char) then 1 else 0.

Definition bit_string_to_int (bits : pystr) : result Z :=
  if negb (BIT_STRING_PATTERN bits) then inl ValueError
  else inr (foldl (λ result bit, Z.shiftl result 1 + int_of_bit bit) 0 bits).

(** Binary digits of a positive number, most significant first. *)
Fixpoint bin_digits (p : positive) (acc : pystr) : pystr :=
  match p with
  | xH => "1"%char :: acc
  | xO p' => bin_digits p' ("0"%char :: acc)
  | xI p' => bin_digits p' ("1"%char :: acc)
  end.

(** [("{:0" + str(width) + "b}").format(number)]: the binary digits, with
    a sign in front of a negative number, padded with zeros after the sign
    up to [width] characters. *)
Definition format_0b (width : Z) (number : Z) : pystr :=
  let pad (sign digits : pystr) :=
    sign ++ replicate (Z.to_nat width - length sign - length digits)%nat "0"%char
         ++ digits in
  match number with
  | Z0 => pad [] ["0"%char]
  | Zpos p => pad [] (bin_digits p [])
  | Zneg p => pad ["-"%char] (bin_digits p [])
  end.

(** With a negative exponent [2 ** dimension] is a float power, and
    Python first converts both integers to floats: the conversion raises
    [OverflowError] for an integer that rounds to [2^1024] or beyond, that
    is from [2^1024 - 2^970] on in absolute value. *)
Definition int_too_large_for_float (n : Z) : bool :=
  bool_decide (2 ^ 1024 - 2 ^ 970 ≤ Z.abs n).

(** Python's [number >= 2 ** dimension].  For a negative [dimension] the
    power is the float [2.0 ** dimension]: zero below the smallest
    subnormal [2^-1074], otherwise strictly between 0 and 1. *)
Definition ge_two_pow (number dimension : Z) : result bool :=
  if dimension <? 0 then
    if int_too_large_for_float dimension then inl OverflowError
    else if dimension <? -1074 then inr (bool_decide (0 ≤ number))
    else inr (bool_decide (1 ≤ number))
  else inr (bool_decide (2 ^ dimension ≤ number)).

(** [number < 0 or number >= 2 ** dimension] evaluates the power only
    when [number] is not negative. *)
Definition int_to_bit_string (number dimension : Z) : result pystr :=
  if bool_decide (number < 0) then inl ValueError
  else
    out_of_range ← ge_two_pow number dimension;
    if out_of_range : bool then inl ValueError
    else if bool_decide (dimension < 0) then inl ValueError
    else if bool_decide (dimension = 0) then inr ["0"%char]
    else inr (format_0b dimension number).

(** The loop [while number > 0: number_of_bits += number % 2;
    number = number >> 1], one binary digit of [number] per round. *)
Fixpoint weight_loop (number : positive) (number_of_bits : Z) : Z :=
  match number with
  | xH => number_of_bits + 1
  | xO number' => weight_loop number' (number_of_bits + 0)
  | xI number' => weight_loop number' (number_of_bits + 1)
  end.

Definition weight (number : Z) : result Z :=
  match number with
  | Zneg _ => inl ValueError
  | Z0 => inr 0
  | Zpos p => inr (weight_loop p 0)
  end.

Definition permute_bits_by_index_list
    (number : Z) (list_of_indices : list Z) (dimension : Z) : result Z :=
  if bool_decide (dimension < 0) then inl ValueError
  else if negb (bool_decide (Z.of_nat (length list_of_indices) = dimension))
  then inl ValueError
  else if negb (forallb (λ i, bool_decide (i ∈ list_of_indices)) (range dimension))
  then inl ValueError
  else
    (bit_string ← int_to_bit_string number dimension;
     value ← res_map (py_getitem bit_string) list_of_indices;
     bit_string_to_int value).

(** [2 ** dimension] is a float for a negative dimension, unless the
    conversion of [dimension] to a float overflows, and [int & float]
    raises [TypeError]. *)
Definition truncate_within_dimension (number dimension : Z) : result Z :=
  if bool_decide (dimension < 0) then
    if int_too_large_for_float dimension then inl OverflowError else inl TypeError
  else
    let all_ones_mask := 2 ^ dimension - 1 in
    inr (Z.land number all_ones_mask).

(** The inner function [matches] of [pattern_to_int_list]; the [for] loop
    with its [continue] and early [return False] runs over [range(dimension)]. *)
Fixpoint matches_loop (pattern number_as_string : pystr) (indices : list Z)
    : result bool :=
  match indices with
  | [] => inr true
  | i :: rest =>
      (p ← py_getitem pattern i;
       if bool_decide (p = "*"%char) then matches_loop pattern number_as_string rest
       else
         n ← py_getitem number_as_string i;
         if bool_decide (p ≠ n) then inr false
         else matches_loop pattern number_as_string rest)
  end.

Definition matches (pattern : pystr) (dimension : Z) (number : Z) : result bool :=
  (number_as_string ← int_to_bit_string number dimension;
   matches_loop pattern number_as_string (range dimension)).

Definition pattern_to_int_list (pattern : pystr) (dimension : Z)
    : result (list Z) :=
  if negb (WILDCARD_STRING_PATTERN pattern) then inl ValueError
  else if negb (bool_decide (Z.of_nat (length pattern) = dimension))
  then inl ValueError
  else
    let number_of_bit_strings := 2 ^ dimension in
    res_filter (matches pattern dimension) (range number_of_bit_strings).

Definition how_many_bit_strings (dimension : Z) : Z :=
  if bool_decide (dimension < 0) then 0 else 2 ^ dimension.

Definition strings_to_int_list (bit_strings : list pystr) (dimension : Z)
    : result (list Z) :=
  if negb (forallb (λ string, bool_decide (Z.of_nat (length string) = dimension))
             bit_strings)
  then inl ValueError
  else res_map bit_string_to_int bit_strings.

Definition reverse (number dimension : Z) : result Z :=
  bit_string ← int_to_bit_string number dimension;
  let bit_string := reverse bit_string in
  bit_string_to_int bit_string.

End bits.

(** ** A state monad whose state survives an exception

    The methods of [cubes.py] mutate their object in place; an exception
    leaves whatever was written before it. *)

Definition M (S A : Type) : Type := S → S * result A.

#[global] Instance M_ret {S} : MRet (M S) := λ A a self, (self, inr a).
#[global] Instance M_bind {S} : MBind (M S) := λ A B k m self,
  match m self with
  | (self', inl e) => (self', inl e)
  | (self', inr a) => k a self'
  end.

Definition lift {S A} (r : result A) : M S A := λ self, (self, r).
Definition gets {S A} (f : S → A) : M S A := λ self, (self, inr (f self)).

(** [for x in xs: body(x)] *)
Fixpoint for_each {S X} (body : X → M S unit) (xs : list X) : M S unit :=
  match xs with
  | [] => mret ()
  | x :: xs' => body x;; for_each body xs'
  end.

(** A [for] loop that also threads a local variable. *)
Fixpoint for_each_acc {S X B} (body : B → X → M S B) (xs : list X) (acc : B)
    : M S B :=
  match xs with
  | [] => mret acc
  | x :: xs' => acc' ← body acc x; for_each_acc body xs' acc'
  end.

(** The same for code that raises but keeps no object state. *)
Fixpoint res_fold {X B} (body : B → X → result B) (xs : list X) (acc : B)
    : result B :=
  match xs with
  | [] => inr acc
  | x :: xs' => acc' ← body acc x; res_fold body xs' acc'
  end.

(** ** cubes.py *)

(** A color is [None] or a colorama string. *)
Abbreviation color := (option string).

Module Vertex.

Record t : Type := mk
  { color_string : color;
    vertex_id : Z;
    dimension : Z }.

Definition init (vertex_id dimension : Z) : t :=
  {| color_string := None; vertex_id := vertex_id; dimension := dimension |}.

Definition color (self : t) (color_string : color) : t :=
  {| color_string := color_string;
     vertex_id := vertex_id self;
     dimension := dimension self |}.

#[global] Instance inhabited : Inhabited t := populate (init 0 0).

End Vertex.

(** A reference to a vertex object. *)
Abbreviation ref := nat.

Module VertexSet.

(** [vertices] is the Python list; it holds references into [heap], the
    vertex objects in the order [__init__] created them. *)
Record t : Type := mk
  { dimension : Z;
    heap : list Vertex.t;
    vertices : list ref }.

Definition deref (self : t) (vertex : ref) : Vertex.t := heap self !!! vertex.

Definition set_vertices (vertices : list ref) (self : t) : t :=
  {| dimension := dimension self; heap := heap self; vertices := vertices |}.

Definition set_heap (heap : list Vertex.t) (self : t) : t :=
  {| dimension := dimension self; heap := heap; vertices := vertices self |}.

Definition init (dimension : Z) : t :=
  let number_of_vertices := bits.how_many_bit_strings dimension in
  let objects := (λ i, Vertex.init i dimension) <$> range number_of_vertices in
  {| dimension := dimension;
     heap := objects;
     vertices := seq 0 (length objects) |}.

Definition lookup_vertex_by_location (self : t) (location : Z) : option ref :=
  match py_getitem (vertices self) location with
  | inr vertex => Some vertex
  | inl _ => None
  end.

Definition lookup_id_by_location (self : t) (location : Z) : option Z :=
  match lookup_vertex_by_location self location with
  | None => None
  | Some vertex => Some (Vertex.vertex_id (deref self vertex))
  end.

Definition lookup_location_by_id (self : t) (vertex_id : Z) : option nat :=
  fst <$> list_find (λ vertex, vertex_id = Vertex.vertex_id (deref self vertex))
                    (vertices self).

Definition lookup_vertex_by_id (self : t) (vertex_id : Z) : option ref :=
  match lookup_location_by_id self vertex_id with
  | None => None
  | Some location => vertices self !! location
  end.

Definition color_by_id (vertex_id : Z) (color_string : color) : M t unit :=
  λ self,
  match lookup_vertex_by_id self vertex_id with
  | None => (self, inl ValueError)
  | Some vertex =>
      (set_heap (alter (λ v, Vertex.color v color_string) vertex (heap self)) self,
       inr ())
  end.

Definition uncolor_by_id (vertex_id : Z) : M t unit :=
  color_by_id vertex_id (Some EmptyString).

(** When no vertex is at [location] the id passed on is [None], which no
    vertex carries, and [color_by_id] raises. *)
Definition color_by_location (location : Z) (color_string : color) : M t unit :=
  λ self,
  match lookup_id_by_location self location with
  | None => (self, inl ValueError)
  | Some vertex_id => color_by_id vertex_id color_string self
  end.

Definition color_vertices_by_id_list (vertex_ids : list Z) (color_string : color)
    : M t unit :=
  for_each (λ vertex_id, color_by_id vertex_id color_string) vertex_ids.

Definition uncolor_vertices_by_id_list (vertex_ids : list Z) : M t unit :=
  color_vertices_by_id_list vertex_ids (Some EmptyString).

(** [self.vertices[location] = vertex] *)
Definition setitem (location : Z) (vertex : ref) : M t unit :=
  λ self,
  match py_setitem (vertices self) location vertex with
  | inl e => (self, inl e)
  | inr vertices' => (set_vertices vertices' self, inr ())
  end.

Definition map_to_locations (function : Z → result Z) : M t unit :=
  vertices ← gets vertices;
  for_each (λ '(location, vertex),
      new_location ← lift (function location);
      setitem new_location vertex)
    (enumerate vertices).

(** [color_mapping] is keyed by the locations [enumerate] yields, each
    once and in order, so the dictionary is the list of its items. *)
Definition map_to_locations_not_colors (function : Z → result Z) : M t unit :=
  vertices ← gets vertices;
  color_mapping ← for_each_acc (λ color_mapping '(location, vertex),
      new_location ← lift (function location);
      color_string ← gets (λ self, Vertex.color_string (deref self vertex));
      let color_mapping := color_mapping ++ [(location, color_string)] in
      setitem new_location vertex;;
      mret color_mapping)
    (enumerate vertices) [];
  for_each (λ '(location, color_string), color_by_location location color_string)
    color_mapping.

Definition rotate (rotation_list : list Z) (preserve_colors : bool) : M t unit :=
  λ self,
  let permute_bits location :=
    bits.permute_bits_by_index_list location rotation_list (dimension self) in
  if preserve_colors then map_to_locations_not_colors permute_bits self
  else map_to_locations permute_bits self.

Definition reflect (bit_mask : Z) (preserve_colors : bool) : M t unit :=
  dimension ← gets dimension;
  bit_mask ← lift (bits.truncate_within_dimension bit_mask dimension);
  let flip_function location : result Z := inr (Z.lxor location bit_mask) in
  if preserve_colors then map_to_locations_not_colors flip_function
  else map_to_locations flip_function.

Definition reset_positions : M t unit :=
  vertices ← gets vertices;
  for_each (λ vertex,
      vertex_id ← gets (λ self, Vertex.vertex_id (deref self vertex));
      setitem vertex_id vertex)
    vertices.

End VertexSet.

Module EdgeSet.

(** [self.vertex_set] is the very object the cube holds, so the methods
    that read it take the cube's vertex set as an argument. *)
Record t : Type := mk
  { dimension : Z;
    edges : gmap (Z * Z) string }.

Definition set_edges (edges : gmap (Z * Z) string) (self : t) : t :=
  {| dimension := dimension self; edges := edges |}.

Definition init_loop (number_of_vertices : Z) : result (gmap (Z * Z) string) :=
  res_fold (λ edges low_index,
      res_fold (λ edges high_index,
          w ← bits.weight (Z.lxor low_index high_index);
          if bool_decide (w = 1) then mret (<[(low_index, high_index) := EmptyString]> edges)
          else mret edges)
        (range2 low_index number_of_vertices) edges)
    (range number_of_vertices) ∅.

Definition init (vertex_set : VertexSet.t) : result t :=
  let dimension := VertexSet.dimension vertex_set in
  let number_of_vertices := bits.how_many_bit_strings dimension in
  edges ← init_loop number_of_vertices;
  mret {| dimension := dimension; edges := edges |}.

(** [(u_id, v_id) in self.edges] where an id may be [None]. *)
Definition mem (self : t) (u_id v_id : option Z) : bool :=
  match u_id, v_id with
  | Some u, Some v => bool_decide (is_Some (edges self !! (u, v)))
  | _, _ => false
  end.

Definition lookup_edge_id_by_locations
    (self : t) (vertex_set : VertexSet.t) (u_location v_location : Z)
    : option (option Z * option Z) :=
  let u_id := VertexSet.lookup_id_by_location vertex_set u_location in
  let v_id := VertexSet.lookup_id_by_location vertex_set v_location in
  if mem self u_id v_id then Some (u_id, v_id)
  else if mem self v_id u_id then Some (v_id, u_id)
  else None.

Definition color_by_ids (u_id v_id : Z) (color_string : string) : M t unit :=
  λ self,
  if bool_decide (is_Some (edges self !! (u_id, v_id)))
  then (set_edges (<[(u_id, v_id) := color_string]> (edges self)) self, inr ())
  else if bool_decide (is_Some (edges self !! (v_id, u_id)))
  then (set_edges (<[(v_id, u_id) := color_string]> (edges self)) self, inr ())
  else (self, inl ValueError).

Definition uncolor_by_ids (u_id v_id : Z) : M t unit :=
  color_by_ids u_id v_id EmptyString.

Definition get_induced_edges_from_id_list (self : t) (vertex_id_list : list Z)
    : result (list (Z * Z)) :=
  let length := Z.of_nat (length vertex_id_list) in
  res_fold (λ edge_list i,
      res_fold (λ edge_list j,
          u ← py_getitem vertex_id_list i;
          v ← py_getitem vertex_id_list j;
          let edge := (u, v) in
          if bool_decide (is_Some (edges self !! edge)) then mret (edge_list ++ [edge])
          else mret edge_list)
        (range2 i length) edge_list)
    (range length) [].

Definition color_edges_by_id_list (vertex_id_list : list Z) (color_string : string)
    : M t unit :=
  induced_edges ← (λ self, (self, get_induced_edges_from_id_list self vertex_id_list));
  for_each (λ '(low_index, high_index), color_by_ids low_index high_index color_string)
    induced_edges.

Definition uncolor_edges_by_id_list (vertex_id_list : list Z) : M t unit :=
  color_edges_by_id_list vertex_id_list EmptyString.

Definition lookup_color_by_vertex_ids (self : t) (u_id v_id : Z) : option string :=
  match edges self !! (u_id, v_id) with
  | Some c => Some c
  | None => edges self !! (v_id, u_id)
  end.

(** An id pair that holds a [None] is no key of the dictionary, so
    [color_by_ids] raises and [lookup_color_by_vertex_ids] answers [None];
    [lookup_edge_id_by_locations] never returns such a pair. *)
Definition color_by_locations
    (vertex_set : VertexSet.t) (u_location v_location : Z) (color_string : string)
    : M t unit :=
  λ self,
  match lookup_edge_id_by_locations self vertex_set u_location v_location with
  | None => (self, inl ValueError)
  | Some (Some id_1, Some id_2) => color_by_ids id_1 id_2 color_string self
  | Some _ => (self, inl ValueError)
  end.

Definition uncolor_by_locations
    (vertex_set : VertexSet.t) (u_location v_location : Z) : M t unit :=
  color_by_locations vertex_set u_location v_location EmptyString.

Definition lookup_color_by_locations
    (self : t) (vertex_set : VertexSet.t) (u_location v_location : Z)
    : option string :=
  match lookup_edge_id_by_locations self vertex_set u_location v_location with
  | None => None
  | Some (Some u_id, Some v_id) => lookup_color_by_vertex_ids self u_id v_id
  | Some _ => None
  end.

End EdgeSet.

Module Cube.

Record t : Type := mk
  { dimension : Z;
    vertex_set : VertexSet.t;
    edge_set : EdgeSet.t }.

Definition init (dimension : Z) : result t :=
  let vertex_set := VertexSet.init dimension in
  edge_set ← EdgeSet.init vertex_set;
  mret {| dimension := dimension; vertex_set := vertex_set; edge_set := edge_set |}.

(** Run a method of [self.vertex_set] or of [self.edge_set]. *)
Definition on_vertex_set {A} (m : M VertexSet.t A) : M t A :=
  λ self,
  let '(vertex_set', r) := m (vertex_set self) in
  ({| dimension := dimension self; vertex_set := vertex_set';
      edge_set := edge_set self |}, r).

Definition on_edge_set {A} (m : M EdgeSet.t A) : M t A :=
  λ self,
  let '(edge_set', r) := m (edge_set self) in
  ({| dimension := dimension self; vertex_set := vertex_set self;
      edge_set := edge_set' |}, r).

Definition rotate (rotation_list : list Z) (preserve_colors : bool) : M t unit :=
  on_vertex_set (VertexSet.rotate rotation_list preserve_colors).

Definition reflect (bit_mask : Z) (preserve_colors : bool) : M t unit :=
  on_vertex_set (VertexSet.reflect bit_mask preserve_colors).

Definition reset_positions : M t unit :=
  on_vertex_set VertexSet.reset_positions.

Definition color_vertices_by_id_list (vertex_id_list : list Z) (color_string : string)
    : M t unit :=
  on_vertex_set (VertexSet.color_vertices_by_id_list vertex_id_list (Some color_string)).

Definition uncolor_vertices_by_id_list (vertex_id_list : list Z) : M t unit :=
  on_vertex_set (VertexSet.uncolor_vertices_by_id_list vertex_id_list).

Definition color_edges_by_id_list (vertex_id_list : list Z) (color_string : string)
    : M t unit :=
  on_edge_set (EdgeSet.color_edges_by_id_list vertex_id_list color_string).

Definition uncolor_edges_by_id_list (vertex_id_list : list Z) : M t unit :=
  on_edge_set (EdgeSet.uncolor_edges_by_id_list vertex_id_list).

(** The public operations, as a caller issues them one after another; a
    caller that catches an exception goes on with the cube as the failed
    call left it. *)
Inductive op : Type :=
  | Rotate (rotation_list : list Z) (preserve_colors : bool)
  | Reflect (bit_mask : Z) (preserve_colors : bool)
  | ResetPositions
  | ColorVertices (vertex_id_list : list Z) (color_string : string)
  | UncolorVertices (vertex_id_list : list Z)
  | ColorEdges (vertex_id_list : list Z) (color_string : string)
  | UncolorEdges (vertex_id_list : list Z).

Definition run (o : op) : M t unit :=
  match o with
  | Rotate l pc => rotate l pc
  | Reflect m pc => reflect m pc
  | ResetPositions => reset_positions
  | ColorVertices l c => color_vertices_by_id_list l c
  | UncolorVertices l => uncolor_vertices_by_id_list l
  | ColorEdges l c => color_edges_by_id_list l c
  | UncolorEdges l => uncolor_edges_by_id_list l
  end.

Definition run_all (ops : list op) (self : t) : t :=
  foldl (λ self o, fst (run o self)) self ops.

End Cube.

(** ** cube_repl.py *)

Module cube_repl.

(** The inner function of [CubeRepl.rotate]; [dimension] is the cube's. *)
Definition is_valid_rotation_list (dimension : Z) (indices : list Z) : bool :=
  if negb (bool_decide (Z.of_nat (length indices) = dimension)) then false
  else if negb (forallb (λ i, bool_decide (i ∈ indices)) (range dimension))
  then false
  else true.

End cube_repl.

(** * The vocabulary of the statements *)

(** Writing the values of [ps] to their slots, one after the other. *)
Definition scatter {A} (ps : list (nat * A)) (cur : list A) : list A :=
  foldl (λ cur p, <[p.1 := p.2]> cur) cur ps.

(** [new] holds at slot [f i] what [old] held at slot [i]. *)
Definition relocated {A} (f : nat → nat) (old new : list A) : Prop :=
  length new = length old ∧
  ∀ i, (i < length old)%nat → new !! f i = old !! i.

(** Coloring touches the color of one object and nothing else. *)
Definition same_arrangement (self self' : VertexSet.t) : Prop :=
  VertexSet.dimension self' = VertexSet.dimension self ∧
  VertexSet.vertices self' = VertexSet.vertices self ∧
  length (VertexSet.heap self') = length (VertexSet.heap self) ∧
  ∀ v, Vertex.vertex_id (VertexSet.deref self' v)
       = Vertex.vertex_id (VertexSet.deref self v).

(** The objects are the ones [__init__] made, object [v] carrying id [v],
    and the list holds each of them once. *)
Definition inv (d : Z) (self : VertexSet.t) : Prop :=
  VertexSet.dimension self = d ∧
  length (VertexSet.heap self) = Z.to_nat (2 ^ d) ∧
  (∀ v, (v < Z.to_nat (2 ^ d))%nat →
        Vertex.vertex_id (VertexSet.deref self v) = Z.of_nat v) ∧
  VertexSet.vertices self ≡ₚ seq 0 (Z.to_nat (2 ^ d)).

(** The choice [rotate] and [reflect] make between the two relocations. *)
Definition relocate (preserve_colors : bool) (function : Z → result Z)
    : M VertexSet.t unit :=
  if preserve_colors then VertexSet.map_to_locations_not_colors function
  else VertexSet.map_to_locations function.

(** Where [reflect] sends location [k]. *)
Definition flip (d bit_mask : Z) (k : nat) : nat :=
  Z.to_nat (Z.lxor (Z.of_nat k) (Z.land bit_mask (2 ^ d - 1))).

(** The character of a bit. *)
Definition char_of_bool (b : bool) : ascii := if b then "1"%char else "0"%char.

(** The low [k] bits of [n], least significant first. *)
Definition to_bits_le (n : Z) (k : nat) : list bool :=
  (λ i, Z.testbit n (Z.of_nat i)) <$> seq 0 k.

(** The [d]-bit big-endian representation of [n]. *)
Definition bits_be (d : nat) (n : Z) : list bool := reverse (to_bits_le n d).

(** The number a list of bits denotes, least significant first. *)
Fixpoint of_bits_le (bs : list bool) : Z :=
  match bs with
  | [] => 0
  | b :: bs' => Z.b2z b + 2 * of_bits_le bs'
  end.

(** The three checks [permute_bits_by_index_list] makes on its list, for
    a dimension that is not negative. *)
Definition rotation_checks (list_of_indices : list Z) (dimension : Z) : bool :=
  bool_decide (Z.of_nat (length list_of_indices) = dimension)
  && forallb (λ i, bool_decide (i ∈ list_of_indices)) (range dimension).

(** The value it returns when the checks pass. *)
Definition permuted (list_of_indices : list Z) (dimension : Z) (number : Z) : Z :=
  of_bits_le
    (reverse ((λ i, Z.testbit number (dimension - 1 - i)) <$> list_of_indices)).

(** What [weight] returns on a number that is not negative. *)
Definition popcount (n : Z) : Z :=
  match n with
  | Zpos p => bits.weight_loop p 0
  | _ => 0
  end.

(** The test of [EdgeSet.__init__]. *)
Definition is_edge (low_index high_index : Z) : Prop :=
  popcount (Z.lxor low_index high_index) = 1.

#[global] Instance is_edge_dec low high : Decision (is_edge low high).
Proof. unfold is_edge. apply _. Defined.

(** The keys in the order the two loops meet them. *)
Definition edge_keys (number_of_vertices : Z) : list (Z * Z) :=
  low_index ← range number_of_vertices;
  (λ high_index, (low_index, high_index))
    <$> filter (is_edge low_index) (range2 low_index number_of_vertices).

(** [edges[key] = str()] for every key of the list. *)
Definition insert_all (keys : list (Z * Z)) (edges : gmap (Z * Z) string)
    : gmap (Z * Z) string :=
  foldl (λ edges key, <[key := EmptyString]> edges) edges keys.

(** The cubes a caller can hold: [Cube(d)] after some public operations. *)
Definition reachable (d : Z) (c : Cube.t) : Prop :=
  ∃ c0 ops, Cube.init d = inr c0 ∧ c = Cube.run_all ops c0.

(** The invariant in the words of the specification: every id has one
    location and no other, and every location holds a vertex. *)
Definition bijection (N : Z) (self : VertexSet.t) : Prop :=
  Z.of_nat (length (VertexSet.vertices self)) = N ∧
  (∀ id, 0 ≤ id < N →
     ∃ location, 0 ≤ location < N ∧
       VertexSet.lookup_id_by_location self location = Some id ∧
       ∀ location', 0 ≤ location' < N →
         VertexSet.lookup_id_by_location self location' = Some id →
         location' = location) ∧
  (∀ location, 0 ≤ location < N →
     ∃ vertex id, 0 ≤ id < N ∧
       VertexSet.lookup_vertex_by_location self location = Some vertex ∧
       VertexSet.lookup_id_by_location self location = Some id).

(** [lookup_vertex_by_id(vertex_id).color_string] *)
Definition color_of (self : VertexSet.t) (vertex_id : Z) : option color :=
  vertex ← VertexSet.lookup_vertex_by_id self vertex_id;
  Some (Vertex.color_string (VertexSet.deref self vertex)).

(** Every reference in the list points at an object. *)
Definition heap_ok (self : VertexSet.t) : Prop :=
  ∀ v, v ∈ VertexSet.vertices self → (v < length (VertexSet.heap self))%nat.

(** A number matches a pattern when its [d]-bit big-endian representation
    has a 0 wherever the pattern has a [0] and a 1 wherever it has a [1]. *)
Definition matches_pattern (pattern : pystr) (d : Z) (v : Z) : Prop :=
  ∀ i : nat,
    (pattern !! i = Some "0"%char → Z.testbit v (d - 1 - Z.of_nat i) = false) ∧
    (pattern !! i = Some "1"%char → Z.testbit v (d - 1 - Z.of_nat i) = true).

(** How many elements of a list satisfy [P]. *)
Definition count {A} (P : A → Prop) `{∀ x, Decision (P x)} (l : list A) : nat :=
  length (filter P l).

(** The edges [(low_index, _)] a cube of [N] vertices has. *)
Definition row (N low_index : Z) : nat :=
  count (is_edge low_index) (range2 low_index N).

(** The cube [Cube(d)] as [__init__] leaves it. *)
Definition new_cube (d : Z) : Cube.t :=
  {| Cube.dimension := d;
     Cube.vertex_set := VertexSet.init d;
     Cube.edge_set := {| EdgeSet.dimension := d;
                         EdgeSet.edges := insert_all (edge_keys (2 ^ d)) ∅ |} |}.

(** The bit a character of a bit string stands for. *)
Definition bool_of_char (c : ascii) : bool := bool_decide (c = "1"%char).

(** [len(l) == d] and every [i] in [range(d)] is in [l]. *)
Definition valid_list (l : list Z) (d : Z) : Prop :=
  Z.of_nat (length l) = d ∧ ∀ i, 0 ≤ i < d → i ∈ l.

(** The color of the vertex at a location. *)
Definition color_at (self : VertexSet.t) (location : Z) : option color :=
  vertex ← VertexSet.lookup_vertex_by_location self location;
  Some (Vertex.color_string (VertexSet.deref self vertex)).

(** Locations are as far apart, in bits, as the ids they hold. *)
Definition isometry (d : Z) (self : VertexSet.t) : Prop :=
  ∀ (u v a b : nat),
    VertexSet.vertices self !! u = Some a →
    VertexSet.vertices self !! v = Some b →
    popcount (Z.lxor (Z.of_nat a) (Z.of_nat b))
    = popcount (Z.lxor (Z.of_nat u) (Z.of_nat v)).

(** The keys of the dictionary are the ones [__init__] put there. *)
Definition edges_inv (d : Z) (self : EdgeSet.t) : Prop :=
  ∀ key, is_Some (EdgeSet.edges self !! key) ↔ key ∈ edge_keys (2 ^ d).

(** What every cube a caller can hold satisfies. *)
Definition cube_ok (d : Z) (c : Cube.t) : Prop :=
  inv d (Cube.vertex_set c) ∧
  isometry d (Cube.vertex_set c) ∧
  edges_inv d (Cube.edge_set c).

(** * Properties *)

(** ** The code on small inputs *)

Example weight_of_11 : bits.weight 11 = inr 3 ∧ bits.weight 0 = inr 0.
Proof. by vm_compute. Qed.

Example bit_string_of_5 :
  bits.int_to_bit_string 5 4 = inr (list_ascii_of_string "0101") ∧
  bits.bit_string_to_int (list_ascii_of_string "0101") = inr 5.
Proof. by vm_compute. Qed.

Example identity_permutation :
  bits.permute_bits_by_index_list 6 [0; 1; 2] 3 = inr 6 ∧
  bits.permute_bits_by_index_list 6 [1; 2; 0] 3 = inr 5.
Proof. by vm_compute. Qed.

(** In dimension 0 the permuted string is empty and [bit_string_to_int]
    rejects it. *)
Example permutation_in_dimension_0 :
  bits.permute_bits_by_index_list 0 [] 0 = inl ValueError.
Proof. by vm_compute. Qed.

(** In dimension 2, [rotate([1, 0])] moves the vertex at location [0b01]
    to location [0b10]. *)
Example rotate_swaps_two_bits :
  let c := (Cube.rotate [1; 0] false (new_cube 2)).1 in
  VertexSet.lookup_id_by_location (Cube.vertex_set c) 2 = Some 1 ∧
  VertexSet.lookup_id_by_location (Cube.vertex_set c) 1 = Some 2.
Proof. by vm_compute. Qed.

(** With [preserve_colors] the color stays at its location while the
    vertices move. *)
Example reflect_preserving_colors :
  let c0 := (Cube.color_vertices_by_id_list [0] "red" (new_cube 1)).1 in
  let c1 := (Cube.reflect 1 true c0).1 in
  VertexSet.lookup_id_by_location (Cube.vertex_set c1) 0 = Some 1 ∧
  color_of (Cube.vertex_set c1) 1 = Some (Some "red"%string) ∧
  color_of (Cube.vertex_set c1) 0 = Some None.
Proof. by vm_compute. Qed.

(** ** Python indexing *)

Lemma py_index_nonneg len i :
  0 ≤ i < Z.of_nat len → py_index len i = Some (Z.to_nat i).
Proof. intros H. unfold py_index. by rewrite decide_True. Qed.

Lemma py_index_wrap len i :
  - Z.of_nat len ≤ i < 0 → py_index len i = Some (Z.to_nat (Z.of_nat len + i)).
Proof.
  intros H. unfold py_index.
  rewrite decide_False by lia. by rewrite decide_True.
Qed.

Lemma py_index_out len i :
  i < - Z.of_nat len ∨ Z.of_nat len ≤ i → py_index len i = None.
Proof. intros H. unfold py_index. by rewrite !decide_False by lia. Qed.

Lemma py_getitem_nat {A} (l : list A) (k : nat) x :
  l !! k = Some x → py_getitem l (Z.of_nat k) = inr x.
Proof.
  intros H. unfold py_getitem.
  rewrite py_index_nonneg by (apply lookup_lt_Some in H; lia).
  by rewrite Nat2Z.id, H.
Qed.

Lemma py_getitem_to_nat {A} (l : list A) (i : Z) x :
  0 ≤ i → l !! Z.to_nat i = Some x → py_getitem l i = inr x.
Proof.
  intros Hi H. rewrite <- (Z2Nat.id i) by done. by apply py_getitem_nat.
Qed.

Lemma py_setitem_nat {A} (l : list A) (k : nat) x :
  (k < length l)%nat → py_setitem l (Z.of_nat k) x = inr (<[k:=x]> l).
Proof.
  intros H. unfold py_setitem. rewrite py_index_nonneg by lia.
  by rewrite Nat2Z.id.
Qed.

Lemma enumerate_cons {A} (x : A) l :
  enumerate (x :: l) = (0, x) :: (prod_map Z.succ id <$> enumerate l).
Proof.
  unfold enumerate. simpl. f_equal.
  rewrite fmap_imap. apply imap_ext. intros i y _. simpl.
  unfold prod_map. simpl. f_equal. lia.
Qed.

(** ** Writing a list of values to a list of slots *)

Lemma length_scatter {A} (ps : list (nat * A)) cur :
  length (scatter ps cur) = length cur.
Proof.
  revert cur. induction ps as [|p ps IH]; intros cur; simpl; [done|].
  unfold scatter in *. simpl. by rewrite IH, length_insert.
Qed.

Lemma scatter_lookup_notin {A} (ps : list (nat * A)) cur k :
  k ∉ ps.*1 → scatter ps cur !! k = cur !! k.
Proof.
  revert cur. induction ps as [|[k' v] ps IH]; intros cur Hk; [done|].
  simpl in Hk. apply not_elem_of_cons in Hk as [Hne Hk].
  unfold scatter in *. simpl. rewrite IH by done.
  by rewrite list_lookup_insert_ne.
Qed.

Lemma scatter_lookup {A} (ps : list (nat * A)) cur k v :
  NoDup ps.*1 → (k < length cur)%nat → (k, v) ∈ ps →
  scatter ps cur !! k = Some v.
Proof.
  revert cur. induction ps as [|[k' v'] ps IH]; intros cur Hnd Hlen Hin.
  { by apply elem_of_nil in Hin. }
  simpl in Hnd. apply NoDup_cons in Hnd as [Hk' Hnd].
  apply elem_of_cons in Hin as [[= <- <-]|Hin].
  - change (scatter ps (<[k:=v]> cur) !! k = Some v).
    rewrite scatter_lookup_notin by done. by apply list_lookup_insert_eq.
  - change (scatter ps (<[k':=v']> cur) !! k = Some v).
    apply IH; [done|by rewrite length_insert|done].
Qed.

(** An injection of [[0, n)] into itself reaches every slot. *)
Lemma injection_onto (n : nat) (f : nat → nat) :
  (∀ i, (i < n)%nat → (f i < n)%nat) →
  (∀ i j, (i < n)%nat → (j < n)%nat → f i = f j → i = j) →
  ∀ k, (k < n)%nat → ∃ i, (i < n)%nat ∧ f i = k.
Proof.
  intros Hran Hinj k Hk.
  assert (Hnd : NoDup (f <$> seq 0 n)).
  { apply NoDup_fmap_2_strong; [|apply NoDup_seq].
    intros i j Hi%elem_of_seq Hj%elem_of_seq. apply Hinj; lia. }
  assert (Hsub : f <$> seq 0 n ⊆+ seq 0 n).
  { apply NoDup_submseteq; [done|].
    intros x (i & -> & Hi%elem_of_seq)%list_elem_of_fmap.
    apply elem_of_seq. specialize (Hran i). lia. }
  apply submseteq_length_Permutation in Hsub;
    [|by rewrite length_fmap].
  assert (Hin : k ∈ f <$> seq 0 n).
  { rewrite Hsub. apply elem_of_seq. lia. }
  apply list_elem_of_fmap in Hin as (i & -> & Hi%elem_of_seq).
  exists i. split; [lia|done].
Qed.

Lemma relocated_scatter {A} (f : nat → nat) (old : list A) :
  (∀ i, (i < length old)%nat → (f i < length old)%nat) →
  (∀ i j, (i < length old)%nat → (j < length old)%nat → f i = f j → i = j) →
  relocated f old (scatter (imap (λ i x, (f i, x)) old) old).
Proof.
  intros Hran Hinj. split; [apply length_scatter|].
  intros i Hi. destruct (lookup_lt_is_Some_2 old i Hi) as [x Hx].
  rewrite Hx. apply scatter_lookup.
  - rewrite fmap_imap. apply NoDup_alt. intros a b y.
    rewrite !list_lookup_imap. simpl.
    destruct (old !! a) eqn:Ea; [|done]. destruct (old !! b) eqn:Eb; [|done].
    simpl. intros [= <-] [= Hab].
    apply lookup_lt_Some in Ea, Eb. symmetry. by apply Hinj.
  - by apply Hran.
  - apply list_elem_of_lookup. exists i. by rewrite list_lookup_imap, Hx.
Qed.

Lemma relocated_Permutation (n : nat) (f : nat → nat) (old new : list nat) :
  (∀ i, (i < n)%nat → (f i < n)%nat) →
  (∀ i j, (i < n)%nat → (j < n)%nat → f i = f j → i = j) →
  old ≡ₚ seq 0 n → relocated f old new → new ≡ₚ seq 0 n.
Proof.
  intros Hran Hinj Hold [Hlen Hmove].
  assert (Hn : length old = n) by (by rewrite Hold, length_seq).
  assert (Hndold : NoDup old) by (rewrite Hold; apply NoDup_seq).
  rewrite Hn in Hmove.
  assert (Hfrom : ∀ k x, new !! k = Some x →
            ∃ i, (i < n)%nat ∧ f i = k ∧ old !! i = Some x).
  { intros k x Hk.
    destruct (injection_onto n f Hran Hinj k) as (i & Hi & <-).
    { apply lookup_lt_Some in Hk. lia. }
    exists i. by rewrite <- Hmove. }
  apply submseteq_length_Permutation; [|rewrite length_seq; lia].
  apply NoDup_submseteq.
  - apply NoDup_alt. intros a b x Ha Hb.
    apply Hfrom in Ha as (i & _ & <- & Hi), Hb as (j & _ & <- & Hj).
    f_equal. by eapply NoDup_lookup.
  - intros x (k & Hk)%list_elem_of_lookup.
    apply Hfrom in Hk as (i & _ & _ & Hi).
    rewrite <- Hold. by eapply list_elem_of_lookup_2.
Qed.

(** ** The relocation loops of [VertexSet] *)

Lemma enumerate_imap {A} (l : list A) :
  enumerate l = prod_map Z.of_nat id <$> imap (λ i x, (i, x)) l.
Proof. unfold enumerate. rewrite fmap_imap. by apply imap_ext. Qed.

Section relocation.
Context (function : Z → result Z) (g : nat → nat).

Lemma move_loop (ps : list (nat * ref)) (self : VertexSet.t) :
  (∀ k v, (k, v) ∈ ps →
     function (Z.of_nat k) = inr (Z.of_nat (g k)) ∧
     (g k < length (VertexSet.vertices self))%nat) →
  for_each (λ '(location, vertex),
      new_location ← lift (function location);
      VertexSet.setitem new_location vertex)
    (prod_map Z.of_nat id <$> ps) self
  = (VertexSet.set_vertices
       (scatter (prod_map g id <$> ps) (VertexSet.vertices self)) self,
     inr ()).
Proof.
  revert self. induction ps as [|[k v] ps IH]; intros self Hps.
  { by destruct self. }
  destruct (Hps k v) as [Hf Hlt]; [left|].
  cbn [fmap list_fmap prod_map fst snd id for_each].
  unfold mbind at 1, M_bind. unfold mbind at 1, M_bind, lift.
  rewrite Hf. unfold VertexSet.setitem.
  rewrite py_setitem_nat by done.
  rewrite IH.
  - by destruct self.
  - intros k' v' Hin. destruct (Hps k' v') as [? ?]; [by right|].
    split; [done|]. simpl. by rewrite length_insert.
Qed.

Lemma move_loop_colors (ps : list (nat * ref)) (self : VertexSet.t) acc :
  (∀ k v, (k, v) ∈ ps →
     function (Z.of_nat k) = inr (Z.of_nat (g k)) ∧
     (g k < length (VertexSet.vertices self))%nat) →
  for_each_acc (λ color_mapping '(location, vertex),
      new_location ← lift (function location);
      color_string ← gets (λ self, Vertex.color_string (VertexSet.deref self vertex));
      let color_mapping := color_mapping ++ [(location, color_string)] in
      VertexSet.setitem new_location vertex;;
      mret color_mapping)
    (prod_map Z.of_nat id <$> ps) acc self
  = (VertexSet.set_vertices
       (scatter (prod_map g id <$> ps) (VertexSet.vertices self)) self,
     inr (acc ++ ((λ p, (Z.of_nat p.1,
                         Vertex.color_string (VertexSet.deref self p.2))) <$> ps))).
Proof.
  revert self acc. induction ps as [|[k v] ps IH]; intros self acc Hps.
  { destruct self. simpl. by rewrite app_nil_r. }
  destruct (Hps k v) as [Hf Hlt]; [left|].
  cbn [fmap list_fmap prod_map fst snd id for_each_acc].
  unfold mbind at 1, M_bind. unfold mbind at 1, M_bind, lift.
  rewrite Hf. unfold mbind at 1, M_bind, gets.
  unfold mbind at 1, M_bind, VertexSet.setitem.
  rewrite py_setitem_nat by done.
  unfold mret at 1, M_ret.
  rewrite IH.
  - destruct self. simpl. by rewrite <- app_assoc.
  - intros k' v' Hin. destruct (Hps k' v') as [? ?]; [by right|].
    split; [done|]. simpl. by rewrite length_insert.
Qed.

Context (self : VertexSet.t).
Let old := VertexSet.vertices self.
Hypothesis function_ok : ∀ k, (k < length old)%nat →
  function (Z.of_nat k) = inr (Z.of_nat (g k)) ∧ (g k < length old)%nat.
Hypothesis g_inj : ∀ i j, (i < length old)%nat → (j < length old)%nat →
  g i = g j → i = j.

Lemma map_to_locations_relocates :
  ∃ new, VertexSet.map_to_locations function self
           = (VertexSet.set_vertices new self, inr ()) ∧
         relocated g old new.
Proof.
  exists (scatter (imap (λ i x, (g i, x)) old) old). split.
  - unfold VertexSet.map_to_locations.
    unfold mbind at 1, M_bind, gets. rewrite enumerate_imap, move_loop.
    + subst old. do 3 f_equal. rewrite fmap_imap. by apply imap_ext.
    + intros k v (i & y & [= -> ->] & Hi%lookup_lt_Some)%elem_of_lookup_imap.
      by apply function_ok.
  - apply relocated_scatter; [intros; by apply function_ok|done].
Qed.

Lemma map_to_locations_not_colors_moves :
  ∃ new,
    relocated g old new ∧
    VertexSet.map_to_locations_not_colors function self
      = for_each (λ '(location, color_string),
                     VertexSet.color_by_location location color_string)
          (imap (λ i v, (Z.of_nat i,
                         Vertex.color_string (VertexSet.deref self v))) old)
          (VertexSet.set_vertices new self).
Proof.
  exists (scatter (imap (λ i x, (g i, x)) old) old). split.
  { apply relocated_scatter; [intros; by apply function_ok|done]. }
  unfold VertexSet.map_to_locations_not_colors.
  unfold mbind at 1, M_bind, gets. unfold mbind at 1, M_bind.
  rewrite enumerate_imap, move_loop_colors.
  - subst old. simpl. by rewrite !fmap_imap.
  - intros k v (i & y & [= -> ->] & Hi%lookup_lt_Some)%elem_of_lookup_imap.
    by apply function_ok.
Qed.

End relocation.

(** A failing first call leaves the list as it was. *)
Lemma map_to_locations_fails function self e :
  VertexSet.vertices self ≠ [] → function 0 = inl e →
  VertexSet.map_to_locations function self = (self, inl e).
Proof.
  intros Hne Hf. unfold VertexSet.map_to_locations.
  unfold mbind at 1, M_bind, gets.
  destruct (VertexSet.vertices self) as [|v vs] eqn:E; [done|].
  rewrite enumerate_cons. cbn [for_each].
  unfold mbind at 1, M_bind. unfold mbind at 1, M_bind, lift. by rewrite Hf.
Qed.

Lemma map_to_locations_not_colors_fails function self e :
  VertexSet.vertices self ≠ [] → function 0 = inl e →
  VertexSet.map_to_locations_not_colors function self = (self, inl e).
Proof.
  intros Hne Hf. unfold VertexSet.map_to_locations_not_colors.
  unfold mbind at 1, M_bind, gets.
  destruct (VertexSet.vertices self) as [|v vs] eqn:E; [done|].
  rewrite enumerate_cons. cbn [for_each_acc].
  unfold mbind at 1, M_bind. unfold mbind at 1, M_bind.
  unfold mbind at 1, M_bind, lift. by rewrite Hf.
Qed.

(** ** Loops and what they preserve *)

Lemma for_each_preserves {S X} (P : S → Prop) (body : X → M S unit) xs self :
  (∀ x self, P self → P (body x self).1) →
  P self → P (for_each body xs self).1.
Proof.
  intros Hbody. revert self. induction xs as [|x xs IH]; intros self HP; [done|].
  cbn [for_each]. unfold mbind, M_bind.
  specialize (Hbody x self HP).
  destruct (body x self) as [self' [e|[]]]; [done|]. by apply IH.
Qed.

Lemma for_each_succeeds {S X} (P : S → Prop) (body : X → M S unit) xs self :
  (∀ x self, x ∈ xs → P self → P (body x self).1 ∧ (body x self).2 = inr ()) →
  P self → P (for_each body xs self).1 ∧ (for_each body xs self).2 = inr ().
Proof.
  revert self. induction xs as [|x xs IH]; intros self Hbody HP; [done|].
  cbn [for_each]. unfold mbind, M_bind.
  destruct (Hbody x self) as [HP' Hr]; [left|done|].
  destruct (body x self) as [self' r]. simpl in *. subst r.
  apply IH; [|done]. intros y self'' Hy. apply Hbody. by right.
Qed.

Lemma same_arrangement_refl self : same_arrangement self self.
Proof. done. Qed.

Lemma same_arrangement_trans a b c :
  same_arrangement a b → same_arrangement b c → same_arrangement a c.
Proof.
  intros (?&?&?&Hab) (?&?&?&Hbc).
  repeat split; try congruence; intros v; by rewrite Hbc, Hab.
Qed.

Lemma deref_color self vertex color_string v :
  VertexSet.deref
    (VertexSet.set_heap
       (alter (λ v, Vertex.color v color_string) vertex (VertexSet.heap self)) self) v
  = if decide (vertex = v ∧ (vertex < length (VertexSet.heap self))%nat)
    then Vertex.color (VertexSet.deref self vertex) color_string
    else VertexSet.deref self v.
Proof.
  unfold VertexSet.deref. simpl. rewrite list_lookup_total_alter.
  repeat case_decide; naive_solver.
Qed.

Lemma color_by_id_arrangement vertex_id color_string self :
  same_arrangement self (VertexSet.color_by_id vertex_id color_string self).1.
Proof.
  unfold VertexSet.color_by_id.
  destruct (VertexSet.lookup_vertex_by_id self vertex_id) as [vertex|]; [|done].
  simpl. repeat split; simpl.
  - by rewrite length_alter.
  - intros v. rewrite deref_color. case_decide as H; [|done]. by destruct H as [-> _].
Qed.

Lemma color_by_location_arrangement location color_string self :
  same_arrangement self (VertexSet.color_by_location location color_string self).1.
Proof.
  unfold VertexSet.color_by_location.
  destruct (VertexSet.lookup_id_by_location self location); [|done].
  apply color_by_id_arrangement.
Qed.

Lemma lookup_vertex_by_id_arrangement self self' vertex_id :
  same_arrangement self self' →
  VertexSet.lookup_vertex_by_id self' vertex_id
  = VertexSet.lookup_vertex_by_id self vertex_id.
Proof.
  intros (_ & Hv & _ & Hid).
  unfold VertexSet.lookup_vertex_by_id, VertexSet.lookup_location_by_id.
  rewrite Hv.
  rewrite (list_find_ext _ (λ vertex, vertex_id
             = Vertex.vertex_id (VertexSet.deref self vertex))); [done|].
  intros v. by rewrite Hid.
Qed.

Lemma lookup_id_by_location_arrangement self self' location :
  same_arrangement self self' →
  VertexSet.lookup_id_by_location self' location
  = VertexSet.lookup_id_by_location self location.
Proof.
  intros (_ & Hv & _ & Hid).
  unfold VertexSet.lookup_id_by_location, VertexSet.lookup_vertex_by_location.
  rewrite Hv. destruct (py_getitem _ _); [done|]. by rewrite Hid.
Qed.

(** ** Bits of numbers below a power of two *)

Lemma testbit_above d a i : 0 ≤ a < 2 ^ d → d ≤ i → Z.testbit a i = false.
Proof.
  intros Ha Hi. destruct (decide (0 ≤ d)) as [Hd|Hd].
  - rewrite <- (Z.mod_small a (2 ^ d)) by done.
    apply Z.mod_pow2_bits_high. lia.
  - rewrite Z.pow_neg_r in Ha by lia. lia.
Qed.

Lemma below_pow2 d a :
  0 ≤ d → 0 ≤ a → (∀ i, d ≤ i → Z.testbit a i = false) → a < 2 ^ d.
Proof.
  intros Hd Ha Hbits.
  assert (a = a mod 2 ^ d) as ->.
  { apply Z.bits_inj'. intros i Hi.
    destruct (decide (i < d)).
    - by rewrite Z.mod_pow2_bits_low.
    - rewrite Z.mod_pow2_bits_high by lia. apply Hbits. lia. }
  apply Z.mod_pos_bound. lia.
Qed.

Lemma lxor_below_pow2 d a b :
  0 ≤ a < 2 ^ d → 0 ≤ b < 2 ^ d → 0 ≤ Z.lxor a b < 2 ^ d.
Proof.
  intros Ha Hb.
  assert (0 ≤ d).
  { destruct (decide (0 ≤ d)); [done|]. rewrite Z.pow_neg_r in Ha; lia. }
  split; [apply Z.lxor_nonneg; lia|].
  apply below_pow2; [done|apply Z.lxor_nonneg; lia|].
  intros i Hi. rewrite Z.lxor_spec.
  by rewrite (testbit_above d a), (testbit_above d b).
Qed.

Lemma lxor_lxor_same a c : Z.lxor (Z.lxor a c) c = a.
Proof. by rewrite Z.lxor_assoc, Z.lxor_nilpotent, Z.lxor_0_r. Qed.

Lemma land_mask_range number d :
  0 ≤ d → 0 ≤ Z.land number (2 ^ d - 1) < 2 ^ d.
Proof.
  intros Hd. replace (2 ^ d - 1) with (Z.ones d) by (rewrite Z.ones_equiv; lia).
  rewrite Z.land_ones by done. apply Z.mod_pos_bound. lia.
Qed.

Lemma pow2_to_nat d : 0 ≤ d → Z.of_nat (Z.to_nat (2 ^ d)) = 2 ^ d.
Proof. intros. apply Z2Nat.id. lia. Qed.

(** ** The bijection between ids and locations *)

Lemma inv_init d : 0 ≤ d → inv d (VertexSet.init d).
Proof.
  intros Hd. unfold VertexSet.init, bits.how_many_bit_strings, range.
  rewrite bool_decide_eq_false_2 by lia.
  repeat split; simpl.
  - by rewrite length_fmap, length_seqZ.
  - intros v Hv. unfold VertexSet.deref. simpl.
    erewrite list_lookup_total_correct; [|rewrite list_lookup_fmap, lookup_seqZ_lt by lia; done].
    simpl. lia.
  - by rewrite length_fmap, length_seqZ.
Qed.

Lemma inv_length d self : inv d self → length (VertexSet.vertices self) = Z.to_nat (2 ^ d).
Proof. intros (_ & _ & _ & ->). apply length_seq. Qed.

Lemma inv_arrangement d self self' :
  inv d self → same_arrangement self self' → inv d self'.
Proof.
  intros (Hd & Hh & Hid & Hv) (Hd' & Hv' & Hh' & Hid').
  repeat split; try congruence. intros v Hlt. rewrite Hid'. by apply Hid.
Qed.

Lemma inv_relocated d self g new :
  (∀ i, (i < Z.to_nat (2 ^ d))%nat → (g i < Z.to_nat (2 ^ d))%nat) →
  (∀ i j, (i < Z.to_nat (2 ^ d))%nat → (j < Z.to_nat (2 ^ d))%nat →
          g i = g j → i = j) →
  inv d self → relocated g (VertexSet.vertices self) new →
  inv d (VertexSet.set_vertices new self).
Proof.
  intros Hran Hinj (Hd & Hh & Hid & Hv) Hmove.
  repeat split; try done. simpl. by eapply relocated_Permutation.
Qed.

(** ** Recoloring the locations *)

Lemma lookup_vertex_by_location_nat self (k : nat) :
  VertexSet.lookup_vertex_by_location self (Z.of_nat k)
  = VertexSet.vertices self !! k.
Proof.
  unfold VertexSet.lookup_vertex_by_location.
  destruct (VertexSet.vertices self !! k) as [v|] eqn:E.
  - by rewrite (py_getitem_nat _ _ v).
  - unfold py_getitem. apply lookup_ge_None in E.
    rewrite py_index_out; [done|lia].
Qed.

Lemma lookup_vertex_by_id_find self vertex_id v :
  v ∈ VertexSet.vertices self →
  Vertex.vertex_id (VertexSet.deref self v) = vertex_id →
  ∃ v', VertexSet.lookup_vertex_by_id self vertex_id = Some v' ∧
        v' ∈ VertexSet.vertices self ∧
        Vertex.vertex_id (VertexSet.deref self v') = vertex_id.
Proof.
  intros Hin Hid.
  unfold VertexSet.lookup_vertex_by_id, VertexSet.lookup_location_by_id.
  destruct (list_find_elem_of
              (λ vertex, vertex_id = Vertex.vertex_id (VertexSet.deref self vertex))
              (VertexSet.vertices self) v Hin) as [[i v'] Hfind]; [done|].
  rewrite Hfind. simpl. apply list_find_Some in Hfind as (Hi & Hv' & _).
  exists v'. split_and!; [done| |done]. by eapply list_elem_of_lookup_2.
Qed.

Lemma color_by_location_succeeds self location color_string :
  0 ≤ location < Z.of_nat (length (VertexSet.vertices self)) →
  (VertexSet.color_by_location location color_string self).2 = inr ().
Proof.
  intros Hloc. unfold VertexSet.color_by_location, VertexSet.lookup_id_by_location.
  rewrite <- (Z2Nat.id location) by lia. rewrite lookup_vertex_by_location_nat.
  destruct (lookup_lt_is_Some_2 (VertexSet.vertices self) (Z.to_nat location))
    as [v Hv]; [lia|].
  rewrite Hv. unfold VertexSet.color_by_id.
  destruct (lookup_vertex_by_id_find self
              (Vertex.vertex_id (VertexSet.deref self v)) v) as (v' & -> & _);
    [by eapply list_elem_of_lookup_2|done|done].
Qed.

Lemma recolor_loop self (color_mapping : list (Z * color)) :
  (∀ location color_string, (location, color_string) ∈ color_mapping →
     0 ≤ location < Z.of_nat (length (VertexSet.vertices self))) →
  ∃ self',
    for_each (λ '(location, color_string),
                 VertexSet.color_by_location location color_string)
      color_mapping self = (self', inr ()) ∧
    same_arrangement self self'.
Proof.
  intros Hlocs.
  destruct (for_each_succeeds (same_arrangement self)
              (λ '(location, color_string),
                 VertexSet.color_by_location location color_string)
              color_mapping self) as [Hsame Hok].
  - intros [location color_string] self' Hin (Hd & Hv & Hrest). split.
    + eapply same_arrangement_trans; [done|apply color_by_location_arrangement].
    + apply color_by_location_succeeds. rewrite Hv. by eapply Hlocs.
  - apply same_arrangement_refl.
  - destruct (for_each _ _ _) as [self' r]. simpl in *. subst r. eauto.
Qed.

(** ** Relocation with or without the colors *)

Lemma relocate_relocates preserve_colors function g self :
  (∀ k, (k < length (VertexSet.vertices self))%nat →
     function (Z.of_nat k) = inr (Z.of_nat (g k)) ∧
     (g k < length (VertexSet.vertices self))%nat) →
  (∀ i j, (i < length (VertexSet.vertices self))%nat →
          (j < length (VertexSet.vertices self))%nat → g i = g j → i = j) →
  ∃ new self',
    relocate preserve_colors function self = (self', inr ()) ∧
    relocated g (VertexSet.vertices self) new ∧
    same_arrangement (VertexSet.set_vertices new self) self'.
Proof.
  intros Hf Hinj. destruct preserve_colors; simpl.
  - destruct (map_to_locations_not_colors_moves function g self Hf Hinj)
      as (new & Hmove & ->).
    destruct (recolor_loop (VertexSet.set_vertices new self)
                (imap (λ i v, (Z.of_nat i,
                   Vertex.color_string (VertexSet.deref self v)))
                   (VertexSet.vertices self))) as (self' & Hrun & Hsame).
    { intros location c (i & v & [= -> ->] & Hi%lookup_lt_Some)%elem_of_lookup_imap.
      simpl. destruct Hmove as [-> _]. lia. }
    eauto.
  - destruct (map_to_locations_relocates function g self Hf Hinj)
      as (new & -> & Hmove).
    exists new, (VertexSet.set_vertices new self).
    split_and!; [done|done|apply same_arrangement_refl].
Qed.

Lemma relocate_fails preserve_colors function self e :
  VertexSet.vertices self ≠ [] → function 0 = inl e →
  relocate preserve_colors function self = (self, inl e).
Proof.
  destruct preserve_colors; simpl;
    [apply map_to_locations_not_colors_fails|apply map_to_locations_fails].
Qed.

(** *** Reflection *)

Lemma flip_lt d bit_mask k :
  0 ≤ d → (k < Z.to_nat (2 ^ d))%nat → (flip d bit_mask k < Z.to_nat (2 ^ d))%nat.
Proof.
  intros Hd Hk. unfold flip.
  pose proof (land_mask_range bit_mask d Hd).
  pose proof (lxor_below_pow2 d (Z.of_nat k) (Z.land bit_mask (2 ^ d - 1))).
  lia.
Qed.

Lemma flip_flip d bit_mask k :
  0 ≤ d → (k < Z.to_nat (2 ^ d))%nat → flip d bit_mask (flip d bit_mask k) = k.
Proof.
  intros Hd Hk. unfold flip.
  pose proof (land_mask_range bit_mask d Hd).
  pose proof (lxor_below_pow2 d (Z.of_nat k) (Z.land bit_mask (2 ^ d - 1))).
  rewrite Z2Nat.id by lia. rewrite lxor_lxor_same. lia.
Qed.

Lemma reflect_relocates d self bit_mask preserve_colors :
  0 ≤ d → VertexSet.dimension self = d →
  length (VertexSet.vertices self) = Z.to_nat (2 ^ d) →
  ∃ new self',
    VertexSet.reflect bit_mask preserve_colors self = (self', inr ()) ∧
    relocated (flip d bit_mask) (VertexSet.vertices self) new ∧
    same_arrangement (VertexSet.set_vertices new self) self'.
Proof.
  intros Hd Hdim Hlen.
  destruct (relocate_relocates preserve_colors
              (λ location, inr (Z.lxor location (Z.land bit_mask (2 ^ d - 1))))
              (flip d bit_mask) self) as (new & self' & Hrun & Hmove & Hsame).
  - rewrite Hlen. intros k Hk. split; [|by apply flip_lt].
    unfold flip. f_equal.
    pose proof (land_mask_range bit_mask d Hd).
    pose proof (lxor_below_pow2 d (Z.of_nat k) (Z.land bit_mask (2 ^ d - 1))).
    lia.
  - rewrite Hlen. intros i j Hi Hj Hij.
    by rewrite <- (flip_flip d bit_mask i), Hij, flip_flip.
  - exists new, self'. split_and!; [|done..].
    unfold VertexSet.reflect. unfold mbind at 1, M_bind, gets.
    unfold mbind at 1, M_bind, lift, bits.truncate_within_dimension.
    rewrite Hdim, bool_decide_eq_false_2 by lia.
    by destruct preserve_colors.
Qed.

Lemma relocated_twice {A} (g : nat → nat) (old mid new : list A) :
  (∀ k, (k < length old)%nat → (g k < length old)%nat ∧ g (g k) = k) →
  relocated g old mid → relocated g mid new → new = old.
Proof.
  intros Hg [Hlen1 H1] [Hlen2 H2]. apply list_eq. intros k.
  destruct (decide (k < length old)%nat) as [Hk|Hk].
  - destruct (Hg k Hk) as [Hgk Hgg].
    rewrite <- (H1 k Hk), <- (H2 (g k)) by lia. by rewrite Hgg.
  - rewrite !lookup_ge_None_2; [done|lia..].
Qed.

(** *** Resetting *)

Lemma reset_loop (ps : list ref) (self : VertexSet.t) :
  (∀ v, v ∈ ps → (v < length (VertexSet.vertices self))%nat ∧
                 Vertex.vertex_id (VertexSet.deref self v) = Z.of_nat v) →
  for_each (λ vertex,
      vertex_id ← gets (λ self, Vertex.vertex_id (VertexSet.deref self vertex));
      VertexSet.setitem vertex_id vertex)
    ps self
  = (VertexSet.set_vertices
       (scatter ((λ v, (v, v)) <$> ps) (VertexSet.vertices self)) self, inr ()).
Proof.
  revert self. induction ps as [|v ps IH]; intros self Hps.
  { by destruct self. }
  destruct (Hps v) as [Hlt Hid]; [left|].
  cbn [fmap list_fmap for_each].
  unfold mbind at 1, M_bind. unfold mbind at 1, M_bind, gets.
  rewrite Hid. unfold VertexSet.setitem. rewrite py_setitem_nat by done.
  rewrite IH.
  - by destruct self.
  - intros v' Hin. destruct (Hps v') as [? ?]; [by right|].
    split; [|done]. simpl. by rewrite length_insert.
Qed.

Lemma reset_positions_inv d self :
  inv d self →
  VertexSet.reset_positions self
  = (VertexSet.set_vertices (seq 0 (Z.to_nat (2 ^ d))) self, inr ()).
Proof.
  intros (Hd & Hh & Hid & Hv).
  assert (Hlen : length (VertexSet.vertices self) = Z.to_nat (2 ^ d))
    by (by rewrite Hv, length_seq).
  unfold VertexSet.reset_positions. unfold mbind at 1, M_bind, gets.
  rewrite reset_loop.
  - do 2 f_equal. apply list_eq. intros k.
    destruct (decide (k < Z.to_nat (2 ^ d))%nat) as [Hk|Hk].
    + rewrite lookup_seq_lt by done. apply scatter_lookup.
      * rewrite <- list_fmap_compose.
        change (NoDup (id <$> VertexSet.vertices self)).
        rewrite list_fmap_id, Hv. apply NoDup_seq.
      * lia.
      * apply list_elem_of_fmap. exists k. split; [done|].
        rewrite Hv. apply elem_of_seq. lia.
    + rewrite lookup_seq_ge by lia. apply lookup_ge_None_2.
      rewrite length_scatter. lia.
  - intros v Hin. rewrite Hv in Hin. apply elem_of_seq in Hin.
    split; [lia|]. apply Hid. lia.
Qed.

(** ** Bit strings and the bits of a number *)

Lemma length_to_bits_le n k : length (to_bits_le n k) = k.
Proof. unfold to_bits_le. by rewrite length_fmap, length_seq. Qed.

Lemma lookup_to_bits_le n k i :
  (i < k)%nat → to_bits_le n k !! i = Some (Z.testbit n (Z.of_nat i)).
Proof.
  intros Hi. unfold to_bits_le. by rewrite list_lookup_fmap, lookup_seq_lt.
Qed.

Lemma lookup_bits_be d n i :
  (i < d)%nat → bits_be d n !! i = Some (Z.testbit n (Z.of_nat (d - 1 - i))).
Proof.
  intros Hi. unfold bits_be.
  rewrite reverse_lookup by (rewrite length_to_bits_le; lia).
  rewrite length_to_bits_le, lookup_to_bits_le by lia.
  do 3 f_equal. lia.
Qed.

Lemma to_bits_le_S n k :
  to_bits_le n (S k) = Z.testbit n 0 :: to_bits_le (Z.div2 n) k.
Proof.
  unfold to_bits_le. simpl. f_equal.
  rewrite <- fmap_S_seq, <- list_fmap_compose.
  apply list_fmap_ext. intros i x _. unfold compose.
  by rewrite Nat2Z.inj_succ, Z.div2_div, Z.div2_bits by lia.
Qed.

Lemma to_bits_le_above n k r :
  0 ≤ n < 2 ^ Z.of_nat k →
  to_bits_le n (k + r) = to_bits_le n k ++ replicate r false.
Proof.
  intros Hn. unfold to_bits_le. rewrite seq_app, fmap_app. f_equal.
  apply list_eq. intros i. rewrite list_lookup_fmap.
  destruct (decide (i < r)%nat).
  - rewrite lookup_seq_lt, lookup_replicate_2 by done. simpl.
    f_equal. apply (testbit_above (Z.of_nat k)); [done|lia].
  - rewrite lookup_seq_ge by lia. symmetry. apply lookup_replicate_None. lia.
Qed.

Lemma bin_digits_app p acc : bits.bin_digits p acc = bits.bin_digits p [] ++ acc.
Proof.
  revert acc. induction p as [p IH|p IH|]; intros acc; simpl; [| |done].
  - rewrite (IH ["1"%char]), IH. by rewrite <- app_assoc.
  - rewrite (IH ["0"%char]), IH. by rewrite <- app_assoc.
Qed.

Lemma bin_digits_bits p :
  bits.bin_digits p [] = char_of_bool <$> bits_be (Pos.size_nat p) (Zpos p).
Proof.
  unfold bits_be.
  induction p as [p IH|p IH|]; [| |done]; cbn [bits.bin_digits Pos.size_nat].
  - rewrite bin_digits_app, IH, to_bits_le_S.
    by rewrite reverse_cons, fmap_app.
  - rewrite bin_digits_app, IH, to_bits_le_S.
    by rewrite reverse_cons, fmap_app.
Qed.

Lemma size_nat_bounds p :
  2 ^ Z.of_nat (Pos.size_nat p) ≤ 2 * Zpos p
  ∧ Zpos p < 2 ^ Z.of_nat (Pos.size_nat p).
Proof.
  induction p as [p IH|p IH|]; cbn [Pos.size_nat]; [| |simpl; lia].
  - rewrite Nat2Z.inj_succ, Z.pow_succ_r by lia. lia.
  - rewrite Nat2Z.inj_succ, Z.pow_succ_r by lia. lia.
Qed.

Lemma format_0b_bits d n :
  0 < d → 0 ≤ n < 2 ^ d →
  bits.format_0b d n = char_of_bool <$> bits_be (Z.to_nat d) n.
Proof.
  intros Hd Hn. unfold bits_be. destruct n as [|p|p]; [| |lia].
  - unfold bits.format_0b. cbn [app length].
    assert (to_bits_le 0 (Z.to_nat d) = replicate (Z.to_nat d) false) as ->.
    { apply (to_bits_le_above 0 0 (Z.to_nat d)). simpl. lia. }
    rewrite reverse_replicate, fmap_replicate. simpl.
    replace (Z.to_nat d) with (S (Z.to_nat d - 0 - 1)) at 2 by lia.
    by rewrite replicate_S_end.
  - unfold bits.format_0b. cbn [app length].
    destruct (size_nat_bounds p) as [Hlo Hhi].
    assert (Hsize : (Pos.size_nat p ≤ Z.to_nat d)%nat).
    { destruct (decide (Pos.size_nat p ≤ Z.to_nat d)%nat); [done|].
      assert (2 * 2 ^ d ≤ 2 ^ Z.of_nat (Pos.size_nat p)); [|lia].
      rewrite <- Z.pow_succ_r by lia. apply Z.pow_le_mono_r; lia. }
    replace (Z.to_nat d) with (Pos.size_nat p + (Z.to_nat d - Pos.size_nat p))%nat at 2
      by lia.
    rewrite to_bits_le_above by lia.
    rewrite reverse_app, reverse_replicate, fmap_app, fmap_replicate.
    rewrite bin_digits_bits. unfold bits_be.
    rewrite length_fmap, length_reverse, length_to_bits_le.
    simpl. do 2 f_equal. lia.
Qed.

Lemma int_to_bit_string_bits d n :
  0 < d → 0 ≤ n < 2 ^ d →
  bits.int_to_bit_string n d = inr (char_of_bool <$> bits_be (Z.to_nat d) n).
Proof.
  intros Hd Hn. unfold bits.int_to_bit_string, bits.ge_two_pow.
  destruct (Z.ltb_spec d 0); [lia|].
  rewrite !bool_decide_eq_false_2 by lia. simpl.
  by rewrite format_0b_bits.
Qed.

Lemma of_bits_le_range bs : 0 ≤ of_bits_le bs < 2 ^ Z.of_nat (length bs).
Proof.
  induction bs as [|b bs IH]; [simpl; lia|].
  cbn [of_bits_le length]. rewrite Nat2Z.inj_succ, Z.pow_succ_r by lia.
  destruct b; simpl Z.b2z; lia.
Qed.

Lemma of_bits_le_inj bs1 bs2 :
  length bs1 = length bs2 → of_bits_le bs1 = of_bits_le bs2 → bs1 = bs2.
Proof.
  revert bs2. induction bs1 as [|b1 bs1 IH]; intros [|b2 bs2] Hlen Heq;
    simplify_eq/=; [done|].
  assert (b1 = b2 ∧ of_bits_le bs1 = of_bits_le bs2) as [-> ?].
  { destruct b1, b2; simpl in Heq; split; (done || lia). }
  f_equal. by apply IH.
Qed.

Lemma bit_string_to_int_bits bs :
  bs ≠ [] →
  bits.bit_string_to_int (char_of_bool <$> bs) = inr (of_bits_le (reverse bs)).
Proof.
  intros Hne. unfold bits.bit_string_to_int.
  assert (bits.BIT_STRING_PATTERN (char_of_bool <$> bs) = true) as ->.
  { assert (Hall : ∀ l, forallb bits.is_bit_char (char_of_bool <$> l) = true).
    { induction l as [|b' l IHl]; [done|].
      rewrite fmap_cons. cbn [forallb]. rewrite IHl. by destruct b'. }
    destruct bs as [|b bs]; [done|]. apply (Hall (b :: bs)). }
  simpl. f_equal. clear Hne.
  induction bs as [|b bs IH] using rev_ind; [done|].
  rewrite fmap_app, foldl_app, reverse_snoc. simpl. rewrite IH.
  rewrite Z.shiftl_mul_pow2 by lia. change (2 ^ 1) with 2.
  destruct b; cbn [char_of_bool Z.b2z]; unfold bits.int_of_bit;
    [rewrite bool_decide_eq_true_2 by done|rewrite bool_decide_eq_false_2 by done];
    lia.
Qed.

(** ** Permuting the bits of a location *)

Lemma res_map_inr {A B} (f : A → result B) (h : A → B) xs :
  (∀ x, x ∈ xs → f x = inr (h x)) → res_map f xs = inr (h <$> xs).
Proof.
  induction xs as [|x xs IH]; intros Hf; [done|].
  cbn [res_map]. rewrite (Hf x) by left. unfold mbind at 1, res_bind.
  rewrite IH by (intros; apply Hf; by right). done.
Qed.

Lemma rotation_checks_perm l d :
  rotation_checks l d = true → seqZ 0 d ≡ₚ l.
Proof.
  unfold rotation_checks. intros [Hlen Hall]%andb_prop.
  apply bool_decide_eq_true_1 in Hlen.
  apply submseteq_length_Permutation; [|rewrite length_seqZ; lia].
  apply NoDup_submseteq; [apply NoDup_seqZ|].
  intros i Hi. rewrite forallb_forall in Hall.
  eapply bool_decide_eq_true_1, Hall. by apply list_elem_of_In.
Qed.

Lemma permute_failing l d :
  0 ≤ d → d = 0 ∨ rotation_checks l d = false →
  bits.permute_bits_by_index_list 0 l d = inl ValueError.
Proof.
  intros Hd Hbad. unfold bits.permute_bits_by_index_list.
  rewrite bool_decide_eq_false_2 by lia.
  unfold rotation_checks in Hbad.
  destruct (bool_decide (Z.of_nat (length l) = d)) eqn:Hlen; [|done].
  destruct (forallb _ _) eqn:Hall; [|done]. simpl in *.
  destruct Hbad as [->|?]; [|done].
  apply bool_decide_eq_true_1 in Hlen. by destruct l.
Qed.

Section permuted.
Context (l : list Z) (d : Z).
Hypothesis d_pos : 0 < d.
Hypothesis checks : rotation_checks l d = true.

Lemma length_indices : Z.of_nat (length l) = d.
Proof using All. rewrite <- (rotation_checks_perm l d checks), length_seqZ. lia. Qed.

Lemma elem_of_indices i : i ∈ l ↔ 0 ≤ i < d.
Proof using All. rewrite <- (rotation_checks_perm l d checks), elem_of_seqZ. lia. Qed.

Lemma permute_permuted n :
  0 ≤ n < 2 ^ d → bits.permute_bits_by_index_list n l d = inr (permuted l d n).
Proof using All.
  intros Hn. unfold bits.permute_bits_by_index_list.
  rewrite bool_decide_eq_false_2 by lia.
  pose proof checks as [-> ->]%andb_prop. simpl.
  rewrite int_to_bit_string_bits by lia. unfold mbind at 1, res_bind.
  rewrite (res_map_inr _ (λ i, char_of_bool (Z.testbit n (d - 1 - i)))).
  - unfold mbind at 1, res_bind.
    rewrite (list_fmap_compose (λ i, Z.testbit n (d - 1 - i)) char_of_bool).
    rewrite bit_string_to_int_bits; [done|].
    pose proof length_indices as Hl. destruct l; [simpl in Hl; lia|done].
  - intros i Hi%elem_of_indices.
    rewrite <- (Z2Nat.id i) at 1 by lia. apply py_getitem_nat.
    rewrite list_lookup_fmap, lookup_bits_be by lia. simpl.
    do 3 f_equal. lia.
Qed.

Lemma permuted_range n : 0 ≤ permuted l d n < 2 ^ d.
Proof using All.
  unfold permuted.
  pose proof (of_bits_le_range
    (reverse ((λ i, Z.testbit n (d - 1 - i)) <$> l))) as H.
  by rewrite length_reverse, length_fmap, length_indices in H.
Qed.

Lemma permuted_inj n1 n2 :
  0 ≤ n1 < 2 ^ d → 0 ≤ n2 < 2 ^ d → permuted l d n1 = permuted l d n2 → n1 = n2.
Proof using All.
  intros H1 H2 Heq. unfold permuted in Heq.
  apply of_bits_le_inj in Heq; [|by rewrite !length_reverse, !length_fmap].
  apply (f_equal reverse) in Heq. rewrite !reverse_involutive in Heq.
  apply Z.bits_inj'. intros j Hj.
  destruct (decide (j < d)) as [Hlt|Hge].
  - assert (Hin : d - 1 - j ∈ l) by (apply elem_of_indices; lia).
    apply list_elem_of_lookup in Hin as [k Hk].
    apply (f_equal (.!! k)) in Heq.
    rewrite !list_lookup_fmap, Hk in Heq. simpl in Heq.
    replace (d - 1 - (d - 1 - j)) with j in Heq by lia. congruence.
  - by rewrite (testbit_above d n1), (testbit_above d n2) by lia.
Qed.

End permuted.

Lemma rotate_relocates d self rotation_list preserve_colors :
  0 < d → rotation_checks rotation_list d = true →
  VertexSet.dimension self = d →
  length (VertexSet.vertices self) = Z.to_nat (2 ^ d) →
  ∃ new self',
    VertexSet.rotate rotation_list preserve_colors self = (self', inr ()) ∧
    relocated (λ k, Z.to_nat (permuted rotation_list d (Z.of_nat k)))
      (VertexSet.vertices self) new ∧
    same_arrangement (VertexSet.set_vertices new self) self'.
Proof.
  intros Hd Hchecks Hdim Hlen.
  destruct (relocate_relocates preserve_colors
              (λ location, bits.permute_bits_by_index_list location rotation_list d)
              (λ k, Z.to_nat (permuted rotation_list d (Z.of_nat k))) self)
    as (new & self' & Hrun & Hmove & Hsame).
  - rewrite Hlen. intros k Hk.
    pose proof (permuted_range rotation_list d Hd Hchecks (Z.of_nat k)).
    rewrite permute_permuted by (done || lia).
    split; [f_equal; lia|lia].
  - rewrite Hlen. intros i j Hi Hj Hij.
    pose proof (permuted_range rotation_list d Hd Hchecks (Z.of_nat i)).
    pose proof (permuted_range rotation_list d Hd Hchecks (Z.of_nat j)).
    apply Nat2Z.inj, (permuted_inj rotation_list d Hd Hchecks); lia.
  - exists new, self'. split_and!; [|done..].
    unfold VertexSet.rotate. rewrite Hdim. by destruct preserve_colors.
Qed.

Lemma rotate_fails d self rotation_list preserve_colors :
  0 ≤ d → d = 0 ∨ rotation_checks rotation_list d = false →
  VertexSet.dimension self = d →
  VertexSet.vertices self ≠ [] →
  VertexSet.rotate rotation_list preserve_colors self = (self, inl ValueError).
Proof.
  intros Hd Hbad Hdim Hne.
  pose proof (relocate_fails preserve_colors
    (λ location, bits.permute_bits_by_index_list location rotation_list d)
    self ValueError Hne (permute_failing rotation_list d Hd Hbad)) as H.
  unfold VertexSet.rotate. rewrite Hdim. by destruct preserve_colors.
Qed.

(** ** The edges [EdgeSet.__init__] enumerates *)

Lemma weight_popcount n : 0 ≤ n → bits.weight n = inr (popcount n).
Proof. intros Hn. by destruct n. Qed.

Lemma res_fold_inr {X B} (body : B → X → result B) (h : B → X → B) xs acc :
  (∀ acc x, x ∈ xs → body acc x = inr (h acc x)) →
  res_fold body xs acc = inr (foldl h acc xs).
Proof.
  revert acc. induction xs as [|x xs IH]; intros acc Hbody; [done|].
  cbn [res_fold foldl]. rewrite Hbody by left. unfold mbind, res_bind.
  apply IH. intros acc' y Hy. apply Hbody. by right.
Qed.

Lemma insert_all_app ks1 ks2 m :
  insert_all (ks1 ++ ks2) m = insert_all ks2 (insert_all ks1 m).
Proof. apply foldl_app. Qed.

Lemma foldl_filter_insert {X} (P : X → Prop) `{∀ x, Decision (P x)}
    (key : X → Z * Z) (xs : list X) (m : gmap (Z * Z) string) :
  foldl (λ m x, if decide (P x) then <[key x := EmptyString]> m else m) m xs
  = insert_all (key <$> filter P xs) m.
Proof.
  revert m. induction xs as [|x xs IH]; intros m; [done|].
  cbn [foldl]. rewrite filter_cons. destruct (decide (P x)); by rewrite IH.
Qed.

Lemma foldl_insert_all_bind {X} (f : X → list (Z * Z)) (xs : list X)
    (m : gmap (Z * Z) string) :
  foldl (λ m x, insert_all (f x) m) m xs = insert_all (xs ≫= f) m.
Proof.
  revert m. induction xs as [|x xs IH]; intros m; [done|].
  cbn [foldl]. by rewrite bind_cons, insert_all_app, IH.
Qed.

Lemma init_loop_keys N :
  EdgeSet.init_loop N = inr (insert_all (edge_keys N) ∅).
Proof.
  unfold EdgeSet.init_loop, edge_keys.
  rewrite <- foldl_insert_all_bind.
  apply res_fold_inr. intros edges low Hlow%elem_of_seqZ.
  rewrite <- foldl_filter_insert.
  apply res_fold_inr. intros edges' high Hhigh%elem_of_seqZ.
  rewrite weight_popcount by (apply Z.lxor_nonneg; lia).
  unfold mbind, res_bind, mret, res_ret, is_edge.
  destruct (decide (popcount (Z.lxor low high) = 1)).
  - by rewrite bool_decide_eq_true_2.
  - by rewrite bool_decide_eq_false_2.
Qed.

Lemma insert_all_lookup ks m k :
  insert_all ks m !! k = if decide (k ∈ ks) then Some EmptyString else m !! k.
Proof.
  revert m. induction ks as [|k0 ks IH]; intros m.
  { rewrite decide_False; [done|apply not_elem_of_nil]. }
  unfold insert_all in *. cbn [foldl]. rewrite IH.
  destruct (decide (k ∈ ks)) as [Hin|Hnin].
  - rewrite decide_True; [done|by right].
  - destruct (decide (k = k0)) as [->|Hne].
    + rewrite decide_True by left. apply lookup_insert_eq.
    + rewrite decide_False by (intros [?|?]%elem_of_cons; done).
      by apply lookup_insert_ne.
Qed.

Lemma insert_all_size ks m :
  NoDup ks → (∀ k, k ∈ ks → m !! k = None) →
  size (insert_all ks m) = (size m + length ks)%nat.
Proof.
  revert m. induction ks as [|k0 ks IH]; intros m Hnd Hfresh; [simpl; lia|].
  apply NoDup_cons in Hnd as [Hk0 Hnd].
  unfold insert_all in *. cbn [foldl]. rewrite IH.
  - rewrite map_size_insert_None by (apply Hfresh; left). simpl. lia.
  - done.
  - intros k Hk. rewrite lookup_insert_ne by (intros ->; done).
    apply Hfresh. by right.
Qed.

Lemma elem_of_edge_keys N u v :
  (u, v) ∈ edge_keys N ↔ 0 ≤ u ≤ v ∧ v < N ∧ is_edge u v.
Proof.
  unfold edge_keys. rewrite list_elem_of_bind. split.
  - intros (low & Hin & Hlow%elem_of_seqZ).
    apply list_elem_of_fmap in Hin as (high & [= -> ->] & Hhigh).
    apply list_elem_of_filter in Hhigh as [Hedge Hhigh%elem_of_seqZ].
    repeat split; (lia || done).
  - intros (Hu & Hv & Hedge). exists u. split.
    + apply list_elem_of_fmap. exists v. split; [done|].
      apply list_elem_of_filter. split; [done|]. apply elem_of_seqZ. lia.
    + apply elem_of_seqZ. lia.
Qed.

Lemma NoDup_edge_keys N : NoDup (edge_keys N).
Proof.
  unfold edge_keys. apply NoDup_bind.
  - intros low1 low2 [u v] _ _
      (? & [= -> ->] & _)%list_elem_of_fmap (? & [= -> _] & _)%list_elem_of_fmap.
    done.
  - intros low _. apply NoDup_fmap_2; [intros ?? [= ?]; done|].
    apply NoDup_filter, NoDup_seqZ.
  - apply NoDup_seqZ.
Qed.

Lemma edge_set_init d :
  0 ≤ d →
  EdgeSet.init (VertexSet.init d)
  = inr {| EdgeSet.dimension := d;
           EdgeSet.edges := insert_all (edge_keys (2 ^ d)) ∅ |}.
Proof.
  intros Hd. unfold EdgeSet.init. simpl.
  unfold bits.how_many_bit_strings. rewrite bool_decide_eq_false_2 by lia.
  by rewrite init_loop_keys.
Qed.

(** ** Cubes reached through the public operations *)

Lemma cube_init d :
  0 ≤ d →
  Cube.init d
  = inr {| Cube.dimension := d;
           Cube.vertex_set := VertexSet.init d;
           Cube.edge_set := {| EdgeSet.dimension := d;
                               EdgeSet.edges := insert_all (edge_keys (2 ^ d)) ∅ |} |}.
Proof. intros Hd. unfold Cube.init. by rewrite edge_set_init. Qed.

Lemma on_vertex_set_vertex_set {A} (m : M VertexSet.t A) c :
  Cube.vertex_set (Cube.on_vertex_set m c).1 = (m (Cube.vertex_set c)).1.
Proof. unfold Cube.on_vertex_set. by destruct (m _). Qed.

Lemma on_vertex_set_edge_set {A} (m : M VertexSet.t A) c :
  Cube.edge_set (Cube.on_vertex_set m c).1 = Cube.edge_set c.
Proof. unfold Cube.on_vertex_set. by destruct (m _). Qed.

Lemma on_edge_set_vertex_set {A} (m : M EdgeSet.t A) c :
  Cube.vertex_set (Cube.on_edge_set m c).1 = Cube.vertex_set c.
Proof. unfold Cube.on_edge_set. by destruct (m _). Qed.

Lemma inv_nonempty d self : 0 ≤ d → inv d self → VertexSet.vertices self ≠ [].
Proof.
  intros Hd Hinv Hnil. apply inv_length in Hinv. rewrite Hnil in Hinv.
  simpl in Hinv. pose proof (Z.pow_pos_nonneg 2 d). lia.
Qed.

Lemma color_vertices_arrangement vertex_ids color_string self :
  same_arrangement self
    (VertexSet.color_vertices_by_id_list vertex_ids color_string self).1.
Proof.
  unfold VertexSet.color_vertices_by_id_list.
  apply (for_each_preserves (same_arrangement self));
    [|apply same_arrangement_refl].
  intros vertex_id self' Hsame.
  eapply same_arrangement_trans; [done|apply color_by_id_arrangement].
Qed.

Lemma rotate_inv d rotation_list preserve_colors self :
  0 ≤ d → inv d self →
  inv d (VertexSet.rotate rotation_list preserve_colors self).1.
Proof.
  intros Hd Hinv.
  destruct (decide (0 < d ∧ rotation_checks rotation_list d = true))
    as [[Hpos Hchecks]|Hbad].
  - destruct (rotate_relocates d self rotation_list preserve_colors)
      as (new & self' & -> & Hmove & Hsame);
      [done|done|apply Hinv|by apply inv_length|].
    eapply inv_arrangement; [|done].
    eapply inv_relocated; [| |done|done].
    + intros k Hk. cbv beta.
      pose proof (permuted_range rotation_list d Hpos Hchecks (Z.of_nat k)). lia.
    + intros i j Hi Hj Hij. cbv beta in Hij.
      pose proof (permuted_range rotation_list d Hpos Hchecks (Z.of_nat i)).
      pose proof (permuted_range rotation_list d Hpos Hchecks (Z.of_nat j)).
      apply Nat2Z.inj, (permuted_inj rotation_list d Hpos Hchecks); lia.
  - rewrite (rotate_fails d); [done|done| |apply Hinv|by eapply inv_nonempty].
    destruct (decide (d = 0)); [by left|right].
    destruct (rotation_checks rotation_list d); [|done].
    exfalso. apply Hbad. split; [lia|done].
Qed.

Lemma reflect_inv d bit_mask preserve_colors self :
  0 ≤ d → inv d self →
  inv d (VertexSet.reflect bit_mask preserve_colors self).1.
Proof.
  intros Hd Hinv.
  destruct (reflect_relocates d self bit_mask preserve_colors)
    as (new & self' & -> & Hmove & Hsame);
    [done|apply Hinv|by apply inv_length|].
  eapply inv_arrangement; [|done].
  eapply inv_relocated; [| |done|done].
  - intros k Hk. by apply flip_lt.
  - intros i j Hi Hj Hij.
    by rewrite <- (flip_flip d bit_mask i), Hij, flip_flip.
Qed.

Lemma run_inv d o c :
  0 ≤ d → inv d (Cube.vertex_set c) → inv d (Cube.vertex_set (Cube.run o c).1).
Proof.
  intros Hd Hinv. destruct o; simpl.
  - unfold Cube.rotate. rewrite on_vertex_set_vertex_set. by apply rotate_inv.
  - unfold Cube.reflect. rewrite on_vertex_set_vertex_set. by apply reflect_inv.
  - unfold Cube.reset_positions. rewrite on_vertex_set_vertex_set.
    rewrite (reset_positions_inv d) by done. simpl.
    destruct Hinv as (? & ? & ? & ?). by repeat split.
  - unfold Cube.color_vertices_by_id_list. rewrite on_vertex_set_vertex_set.
    eapply inv_arrangement; [done|apply color_vertices_arrangement].
  - unfold Cube.uncolor_vertices_by_id_list. rewrite on_vertex_set_vertex_set.
    eapply inv_arrangement; [done|apply color_vertices_arrangement].
  - unfold Cube.color_edges_by_id_list. by rewrite on_edge_set_vertex_set.
  - unfold Cube.uncolor_edges_by_id_list. by rewrite on_edge_set_vertex_set.
Qed.

Lemma run_all_inv d ops c :
  0 ≤ d → inv d (Cube.vertex_set c) → inv d (Cube.vertex_set (Cube.run_all ops c)).
Proof.
  intros Hd. revert c. induction ops as [|o ops IH]; intros c Hinv; [done|].
  apply IH. by apply run_inv.
Qed.

Lemma reachable_inv d c : 0 ≤ d → reachable d c → inv d (Cube.vertex_set c).
Proof.
  intros Hd (c0 & ops & Hinit & ->). rewrite cube_init in Hinit by done.
  injection Hinit as <-. apply run_all_inv; [done|]. by apply inv_init.
Qed.

Lemma lookup_id_by_location_nat self (k : nat) :
  VertexSet.lookup_id_by_location self (Z.of_nat k)
  = (λ v, Vertex.vertex_id (VertexSet.deref self v)) <$> VertexSet.vertices self !! k.
Proof.
  unfold VertexSet.lookup_id_by_location.
  rewrite lookup_vertex_by_location_nat. by destruct (_ !! k).
Qed.

Lemma inv_bijection d self : 0 ≤ d → inv d self → bijection (2 ^ d) self.
Proof.
  intros Hd Hinv. pose proof (inv_length d self Hinv) as Hlen.
  destruct Hinv as (Hdim & Hh & Hid & Hv).
  assert (Hnd : NoDup (VertexSet.vertices self)) by (rewrite Hv; apply NoDup_seq).
  assert (Hin : ∀ v, v ∈ VertexSet.vertices self ↔ (v < Z.to_nat (2 ^ d))%nat).
  { intros v. rewrite Hv, elem_of_seq. lia. }
  pose proof (pow2_to_nat d Hd) as Hpow.
  split_and!.
  - lia.
  - intros id Hrange.
    assert (Hmem : Z.to_nat id ∈ VertexSet.vertices self) by (apply Hin; lia).
    apply list_elem_of_lookup in Hmem as [k Hk].
    pose proof (lookup_lt_Some _ _ _ Hk) as Hklt.
    exists (Z.of_nat k). split_and!; [lia|lia| |].
    + rewrite lookup_id_by_location_nat, Hk. simpl. rewrite Hid by lia.
      f_equal. lia.
    + intros location' Hrange' Hlook.
      rewrite <- (Z2Nat.id location') in Hlook by lia.
      rewrite lookup_id_by_location_nat in Hlook.
      destruct (VertexSet.vertices self !! Z.to_nat location') as [v'|] eqn:Ev';
        [|done].
      simpl in Hlook. injection Hlook as Hv'.
      assert (v' < Z.to_nat (2 ^ d))%nat by (apply Hin; by eapply list_elem_of_lookup_2).
      rewrite Hid in Hv' by done.
      assert (v' = Z.to_nat id) as -> by lia.
      pose proof (NoDup_lookup _ _ _ _ Hnd Ev' Hk). lia.
  - intros location Hrange.
    destruct (lookup_lt_is_Some_2 (VertexSet.vertices self) (Z.to_nat location))
      as [v Hlook]; [lia|].
    assert (v < Z.to_nat (2 ^ d))%nat by (apply Hin; by eapply list_elem_of_lookup_2).
    exists v, (Z.of_nat v). rewrite <- (Z2Nat.id location) by lia.
    rewrite lookup_id_by_location_nat, lookup_vertex_by_location_nat, Hlook.
    simpl. rewrite Hid by done. split_and!; (done || lia).
Qed.

(** ** Coloring by id *)

Lemma inv_heap_ok d self : inv d self → heap_ok self.
Proof.
  intros (_ & Hh & _ & Hv) v Hin. rewrite Hv in Hin.
  apply elem_of_seq in Hin. lia.
Qed.

Lemma lookup_vertex_by_id_elem self vertex_id v :
  VertexSet.lookup_vertex_by_id self vertex_id = Some v →
  v ∈ VertexSet.vertices self.
Proof.
  unfold VertexSet.lookup_vertex_by_id.
  destruct (VertexSet.lookup_location_by_id self vertex_id); [|done].
  apply list_elem_of_lookup_2.
Qed.

Lemma color_by_id_found vertex_id color_string self v :
  VertexSet.lookup_vertex_by_id self vertex_id = Some v →
  VertexSet.color_by_id vertex_id color_string self
  = (VertexSet.set_heap
       (alter (λ v, Vertex.color v color_string) v (VertexSet.heap self)) self,
     inr ()).
Proof. intros H. unfold VertexSet.color_by_id. by rewrite H. Qed.

Lemma color_by_id_missing vertex_id color_string self :
  VertexSet.lookup_vertex_by_id self vertex_id = None →
  VertexSet.color_by_id vertex_id color_string self = (self, inl ValueError).
Proof. intros H. unfold VertexSet.color_by_id. by rewrite H. Qed.

Lemma for_each_app {S X} (body : X → M S unit) xs ys self :
  for_each body (xs ++ ys) self
  = match for_each body xs self with
    | (self', inr _) => for_each body ys self'
    | (self', inl e) => (self', inl e)
    end.
Proof.
  revert self. induction xs as [|x xs IH]; intros self; [done|].
  cbn [app for_each]. unfold mbind, M_bind.
  destruct (body x self) as [self' [e|[]]]; [done|]. apply IH.
Qed.

(** Coloring the ids of a list that are all present. *)
Lemma color_loop self color_string vertex_ids s :
  heap_ok self → same_arrangement self s →
  (∀ id, id ∈ vertex_ids → is_Some (VertexSet.lookup_vertex_by_id self id)) →
  ∃ s',
    for_each (λ vertex_id, VertexSet.color_by_id vertex_id color_string)
      vertex_ids s = (s', inr ()) ∧
    same_arrangement self s' ∧
    (∀ id v, id ∈ vertex_ids →
       VertexSet.lookup_vertex_by_id self id = Some v →
       Vertex.color_string (VertexSet.deref s' v) = color_string) ∧
    (∀ v, (∀ id, id ∈ vertex_ids →
             VertexSet.lookup_vertex_by_id self id ≠ Some v) →
       Vertex.color_string (VertexSet.deref s' v)
       = Vertex.color_string (VertexSet.deref s v)).
Proof.
  intros Hok. revert s.
  induction vertex_ids as [|id ids IH]; intros s Hsame Hpresent.
  { exists s. split_and!; [done|done| |done].
    intros id v Hin. by apply elem_of_nil in Hin. }
  destruct (Hpresent id) as [v0 Hv0]; [left|].
  assert (Hv0s : VertexSet.lookup_vertex_by_id s id = Some v0)
    by (by rewrite (lookup_vertex_by_id_arrangement self s)).
  assert (Hlt : (v0 < length (VertexSet.heap s))%nat).
  { destruct Hsame as (_ & _ & -> & _).
    by eapply Hok, lookup_vertex_by_id_elem. }
  cbn [for_each]. unfold mbind, M_bind.
  rewrite (color_by_id_found _ _ _ v0) by done.
  set (s1 := VertexSet.set_heap _ s).
  assert (Hsame1 : same_arrangement self s1).
  { eapply same_arrangement_trans; [done|].
    pose proof (color_by_id_arrangement id color_string s) as H.
    by rewrite (color_by_id_found _ _ _ v0) in H. }
  destruct (IH s1 Hsame1) as (s' & Hrun & Hsame' & Hcolored & Hother).
  { intros id' Hin. apply Hpresent. by right. }
  exists s'. split_and!; [done|done| |].
  - intros id' v [->|Hin]%elem_of_cons Hv; [|by eapply Hcolored].
    assert (v = v0) as -> by congruence.
    destruct (decide (Exists (λ id, VertexSet.lookup_vertex_by_id self id = Some v0) ids))
      as [(id'' & Hin & Hv'')%Exists_exists|Hnone].
    + by eapply Hcolored.
    + rewrite Hother.
      * subst s1. rewrite deref_color, decide_True by done. done.
      * intros id'' Hin Hv''. apply Hnone, Exists_exists. eauto.
  - intros v Hv. rewrite Hother by (intros; apply Hv; by right).
    subst s1. rewrite deref_color. rewrite decide_False; [done|].
    intros [-> _]. by apply (Hv id); [left|].
Qed.

(** ** Wildcard patterns *)

Lemma res_filter_total {A} (f : A → result bool) xs :
  (∀ x, x ∈ xs → ∃ b, f x = inr b) →
  res_filter f xs = inr (filter (λ x, f x = inr true) xs).
Proof.
  induction xs as [|x xs IH]; intros Hf; [done|].
  cbn [res_filter]. destruct (Hf x) as [b Hb]; [left|]. rewrite Hb.
  unfold mbind at 1, res_bind. rewrite IH by (intros; apply Hf; by right).
  unfold mbind, res_bind, mret, res_ret. rewrite filter_cons.
  destruct b.
  - case_decide; [reflexivity|congruence].
  - case_decide; [congruence|reflexivity].
Qed.

Lemma matches_loop_spec pattern number_as_string indices :
  length pattern = length number_as_string →
  (∀ i, i ∈ indices → 0 ≤ i < Z.of_nat (length pattern)) →
  ∃ b, bits.matches_loop pattern number_as_string indices = inr b ∧
       (b = true ↔
        ∀ i p n, i ∈ indices →
          pattern !! Z.to_nat i = Some p →
          number_as_string !! Z.to_nat i = Some n →
          p = "*"%char ∨ p = n).
Proof.
  intros Hlen. induction indices as [|i rest IH]; intros Hrange.
  { exists true. split; [done|]. split; [|done].
    intros _ i p n Hin. by apply elem_of_nil in Hin. }
  destruct IH as (b & Hrest & Hb); [intros; apply Hrange; by right|].
  assert (Hi : 0 ≤ i < Z.of_nat (length pattern)) by (apply Hrange; left).
  destruct (lookup_lt_is_Some_2 pattern (Z.to_nat i)) as [p Hp]; [lia|].
  destruct (lookup_lt_is_Some_2 number_as_string (Z.to_nat i)) as [n Hn]; [lia|].
  cbn [bits.matches_loop].
  rewrite (py_getitem_to_nat pattern i p); [|lia|exact Hp].
  unfold mbind at 1, res_bind.
  destruct (decide (p = "*"%char)) as [->|Hstar].
  - rewrite bool_decide_eq_true_2 by done. exists b. split; [done|].
    rewrite Hb. split.
    + intros H j p' n' [->|Hin]%elem_of_cons Hp' Hn'; [|by eapply H].
      left. congruence.
    + intros H j p' n' Hin. apply H. by right.
  - rewrite bool_decide_eq_false_2 by done.
    rewrite (py_getitem_to_nat number_as_string i n); [|lia|exact Hn].
    unfold mbind at 1, res_bind.
    destruct (decide (p = n)) as [->|Hpn].
    + rewrite bool_decide_eq_false_2 by (intros H; by apply H).
      exists b. split; [done|]. rewrite Hb. split.
      * intros H j p' n' [->|Hin]%elem_of_cons Hp' Hn'; [|by eapply H].
        right. congruence.
      * intros H j p' n' Hin. apply H. by right.
    + rewrite bool_decide_eq_true_2 by done.
      exists false. split; [done|]. split; [done|].
      intros H. destruct (H i p n) as [?|?]; [left|done|done|done|done].
Qed.

Lemma wildcard_pattern_true pattern :
  pattern ≠ [] → Forall (λ c, bits.is_wildcard_char c = true) pattern →
  bits.WILDCARD_STRING_PATTERN pattern = true.
Proof.
  intros Hne Hchars. destruct pattern as [|c cs]; [done|].
  unfold bits.WILDCARD_STRING_PATTERN.
  apply Is_true_true, forallb_True.
  eapply Forall_impl; [exact Hchars|]. intros x Hx. by apply Is_true_true.
Qed.

Lemma wildcard_pattern_false pattern :
  ¬ Forall (λ c, bits.is_wildcard_char c = true) pattern →
  bits.WILDCARD_STRING_PATTERN pattern = false.
Proof.
  intros Hchars. destruct pattern as [|c cs]; [done|].
  unfold bits.WILDCARD_STRING_PATTERN.
  apply not_true_is_false. intros Hall%Is_true_true%forallb_True.
  apply Hchars. eapply Forall_impl; [exact Hall|].
  intros x Hx. by apply Is_true_true.
Qed.

Section patterns.
Context (pattern : pystr) (d : Z).
Hypothesis d_pos : 0 < d.
Hypothesis pattern_length : Z.of_nat (length pattern) = d.
Hypothesis pattern_chars : Forall (λ c, bits.is_wildcard_char c = true) pattern.

Lemma matches_spec v :
  0 ≤ v < 2 ^ d →
  ∃ b, bits.matches pattern d v = inr b ∧ (b = true ↔ matches_pattern pattern d v).
Proof using All.
  intros Hv. unfold bits.matches.
  rewrite int_to_bit_string_bits by (done || lia).
  unfold mbind, res_bind.
  destruct (matches_loop_spec pattern
              (char_of_bool <$> bits_be (Z.to_nat d) v) (range d))
    as (b & -> & Hb).
  { rewrite length_fmap. unfold bits_be.
    rewrite length_reverse, length_to_bits_le. lia. }
  { intros i Hi%elem_of_seqZ. lia. }
  exists b. split; [done|]. rewrite Hb. clear Hb. split.
  - intros H i.
    destruct (pattern !! i) as [p|] eqn:Hp; [|done].
    pose proof (lookup_lt_Some _ _ _ Hp) as Hlt.
    destruct (H (Z.of_nat i) p (char_of_bool (Z.testbit v (d - 1 - Z.of_nat i))))
      as [->| ->].
    + apply elem_of_seqZ. lia.
    + by rewrite Nat2Z.id.
    + rewrite Nat2Z.id, list_lookup_fmap, lookup_bits_be by lia. simpl.
      do 3 f_equal. lia.
    + done.
    + split; intros [= Hc]; by destruct (Z.testbit v _).
  - intros H i p n Hi%elem_of_seqZ Hp Hn.
    rewrite list_lookup_fmap, lookup_bits_be in Hn by lia.
    simpl in Hn. injection Hn as <-.
    replace (Z.of_nat (Z.to_nat d - 1 - Z.to_nat i)) with (d - 1 - Z.of_nat (Z.to_nat i))
      by lia.
    destruct (H (Z.to_nat i)) as [H0 H1].
    rewrite Forall_forall in pattern_chars.
    pose proof (pattern_chars p (list_elem_of_lookup_2 _ _ _ Hp)) as Hchar.
    unfold bits.is_wildcard_char, bits.is_bit_char in Hchar.
    destruct (decide (p = "0"%char)) as [->|?]; [right; by rewrite H0|].
    destruct (decide (p = "1"%char)) as [->|?]; [right; by rewrite H1|].
    destruct (decide (p = "*"%char)) as [->|?]; [by left|].
    by rewrite !bool_decide_eq_false_2 in Hchar by done.
Qed.

Lemma pattern_to_int_list_filter :
  bits.pattern_to_int_list pattern d
  = inr (filter (λ v, bits.matches pattern d v = inr true) (range (2 ^ d))).
Proof using All.
  unfold bits.pattern_to_int_list.
  rewrite wildcard_pattern_true; [|intros E; rewrite E in *; simpl in *; lia|done].
  rewrite bool_decide_eq_true_2 by done. simpl.
  apply res_filter_total. intros v Hv%elem_of_seqZ.
  destruct (matches_spec v) as (b & Hb & _); [lia|]. eauto.
Qed.

Lemma elem_of_pattern_filter v :
  v ∈ filter (λ v, bits.matches pattern d v = inr true) (range (2 ^ d))
  ↔ 0 ≤ v < 2 ^ d ∧ matches_pattern pattern d v.
Proof using All.
  rewrite list_elem_of_filter. unfold range. rewrite elem_of_seqZ.
  split.
  - intros [Hm Hv]. split; [lia|].
    destruct (matches_spec v) as (b & Hb & Hiff); [lia|].
    apply Hiff. congruence.
  - intros [Hv Hm]. split; [|lia].
    destruct (matches_spec v) as (b & Hb & Hiff); [lia|].
    rewrite Hb. f_equal. by apply Hiff.
Qed.

End patterns.

Lemma pattern_to_int_list_error pattern d e :
  bits.pattern_to_int_list pattern d = inl e →
  e = ValueError ∧
  (pattern = [] ∨ ¬ Forall (λ c, bits.is_wildcard_char c = true) pattern
   ∨ Z.of_nat (length pattern) ≠ d).
Proof.
  intros Herr.
  destruct (decide (pattern = [])) as [->|Hne].
  { split; [|by left]. unfold bits.pattern_to_int_list in Herr.
    simpl in Herr. congruence. }
  destruct (decide (Forall (λ c, bits.is_wildcard_char c = true) pattern))
    as [Hchars|Hchars].
  - destruct (decide (Z.of_nat (length pattern) = d)) as [Hlen|Hlen].
    + rewrite pattern_to_int_list_filter in Herr; [done| |done|done].
      destruct pattern; [done|]. simpl in Hlen. lia.
    + unfold bits.pattern_to_int_list in Herr.
      rewrite (bool_decide_eq_false_2 _ Hlen) in Herr.
      destruct (negb _); simpl in Herr;
        (split; [congruence|by right; right]).
  - unfold bits.pattern_to_int_list in Herr.
    rewrite wildcard_pattern_false in Herr by done.
    simpl in Herr. split; [congruence|by right; left].
Qed.

Lemma pattern_to_int_list_malformed pattern d :
  pattern = [] ∨ ¬ Forall (λ c, bits.is_wildcard_char c = true) pattern
  ∨ Z.of_nat (length pattern) ≠ d →
  bits.pattern_to_int_list pattern d = inl ValueError.
Proof.
  intros Hbad. unfold bits.pattern_to_int_list.
  destruct (bits.WILDCARD_STRING_PATTERN pattern) eqn:Hpat; [|done].
  cbn [negb].
  destruct Hbad as [->|[Hchars|Hlen]].
  - done.
  - by rewrite wildcard_pattern_false in Hpat.
  - by rewrite (bool_decide_eq_false_2 _ Hlen).
Qed.

Lemma StronglySorted_seqZ m n : StronglySorted Z.lt (seqZ m n).
Proof.
  destruct (decide (0 ≤ n)) as [Hn|Hn]; [|rewrite seqZ_nil by lia; constructor].
  rewrite <- (Z2Nat.id n) by done. generalize (Z.to_nat n). clear. intros k.
  revert m. induction k as [|k IH]; intros m; [constructor|].
  rewrite seqZ_cons by lia. constructor.
  - replace (Z.pred (Z.of_nat (S k))) with (Z.of_nat k) by lia. apply IH.
  - apply Forall_forall. intros x Hx%elem_of_seqZ. lia.
Qed.

Lemma StronglySorted_filter {A} (R : relation A) (P : A → Prop)
    `{∀ x, Decision (P x)} (l : list A) :
  StronglySorted R l → StronglySorted R (filter P l).
Proof.
  induction 1 as [|x l Hl IH Hx]; [constructor|].
  rewrite filter_cons. destruct (decide (P x)); [|done].
  constructor; [done|]. apply Forall_forall.
  intros y [_ Hy]%list_elem_of_filter. rewrite Forall_forall in Hx. by apply Hx.
Qed.

(** ** Counting the edges *)

Lemma weight_loop_acc p acc : bits.weight_loop p acc = acc + bits.weight_loop p 0.
Proof.
  revert acc. induction p as [p IH|p IH|]; intros acc;
    cbn [bits.weight_loop]; [| |lia].
  - rewrite (IH (acc + 1)), (IH (0 + 1)). lia.
  - rewrite (IH (acc + 0)), (IH (0 + 0)). lia.
Qed.

Lemma popcount_double z (b : bool) :
  0 ≤ z → popcount (2 * z + Z.b2z b) = Z.b2z b + popcount z.
Proof.
  intros Hz. destruct z as [|p|p]; [by destruct b| |lia].
  destruct b.
  - change (2 * Z.pos p + Z.b2z true) with (Z.pos p~1).
    cbn [popcount bits.weight_loop Z.b2z]. rewrite weight_loop_acc. lia.
  - change (2 * Z.pos p + Z.b2z false) with (Z.pos p~0).
    cbn [popcount bits.weight_loop Z.b2z]. rewrite weight_loop_acc. lia.
Qed.

Lemma popcount_pos z : 0 < z → 0 < popcount z.
Proof.
  destruct z as [|p|p]; [lia| |lia]. intros _. cbn [popcount].
  induction p as [p IH|p IH|]; cbn [bits.weight_loop]; [| |lia].
  - rewrite weight_loop_acc. lia.
  - rewrite weight_loop_acc. lia.
Qed.

Lemma popcount_zero z : 0 ≤ z → popcount z = 0 → z = 0.
Proof.
  intros Hz Hp. destruct (decide (z = 0)); [done|].
  pose proof (popcount_pos z). lia.
Qed.

Lemma popcount_add_pow2 (d : nat) x :
  0 ≤ x < 2 ^ Z.of_nat d → popcount (2 ^ Z.of_nat d + x) = 1 + popcount x.
Proof.
  revert x. induction d as [|d IH]; intros x Hx.
  { assert (x = 0) as -> by (simpl in Hx; lia). done. }
  rewrite Nat2Z.inj_succ, Z.pow_succ_r in * by lia.
  pose proof (Z.div_mod x 2) as Hdm. pose proof (Z.mod_pos_bound x 2).
  assert (Hb : ∃ b : bool, x mod 2 = Z.b2z b).
  { destruct (decide (x mod 2 = 0)) as [->| ?]; [by exists false|].
    exists true. simpl. lia. }
  destruct Hb as [b Hb].
  replace (2 * 2 ^ Z.of_nat d + x) with (2 * (2 ^ Z.of_nat d + x `div` 2) + Z.b2z b)
    by lia.
  replace x with (2 * (x `div` 2) + Z.b2z b) at 2 by lia.
  assert (0 ≤ x `div` 2 < 2 ^ Z.of_nat d) by lia.
  rewrite !popcount_double by lia. rewrite IH by done. lia.
Qed.

Lemma add_pow2_lxor d x : 0 ≤ x < 2 ^ d → 2 ^ d + x = Z.lxor (2 ^ d) x.
Proof.
  intros Hx.
  assert (0 ≤ d).
  { destruct (decide (0 ≤ d)); [done|]. rewrite Z.pow_neg_r in Hx; lia. }
  apply Z.add_nocarry_lxor. apply Z.bits_inj'. intros i Hi.
  rewrite Z.land_spec, Z.bits_0, Z.pow2_bits_eqb by done.
  destruct (Z.eqb_spec d i) as [->|?]; [|done].
  by rewrite (testbit_above i x).
Qed.

Section halves.
Context (d : nat).
Let N := 2 ^ Z.of_nat d.

Lemma is_edge_cross low h :
  0 ≤ low < N → 0 ≤ h < N → is_edge low (N + h) ↔ h = low.
Proof.
  unfold N. intros Hlow Hh. unfold is_edge.
  rewrite (add_pow2_lxor _ h) by done.
  rewrite <- Z.lxor_assoc, (Z.lxor_comm low), Z.lxor_assoc.
  pose proof (lxor_below_pow2 (Z.of_nat d) low h Hlow Hh) as Hx.
  rewrite <- add_pow2_lxor by done.
  rewrite popcount_add_pow2 by done. split.
  - intros Hp. symmetry. apply Z.lxor_eq, popcount_zero; lia.
  - intros ->. by rewrite Z.lxor_nilpotent.
Qed.

Lemma is_edge_upper l h :
  0 ≤ l < N → 0 ≤ h < N → is_edge (N + l) (N + h) ↔ is_edge l h.
Proof.
  unfold N. intros Hl Hh. unfold is_edge.
  rewrite (add_pow2_lxor _ l), (add_pow2_lxor _ h) by done.
  rewrite (Z.lxor_comm (2 ^ Z.of_nat d) l).
  rewrite Z.lxor_assoc, <- (Z.lxor_assoc (2 ^ Z.of_nat d)).
  by rewrite Z.lxor_nilpotent, Z.lxor_0_l.
Qed.

End halves.

Lemma count_app {A} (P : A → Prop) `{∀ x, Decision (P x)} (l1 l2 : list A) :
  count P (l1 ++ l2) = (count P l1 + count P l2)%nat.
Proof. unfold count. by rewrite filter_app, length_app. Qed.

Lemma count_ext {A} (P Q : A → Prop) `{∀ x, Decision (P x)} `{∀ x, Decision (Q x)}
    (l : list A) :
  (∀ x, x ∈ l → P x ↔ Q x) → count P l = count Q l.
Proof.
  unfold count. induction l as [|x l IH]; intros Hext; [done|].
  rewrite !filter_cons.
  assert (length (filter P l) = length (filter Q l))
    by (apply IH; intros; apply Hext; by right).
  destruct (decide (P x)) as [HP|HP], (decide (Q x)) as [HQ|HQ]; simpl; try lia.
  - exfalso. apply HQ, Hext; [left|done].
  - exfalso. apply HP, Hext; [left|done].
Qed.

Lemma count_fmap {A B} (g : A → B) (P : B → Prop) `{∀ y, Decision (P y)}
    (l : list A) :
  count P (g <$> l) = count (λ x, P (g x)) l.
Proof.
  unfold count. induction l as [|x l IH]; [done|].
  rewrite fmap_cons, !filter_cons. destruct (decide (P (g x))); simpl; lia.
Qed.

Lemma count_eq_NoDup {A} `{EqDecision A} (x : A) (l : list A) :
  NoDup l → x ∈ l → count (λ y, y = x) l = 1%nat.
Proof.
  unfold count. induction 1 as [|y l Hy Hnd IH]; intros Hin.
  { by apply elem_of_nil in Hin. }
  rewrite filter_cons. destruct (decide (y = x)) as [->|Hne].
  - simpl. f_equal. apply length_zero_iff_nil.
    apply list_eq. intros i. rewrite lookup_nil.
    destruct (filter _ l !! i) as [z|] eqn:E; [|done].
    apply list_elem_of_lookup_2, list_elem_of_filter in E as [-> ?]. done.
  - apply IH. apply elem_of_cons in Hin as [->|?]; done.
Qed.

Lemma sum_list_with_ext {A} (f g : A → nat) (l : list A) :
  (∀ x, x ∈ l → f x = g x) → sum_list_with f l = sum_list_with g l.
Proof.
  induction l as [|x l IH]; intros Hext; [done|]. simpl.
  rewrite (Hext x) by left. rewrite IH; [done|]. intros; apply Hext; by right.
Qed.

Lemma sum_list_with_fmap {A B} (f : B → nat) (g : A → B) (l : list A) :
  sum_list_with f (g <$> l) = sum_list_with (λ x, f (g x)) l.
Proof.
  induction l as [|x l IH]; [done|]. rewrite fmap_cons.
  cbn [sum_list_with]. by rewrite IH.
Qed.

Lemma sum_list_with_succ {A} (f : A → nat) (l : list A) :
  sum_list_with (λ x, f x + 1)%nat l = (sum_list_with f l + length l)%nat.
Proof. induction l as [|x l IH]; [done|]. simpl. rewrite IH. lia. Qed.

Lemma length_bind {A B} (f : A → list B) (l : list A) :
  length (l ≫= f) = sum_list_with (λ x, length (f x)) l.
Proof.
  induction l as [|x l IH]; [done|].
  rewrite bind_cons, length_app, IH. done.
Qed.

Lemma length_edge_keys N : length (edge_keys N) = sum_list_with (row N) (range N).
Proof.
  unfold edge_keys. rewrite length_bind. apply sum_list_with_ext.
  intros low _. by rewrite length_fmap.
Qed.

Section doubling.
Context (d : nat).
Let N := 2 ^ Z.of_nat d.

Lemma row_lower low : 0 ≤ low < N → row (2 * N) low = (row N low + 1)%nat.
Proof.
  intros Hlow. unfold row, range2.
  replace (2 * N - low) with ((N - low) + N) by lia.
  rewrite seqZ_app by lia. rewrite count_app. f_equal.
  replace (low + (N - low)) with (N + 0) by lia.
  rewrite <- fmap_add_seqZ, count_fmap.
  rewrite (count_ext _ (λ h, h = low)).
  - apply count_eq_NoDup; [apply NoDup_seqZ|]. apply elem_of_seqZ. lia.
  - intros h Hh%elem_of_seqZ. apply is_edge_cross; unfold N in *; lia.
Qed.

Lemma row_upper l : 0 ≤ l < N → row (2 * N) (N + l) = row N l.
Proof.
  intros Hl. unfold row, range2.
  replace (2 * N - (N + l)) with (N - l) by lia.
  rewrite <- fmap_add_seqZ, count_fmap.
  apply count_ext. intros h Hh%elem_of_seqZ.
  apply is_edge_upper; unfold N in *; lia.
Qed.

Lemma edge_keys_double :
  length (edge_keys (2 * N))
  = (2 * length (edge_keys N) + Z.to_nat N)%nat.
Proof.
  assert (0 < N) by (apply Z.pow_pos_nonneg; lia).
  rewrite !length_edge_keys. unfold range.
  replace (2 * N) with (N + N) at 2 by lia.
  rewrite seqZ_app, sum_list_with_app by lia.
  rewrite (sum_list_with_ext (row (2 * N)) (λ low, row N low + 1)%nat (seqZ 0 N)).
  - rewrite sum_list_with_succ, length_seqZ.
    replace (0 + N) with (N + 0) by lia.
    rewrite <- fmap_add_seqZ, sum_list_with_fmap.
    rewrite (sum_list_with_ext (λ x, row (2 * N) (N + x)) (row N) (seqZ 0 N));
      [lia|].
    intros l Hl%elem_of_seqZ. apply row_upper. lia.
  - intros low Hlow%elem_of_seqZ. apply row_lower. lia.
Qed.

End doubling.

Lemma edge_count (d : nat) :
  2 * Z.of_nat (length (edge_keys (2 ^ Z.of_nat d))) = Z.of_nat d * 2 ^ Z.of_nat d.
Proof.
  induction d as [|d IH]; [done|].
  rewrite Nat2Z.inj_succ, Z.pow_succ_r by lia.
  rewrite edge_keys_double.
  assert (0 < 2 ^ Z.of_nat d) by (apply Z.pow_pos_nonneg; lia).
  rewrite Nat2Z.inj_add, Nat2Z.inj_mul, Z2Nat.id by lia.
  change (Z.of_nat 2) with 2. nia.
Qed.

(** ** Looking vertices up in a reachable cube *)

Lemma inv_lookup_vertex_by_id d self vertex_id :
  0 ≤ d → inv d self →
  VertexSet.lookup_vertex_by_id self vertex_id
  = if decide (0 ≤ vertex_id < 2 ^ d) then Some (Z.to_nat vertex_id) else None.
Proof.
  intros Hd (Hdim & Hh & Hid & Hv).
  assert (Hin : ∀ v, v ∈ VertexSet.vertices self ↔ (v < Z.to_nat (2 ^ d))%nat).
  { intros v. rewrite Hv, elem_of_seq. lia. }
  pose proof (pow2_to_nat d Hd) as Hpow.
  case_decide as Hrange.
  - destruct (lookup_vertex_by_id_find self vertex_id (Z.to_nat vertex_id))
      as (v' & -> & Hv' & Hid').
    + apply Hin. lia.
    + rewrite Hid; lia.
    + apply Hin in Hv'. rewrite Hid in Hid' by done. f_equal. lia.
  - unfold VertexSet.lookup_vertex_by_id, VertexSet.lookup_location_by_id.
    destruct (list_find _ _) as [[i v]|] eqn:E; [|done]. exfalso.
    apply list_find_Some in E as (Hi & Hvid & _).
    apply list_elem_of_lookup_2, Hin in Hi. rewrite Hid in Hvid by done. lia.
Qed.

Lemma init_color_string d v :
  0 ≤ d → (v < Z.to_nat (2 ^ d))%nat →
  Vertex.color_string (VertexSet.deref (VertexSet.init d) v) = None.
Proof.
  intros Hd Hv. unfold VertexSet.init, VertexSet.deref, bits.how_many_bit_strings, range.
  rewrite bool_decide_eq_false_2 by lia. simpl.
  erewrite list_lookup_total_correct;
    [|rewrite list_lookup_fmap, lookup_seqZ_lt by lia; done].
  done.
Qed.

Lemma edge_present es u v :
  is_Some (EdgeSet.lookup_color_by_vertex_ids es u v) →
  is_Some (EdgeSet.edges es !! (u, v))
  ∨ (EdgeSet.edges es !! (u, v) = None ∧ is_Some (EdgeSet.edges es !! (v, u))).
Proof.
  unfold EdgeSet.lookup_color_by_vertex_ids.
  destruct (EdgeSet.edges es !! (u, v)) as [c|]; [left; eauto|]. by right.
Qed.

Lemma color_by_ids_lookup es u v tag :
  is_Some (EdgeSet.lookup_color_by_vertex_ids es u v) →
  ∃ es', EdgeSet.color_by_ids u v tag es = (es', inr ()) ∧
         EdgeSet.lookup_color_by_vertex_ids es' u v = Some tag.
Proof.
  intros [Huv|[Huv Hvu]]%edge_present; unfold EdgeSet.color_by_ids.
  - rewrite bool_decide_eq_true_2 by done. eexists. split; [done|].
    unfold EdgeSet.lookup_color_by_vertex_ids. simpl.
    by rewrite lookup_insert_eq.
  - rewrite bool_decide_eq_false_2 by (rewrite Huv; by intros [? ?]).
    rewrite bool_decide_eq_true_2 by done. eexists. split; [done|].
    unfold EdgeSet.lookup_color_by_vertex_ids. simpl.
    rewrite lookup_insert_ne.
    + by rewrite Huv, lookup_insert_eq.
    + intros [= -> _]. rewrite Huv in Hvu. by destruct Hvu.
Qed.

(** * The cube's contract *)

(** C1. For a cube built with dimension [d >= 0], after any sequence of
    public operations (rotations, reflections, resets, colorings and
    uncolorings of vertices and edges, with any arguments; a call that
    raises counts with the state it leaves), every id in [[0, 2^d)]
    occupies exactly one location and every location in [[0, 2^d)] holds
    a vertex. *)
Theorem bijection_invariant (d : Z) (ops : list Cube.op) :
  0 ≤ d →
  ∃ c0, Cube.init d = inr c0 ∧
        bijection (2 ^ d) (Cube.vertex_set (Cube.run_all ops c0)).
Proof.
  intros Hd. eexists. split; [by apply cube_init|].
  apply inv_bijection; [done|]. apply run_all_inv; [done|]. by apply inv_init.
Qed.

Lemma bijection_invariant_witness :
  ∃ c0, Cube.init 3 = inr c0 ∧
        bijection (2 ^ 3)
          (Cube.vertex_set
             (Cube.run_all
                [Cube.Rotate [1; 2; 0] true; Cube.Reflect 5 false;
                 Cube.ColorVertices [0; 9] "red"; Cube.Rotate [0; 0; 1] false;
                 Cube.ResetPositions; Cube.UncolorEdges [0; 1]] c0)).
Proof. apply (bijection_invariant 3). lia. Defined.

(** C2. In a cube of dimension [d >= 0], for every integer mask and
    either value of [preserve_colors], reflecting twice with the same mask
    succeeds both times and leaves every location holding the vertex, and
    so the id, it held before the first reflection. *)
Theorem reflect_involution (d : Z) (c : Cube.t) (bit_mask : Z) (preserve_colors : bool) :
  0 ≤ d → reachable d c →
  ∃ c1 c2,
    Cube.reflect bit_mask preserve_colors c = (c1, inr ()) ∧
    Cube.reflect bit_mask preserve_colors c1 = (c2, inr ()) ∧
    ∀ location,
      VertexSet.lookup_vertex_by_location (Cube.vertex_set c2) location
      = VertexSet.lookup_vertex_by_location (Cube.vertex_set c) location ∧
      VertexSet.lookup_id_by_location (Cube.vertex_set c2) location
      = VertexSet.lookup_id_by_location (Cube.vertex_set c) location.
Proof.
  intros Hd Hreach. pose proof (reachable_inv d c Hd Hreach) as Hinv.
  set (self := Cube.vertex_set c) in *.
  destruct (reflect_relocates d self bit_mask preserve_colors)
    as (new1 & self1 & Hrun1 & Hmove1 & Hsame1);
    [done|apply Hinv|by apply inv_length|].
  pose proof Hsame1 as (Hdim1 & Hv1 & _ & _). simpl in Hdim1, Hv1.
  destruct (reflect_relocates d self1 bit_mask preserve_colors)
    as (new2 & self2 & Hrun2 & Hmove2 & Hsame2).
  { done. }
  { rewrite Hdim1. apply Hinv. }
  { rewrite Hv1. destruct Hmove1 as [-> _]. by apply inv_length. }
  rewrite Hv1 in Hmove2.
  assert (new2 = VertexSet.vertices self) as ->.
  { eapply relocated_twice; [|done|done].
    rewrite (inv_length d self Hinv). intros k Hk.
    split; [by apply flip_lt|by apply flip_flip]. }
  assert (Hsame : same_arrangement self self2).
  { eapply same_arrangement_trans; [|exact Hsame2].
    destruct Hsame1 as (? & ? & ? & Hid). by repeat split. }
  exists (Cube.on_vertex_set (VertexSet.reflect bit_mask preserve_colors) c).1.
  exists (Cube.mk (Cube.dimension c) self2 (Cube.edge_set c)).
  unfold Cube.reflect, Cube.on_vertex_set. fold self. rewrite Hrun1. simpl.
  rewrite Hrun2. split_and!; [done|done|].
  intros location. simpl. split.
  - unfold VertexSet.lookup_vertex_by_location.
    by destruct Hsame as (_ & -> & _).
  - by apply lookup_id_by_location_arrangement.
Qed.

Lemma reflect_involution_witness :
  ∃ c1 c2,
    Cube.reflect 6 true (Cube.run_all [Cube.Rotate [1; 0; 2] false] (new_cube 3))
      = (c1, inr ()) ∧
    Cube.reflect 6 true c1 = (c2, inr ()) ∧
    ∀ location,
      VertexSet.lookup_vertex_by_location (Cube.vertex_set c2) location
      = VertexSet.lookup_vertex_by_location
          (Cube.vertex_set
             (Cube.run_all [Cube.Rotate [1; 0; 2] false] (new_cube 3))) location ∧
      VertexSet.lookup_id_by_location (Cube.vertex_set c2) location
      = VertexSet.lookup_id_by_location
          (Cube.vertex_set
             (Cube.run_all [Cube.Rotate [1; 0; 2] false] (new_cube 3))) location.
Proof.
  apply (reflect_involution 3); [lia|].
  exists (new_cube 3), [Cube.Rotate [1; 0; 2] false].
  split; [vm_compute; reflexivity|reflexivity].
Defined.

(** C3. [rotate], [reflect] and [reset_positions] leave the edge set as
    it was: the same id pairs with the same color tags, whatever the
    arguments and whether or not the call raises. *)
Theorem automorphisms_keep_edge_set
    (c : Cube.t) (rotation_list : list Z) (bit_mask : Z) (preserve_colors : bool) :
  Cube.edge_set (Cube.rotate rotation_list preserve_colors c).1 = Cube.edge_set c ∧
  Cube.edge_set (Cube.reflect bit_mask preserve_colors c).1 = Cube.edge_set c ∧
  Cube.edge_set (Cube.reset_positions c).1 = Cube.edge_set c ∧
  ∀ c', c' = (Cube.rotate rotation_list preserve_colors c).1
        ∨ c' = (Cube.reflect bit_mask preserve_colors c).1
        ∨ c' = (Cube.reset_positions c).1 →
    ∀ u v, EdgeSet.edges (Cube.edge_set c') !! (u, v)
           = EdgeSet.edges (Cube.edge_set c) !! (u, v).
Proof.
  unfold Cube.rotate, Cube.reflect, Cube.reset_positions.
  rewrite !on_vertex_set_edge_set. split_and!; [done..|].
  intros c' [->|[->| ->]] u v; by rewrite on_vertex_set_edge_set.
Qed.

(** What [lookup_vertex_by_location] returns, location by location. *)
Lemma lookup_vertex_by_location_cases self location :
  let n := Z.of_nat (length (VertexSet.vertices self)) in
  VertexSet.lookup_vertex_by_location self location
  = if decide (0 ≤ location < n) then VertexSet.vertices self !! Z.to_nat location
    else if decide (- n ≤ location < 0)
         then VertexSet.vertices self !! Z.to_nat (n + location)
         else None.
Proof.
  simpl. unfold VertexSet.lookup_vertex_by_location, py_getitem, py_index.
  repeat case_decide; try done.
  - destruct (lookup_lt_is_Some_2 (VertexSet.vertices self) (Z.to_nat location))
      as [v ->]; [lia|done].
  - destruct (lookup_lt_is_Some_2 (VertexSet.vertices self)
                (Z.to_nat (Z.of_nat (length (VertexSet.vertices self)) + location)))
      as [v ->]; [lia|done].
Qed.

(** C4. A negative location is not out of bounds for the Python list:
    in the new cube of dimension 1, location [-1] answers with the vertex
    at location 1 instead of [None]; only locations below [-N] or from [N]
    on answer [None]. *)
Theorem lookup_vertex_by_location_negative :
  VertexSet.lookup_vertex_by_location (VertexSet.init 1) (-1) = Some 1%nat ∧
  VertexSet.lookup_id_by_location (VertexSet.init 1) (-1) = Some 1 ∧
  VertexSet.lookup_vertex_by_location (VertexSet.init 1) 1 = Some 1%nat ∧
  VertexSet.lookup_vertex_by_location (VertexSet.init 1) 2 = None ∧
  VertexSet.lookup_vertex_by_location (VertexSet.init 1) (-3) = None.
Proof. by vm_compute. Qed.

(** C5. [get_induced_edges_from_id_list] tests the pair
    [(idList[i], idList[j])] as it stands against keys stored low id
    first, so an edge whose ends are listed high id first is left out: in
    dimension 1 the list [[1, 0]] induces nothing although [(0, 1)] is an
    edge, while [[0, 1]] induces it; in dimension 2 the list [[0, 1, 3]]
    induces exactly [(0, 1)] and [(1, 3)]. *)
Theorem induced_edges_depend_on_order :
  is_Some (EdgeSet.edges (Cube.edge_set (new_cube 1)) !! (0, 1)) ∧
  EdgeSet.get_induced_edges_from_id_list (Cube.edge_set (new_cube 1)) [1; 0]
    = inr [] ∧
  EdgeSet.get_induced_edges_from_id_list (Cube.edge_set (new_cube 1)) [0; 1]
    = inr [(0, 1)] ∧
  EdgeSet.get_induced_edges_from_id_list (Cube.edge_set (new_cube 2)) [0; 1; 3]
    = inr [(0, 1); (1, 3)] ∧
  Cube.init 1 = inr (new_cube 1) ∧ Cube.init 2 = inr (new_cube 2).
Proof.
  split_and!; [|by vm_compute..|by apply cube_init|by apply cube_init].
  exists EmptyString. by vm_compute.
Qed.

(** C6, as the claim states it, fails for vertices: the vertex of the new
    cube of dimension 1 carries [None], and after coloring and uncoloring
    it carries the empty string. *)
Lemma uncolored_vertex_differs_from_new :
  let self := VertexSet.init 1 in
  let self1 := (VertexSet.color_by_id 0 (Some "red"%string) self).1 in
  let self2 := (VertexSet.uncolor_by_id 0 self1).1 in
  color_of self 0 = Some None ∧
  color_of self2 0 = Some (Some EmptyString) ∧
  color_of self2 0 ≠ color_of self 0.
Proof. by vm_compute. Qed.

(** C6, amended. Coloring a vertex that is present, or an edge that
    exists, and then uncoloring it succeeds and leaves the empty string as
    its tag.  For an edge that is the tag it carried at construction; a
    vertex carries [None] at construction. *)
Theorem color_uncolor_round_trip
    (self : VertexSet.t) (vertex_id : Z) (c : color)
    (es : EdgeSet.t) (u v : Z) (tag : string) (d : Z) :
  heap_ok self →
  is_Some (VertexSet.lookup_vertex_by_id self vertex_id) →
  is_Some (EdgeSet.lookup_color_by_vertex_ids es u v) →
  0 ≤ d →
  (∃ self1 self2,
     VertexSet.color_by_id vertex_id c self = (self1, inr ()) ∧
     VertexSet.uncolor_by_id vertex_id self1 = (self2, inr ()) ∧
     color_of self2 vertex_id = Some (Some EmptyString)) ∧
  (∃ es1 es2,
     EdgeSet.color_by_ids u v tag es = (es1, inr ()) ∧
     EdgeSet.uncolor_by_ids u v es1 = (es2, inr ()) ∧
     EdgeSet.lookup_color_by_vertex_ids es2 u v = Some EmptyString) ∧
  (∃ c0, Cube.init d = inr c0 ∧
     (∀ u' v' tag', EdgeSet.lookup_color_by_vertex_ids (Cube.edge_set c0) u' v'
                    = Some tag' → tag' = EmptyString) ∧
     (∀ id, 0 ≤ id < 2 ^ d → color_of (Cube.vertex_set c0) id = Some None)).
Proof.
  intros Hok [vertex Hvertex] Hedge Hd. split_and!.
  - destruct (color_loop self (Some EmptyString) [vertex_id]
                (VertexSet.color_by_id vertex_id c self).1)
      as (self2 & Hrun & Hsame & Hcolored & _).
    + done.
    + apply color_by_id_arrangement.
    + intros id ->%list_elem_of_singleton. eauto.
    + cbn [for_each] in Hrun. unfold mbind, M_bind in Hrun.
      fold (VertexSet.uncolor_by_id vertex_id) in Hrun.
      destruct (VertexSet.uncolor_by_id vertex_id _) as [self2' [e|[]]] eqn:E;
        [done|]. injection Hrun as ->.
      exists (VertexSet.color_by_id vertex_id c self).1, self2.
      split_and!; [by rewrite (color_by_id_found _ _ _ vertex)|done|].
      unfold color_of.
      rewrite (lookup_vertex_by_id_arrangement self self2), Hvertex by done.
      simpl. do 2 f_equal. eapply Hcolored; [left|done].
  - destruct (color_by_ids_lookup es u v tag Hedge) as (es1 & Hrun1 & Hlook1).
    destruct (color_by_ids_lookup es1 u v EmptyString) as (es2 & Hrun2 & Hlook2);
      [by rewrite Hlook1|]. eauto.
  - eexists. split; [by apply cube_init|]. simpl. split.
    + intros u' v' tag'. unfold EdgeSet.lookup_color_by_vertex_ids. simpl.
      rewrite !insert_all_lookup, lookup_empty.
      repeat case_decide; simpl; intros ?; by simplify_eq.
    + intros id Hid. unfold color_of.
      rewrite (inv_lookup_vertex_by_id d) by (done || by apply inv_init).
      rewrite decide_True by done. simpl.
      rewrite init_color_string; [done|done|lia].
Qed.

Lemma color_uncolor_round_trip_witness :
  (∃ self1 self2,
     VertexSet.color_by_id 2 (Some "red"%string) (VertexSet.init 2) = (self1, inr ()) ∧
     VertexSet.uncolor_by_id 2 self1 = (self2, inr ()) ∧
     color_of self2 2 = Some (Some EmptyString)) ∧
  (∃ es1 es2,
     EdgeSet.color_by_ids 3 1 "blue" (Cube.edge_set (new_cube 2)) = (es1, inr ()) ∧
     EdgeSet.uncolor_by_ids 3 1 es1 = (es2, inr ()) ∧
     EdgeSet.lookup_color_by_vertex_ids es2 3 1 = Some EmptyString) ∧
  (∃ c0, Cube.init 2 = inr c0 ∧
     (∀ u' v' tag', EdgeSet.lookup_color_by_vertex_ids (Cube.edge_set c0) u' v'
                    = Some tag' → tag' = EmptyString) ∧
     (∀ id, 0 ≤ id < 2 ^ 2 → color_of (Cube.vertex_set c0) id = Some None)).
Proof.
  apply (color_uncolor_round_trip (VertexSet.init 2) 2 (Some "red"%string)
           (Cube.edge_set (new_cube 2)) 3 1 "blue" 2).
  - intros v Hv. vm_compute in Hv. vm_compute.
    repeat (apply elem_of_cons in Hv as [->|Hv]; [lia|]).
    by apply elem_of_nil in Hv.
  - vm_compute. eauto.
  - vm_compute. eauto.
  - lia.
Defined.

(** C8. [color_vertices_by_id_list] colors the ids in list order and is
    not all-or-nothing: when the ids before the first absent one are all
    present, the call raises [ValueError] at the absent id, every earlier
    id keeps the new color, and the arrangement of the vertices is
    untouched. *)
Theorem color_vertices_by_id_list_partial
    (d : Z) (c : Cube.t) (colored : list Z) (missing : Z) (rest : list Z)
    (color_string : string) :
  0 ≤ d → reachable d c →
  (∀ id, id ∈ colored → 0 ≤ id < 2 ^ d) →
  ¬ (0 ≤ missing < 2 ^ d) →
  ∃ c',
    Cube.color_vertices_by_id_list (colored ++ missing :: rest) color_string c
      = (c', inl ValueError) ∧
    (∀ id, id ∈ colored →
       color_of (Cube.vertex_set c') id = Some (Some color_string)) ∧
    VertexSet.vertices (Cube.vertex_set c') = VertexSet.vertices (Cube.vertex_set c) ∧
    Cube.edge_set c' = Cube.edge_set c.
Proof.
  intros Hd Hreach Hcolored Hmissing.
  pose proof (reachable_inv d c Hd Hreach) as Hinv.
  set (self := Cube.vertex_set c) in *.
  destruct (color_loop self (Some color_string) colored self)
    as (self' & Hrun & Hsame & Hcol & _).
  { by eapply inv_heap_ok. }
  { apply same_arrangement_refl. }
  { intros id Hid. rewrite (inv_lookup_vertex_by_id d) by done.
    rewrite decide_True by (by apply Hcolored). eauto. }
  exists (Cube.mk (Cube.dimension c) self' (Cube.edge_set c)).
  split_and!; simpl.
  - unfold Cube.color_vertices_by_id_list, Cube.on_vertex_set,
      VertexSet.color_vertices_by_id_list.
    fold self. rewrite for_each_app, Hrun. cbn [for_each].
    unfold mbind, M_bind. rewrite color_by_id_missing; [done|].
    rewrite (lookup_vertex_by_id_arrangement self self') by done.
    rewrite (inv_lookup_vertex_by_id d) by done. by rewrite decide_False.
  - intros id Hid. unfold color_of.
    rewrite (lookup_vertex_by_id_arrangement self self') by done.
    rewrite (inv_lookup_vertex_by_id d) by done.
    rewrite decide_True by (by apply Hcolored). simpl. do 2 f_equal.
    eapply Hcol; [done|]. rewrite (inv_lookup_vertex_by_id d) by done.
    by rewrite decide_True by (by apply Hcolored).
  - by destruct Hsame as (_ & -> & _).
  - done.
Qed.

Lemma color_vertices_by_id_list_partial_witness :
  ∃ c',
    Cube.color_vertices_by_id_list ([0; 3] ++ 4 :: [1]) "red" (new_cube 2)
      = (c', inl ValueError) ∧
    (∀ id, id ∈ [0; 3] →
       color_of (Cube.vertex_set c') id = Some (Some "red"%string)) ∧
    VertexSet.vertices (Cube.vertex_set c')
      = VertexSet.vertices (Cube.vertex_set (new_cube 2)) ∧
    Cube.edge_set c' = Cube.edge_set (new_cube 2).
Proof.
  apply (color_vertices_by_id_list_partial 2 (new_cube 2) [0; 3] 4 [1] "red").
  - lia.
  - exists (new_cube 2), []. split; [vm_compute; reflexivity|reflexivity].
  - intros id Hid.
    repeat (apply elem_of_cons in Hid as [->|Hid]; [lia|]).
    by apply elem_of_nil in Hid.
  - lia.
Defined.

(** C7, as the claim states it, fails at dimension 0: the only pattern of
    length 0 is the empty string, which the regular expression [[01*]+]
    rejects. *)
Lemma pattern_to_int_list_rejects_empty :
  ¬ (∀ (pattern : pystr) (d : Z),
       0 ≤ d → Z.of_nat (length pattern) = d →
       Forall (λ c, bits.is_wildcard_char c = true) pattern →
       ∃ l, bits.pattern_to_int_list pattern d = inr l).
Proof.
  intros H. destruct (H [] 0) as [l Hl]; [done|done|constructor|].
  vm_compute in Hl. discriminate.
Qed.

(** C7, amended. For every dimension [d >= 1] and every pattern of length
    [d] over [{0, 1, *}], [pattern_to_int_list] succeeds and returns
    exactly the values in [[0, 2^d)] whose [d]-bit big-endian
    representation has the pattern's bit at every [0] and [1] of the
    pattern; it raises nothing but [ValueError], and it raises exactly
    for an empty pattern, a character outside the alphabet or a length
    other than [d]; so in dimension 0, and in a negative one, every
    pattern is rejected, the empty one included; and the pattern [1**] in
    dimension 3 gives 4, 5, 6, 7. *)
Theorem pattern_to_int_list_correct (pattern : pystr) (d : Z) :
  (1 ≤ d → Z.of_nat (length pattern) = d →
   Forall (λ c, bits.is_wildcard_char c = true) pattern →
   ∃ l, bits.pattern_to_int_list pattern d = inr l ∧
        ∀ v, v ∈ l ↔ 0 ≤ v < 2 ^ d ∧ matches_pattern pattern d v) ∧
  (∀ e, bits.pattern_to_int_list pattern d = inl e ↔
        e = ValueError ∧
        (pattern = [] ∨ ¬ Forall (λ c, bits.is_wildcard_char c = true) pattern
         ∨ Z.of_nat (length pattern) ≠ d)) ∧
  (d ≤ 0 → bits.pattern_to_int_list pattern d = inl ValueError) ∧
  bits.pattern_to_int_list (list_ascii_of_string "1**") 3 = inr [4; 5; 6; 7].
Proof.
  split_and!.
  - intros Hd Hlen Hchars. eexists. split.
    + apply pattern_to_int_list_filter; [lia|done|done].
    + intros v. apply elem_of_pattern_filter; [lia|done|done].
  - intros e. split; [apply pattern_to_int_list_error|].
    intros [-> Hbad]. by apply pattern_to_int_list_malformed.
  - intros Hd. apply pattern_to_int_list_malformed.
    destruct pattern; [by left|]. right. right. simpl. lia.
  - by vm_compute.
Qed.

Lemma pattern_to_int_list_correct_witness :
  ∃ l, bits.pattern_to_int_list (list_ascii_of_string "*01*") 4 = inr l ∧
       ∀ v, v ∈ l ↔ 0 ≤ v < 2 ^ 4
                     ∧ matches_pattern (list_ascii_of_string "*01*") 4 v.
Proof.
  apply (proj1 (pattern_to_int_list_correct (list_ascii_of_string "*01*") 4)).
  - lia.
  - reflexivity.
  - repeat constructor.
Defined.

(** C10. For every dimension [d >= 1] and every pattern of length [d]
    over [{0, 1, *}], the list [pattern_to_int_list] returns is in
    strictly increasing order and has no duplicates. *)
Theorem pattern_to_int_list_sorted (pattern : pystr) (d : Z) :
  1 ≤ d → Z.of_nat (length pattern) = d →
  Forall (λ c, bits.is_wildcard_char c = true) pattern →
  ∃ l, bits.pattern_to_int_list pattern d = inr l ∧
       StronglySorted Z.lt l ∧ NoDup l.
Proof.
  intros Hd Hlen Hchars. eexists. split_and!.
  - apply pattern_to_int_list_filter; [lia|done|done].
  - apply StronglySorted_filter, StronglySorted_seqZ.
  - apply NoDup_filter, NoDup_seqZ.
Qed.

Lemma pattern_to_int_list_sorted_witness :
  ∃ l, bits.pattern_to_int_list (list_ascii_of_string "*1*") 3 = inr l ∧
       StronglySorted Z.lt l ∧ NoDup l.
Proof.
  apply (pattern_to_int_list_sorted (list_ascii_of_string "*1*") 3).
  - lia.
  - reflexivity.
  - repeat constructor.
Defined.

(** C9. For every dimension [d >= 0], [EdgeSet.__init__] succeeds and
    the dictionary it builds has exactly [d * 2^(d-1)] keys: the pairs
    [(u, v)] with [0 <= u <= v < 2^d] and [weight(u ^ v) == 1], each
    mapped to the empty string. *)
Theorem edge_set_init_edges (d : Z) :
  0 ≤ d →
  ∃ es,
    EdgeSet.init (VertexSet.init d) = inr es ∧
    Z.of_nat (size (EdgeSet.edges es)) = d * 2 ^ (d - 1) ∧
    ∀ u v tag,
      EdgeSet.edges es !! (u, v) = Some tag
      ↔ tag = EmptyString ∧ 0 ≤ u ≤ v ∧ v < 2 ^ d
        ∧ bits.weight (Z.lxor u v) = inr 1.
Proof.
  intros Hd. eexists. split; [by apply edge_set_init|]. simpl. split.
  - rewrite insert_all_size; [|apply NoDup_edge_keys|intros; apply lookup_empty].
    rewrite map_size_empty. simpl.
    pose proof (edge_count (Z.to_nat d)) as Hcount.
    rewrite Z2Nat.id in Hcount by done.
    destruct (decide (d = 0)) as [->|Hne]; [simpl in *; lia|].
    replace d with (Z.succ (d - 1)) in Hcount at 2 3 by lia.
    rewrite Z.pow_succ_r in Hcount by lia. lia.
  - intros u v tag. rewrite insert_all_lookup, lookup_empty.
    case_decide as Hin; rewrite elem_of_edge_keys in Hin.
    + destruct Hin as (Hu & Hv & Hedge). split; [|by intros [-> _]].
      intros [= <-]. split_and!; try (done || lia).
      rewrite weight_popcount by (apply Z.lxor_nonneg; lia).
      by f_equal.
    + split; [done|]. intros (_ & Hu & Hv & Hw). exfalso. apply Hin.
      split_and!; try lia.
      rewrite weight_popcount in Hw by (apply Z.lxor_nonneg; lia).
      unfold is_edge. congruence.
Qed.

Lemma edge_set_init_edges_witness :
  ∃ es,
    EdgeSet.init (VertexSet.init 3) = inr es ∧
    Z.of_nat (size (EdgeSet.edges es)) = 3 * 2 ^ (3 - 1) ∧
    ∀ u v tag,
      EdgeSet.edges es !! (u, v) = Some tag
      ↔ tag = EmptyString ∧ 0 ≤ u ≤ v ∧ v < 2 ^ 3
        ∧ bits.weight (Z.lxor u v) = inr 1.
Proof. apply (edge_set_init_edges 3). lia. Defined.

(** * Further properties of the bit-string functions *)

Lemma of_bits_le_to_bits_le (k : nat) n :
  0 ≤ n < 2 ^ Z.of_nat k → of_bits_le (to_bits_le n k) = n.
Proof.
  revert n. induction k as [|k IH]; intros n Hn.
  { simpl in *. lia. }
  rewrite to_bits_le_S. cbn [of_bits_le].
  rewrite Nat2Z.inj_succ, Z.pow_succ_r in Hn by lia.
  pose proof (Z.div2_odd n) as Hodd. rewrite Z.bit0_odd.
  rewrite IH; [lia|].
  rewrite Z.div2_div. split; [apply Z.div_pos; lia|].
  apply Z.div_lt_upper_bound; lia.
Qed.

Lemma testbit_of_bits_le bs (i : nat) :
  Z.testbit (of_bits_le bs) (Z.of_nat i) = default false (bs !! i).
Proof.
  revert i. induction bs as [|b bs IH]; intros i.
  { simpl. apply Z.testbit_0_l. }
  cbn [of_bits_le]. rewrite Z.add_comm. destruct i as [|i].
  - simpl. apply Z.testbit_0_r.
  - rewrite Nat2Z.inj_succ, Z.testbit_succ_r by lia. apply IH.
Qed.

Lemma to_bits_le_of_bits_le bs : to_bits_le (of_bits_le bs) (length bs) = bs.
Proof.
  apply list_eq. intros i. destruct (decide (i < length bs)%nat) as [Hi|Hi].
  - rewrite lookup_to_bits_le by done. rewrite testbit_of_bits_le.
    by destruct (lookup_lt_is_Some_2 bs i Hi) as [b ->].
  - rewrite !lookup_ge_None_2; [done|lia|rewrite length_to_bits_le; lia].
Qed.

Lemma bit_string_chars s :
  Forall (λ c, bits.is_bit_char c = true) s → s = char_of_bool <$> (bool_of_char <$> s).
Proof.
  induction 1 as [|c s Hc _ IH]; [done|].
  rewrite !fmap_cons, <- IH. f_equal.
  unfold bits.is_bit_char in Hc. unfold bool_of_char, char_of_bool.
  destruct (decide (c = "1"%char)) as [->|Hne]; [done|].
  rewrite (bool_decide_eq_false_2 _ Hne) in *.
  rewrite orb_false_r in Hc. by apply bool_decide_eq_true_1 in Hc.
Qed.

Lemma bit_string_pattern_spec s :
  bits.BIT_STRING_PATTERN s = true
  ↔ s ≠ [] ∧ Forall (λ c, bits.is_bit_char c = true) s.
Proof.
  destruct s as [|c s]; [split; [done|by intros [? _]]|].
  unfold bits.BIT_STRING_PATTERN. split.
  - intros H%Is_true_true%forallb_True. split; [done|].
    eapply Forall_impl; [exact H|]. intros x Hx. by apply Is_true_true.
  - intros [_ H]. apply Is_true_true, forallb_True.
    eapply Forall_impl; [exact H|]. intros x Hx. by apply Is_true_true.
Qed.

Lemma float_limit_pos : 0 < 2 ^ 1024 - 2 ^ 970.
Proof. by vm_compute. Qed.

Lemma int_to_bit_string_cases n d :
  bits.int_to_bit_string n d
  = if decide (n < 0) then inl ValueError
    else if decide (d ≤ - (2 ^ 1024 - 2 ^ 970)) then inl OverflowError
    else if decide (d < 0 ∨ 2 ^ d ≤ n) then inl ValueError
    else if decide (d = 0) then inr ["0"%char]
    else inr (bits.format_0b d n).
Proof.
  unfold bits.int_to_bit_string, bits.ge_two_pow, bits.int_too_large_for_float.
  unfold mbind, res_bind. pose proof float_limit_pos as Hlimit.
  generalize dependent (2 ^ 1024 - 2 ^ 970). intros limit Hlimit.
  destruct (decide (n < 0)) as [?|Hn]; [by rewrite bool_decide_eq_true_2|].
  rewrite (bool_decide_eq_false_2 _ Hn).
  destruct (Z.ltb_spec d 0) as [Hd|Hd].
  - destruct (decide (d ≤ - limit)) as [Hbig|Hbig].
    { by rewrite bool_decide_eq_true_2 by lia. }
    rewrite bool_decide_eq_false_2 by lia.
    rewrite (decide_True (P := d < 0 ∨ 2 ^ d ≤ n)) by (by left).
    destruct (Z.ltb_spec d (-1074)).
    + by rewrite bool_decide_eq_true_2 by lia.
    + destruct (bool_decide (1 ≤ n)); [done|].
      by rewrite bool_decide_eq_true_2.
  - rewrite (decide_False (P := d ≤ - limit)) by lia.
    destruct (decide (2 ^ d ≤ n)) as [Hhi|Hhi].
    + rewrite bool_decide_eq_true_2 by done.
      by rewrite decide_True by (by right).
    + rewrite bool_decide_eq_false_2 by done.
      rewrite decide_False by lia. rewrite bool_decide_eq_false_2 by lia.
      destruct (decide (d = 0)).
      * by rewrite bool_decide_eq_true_2.
      * by rewrite bool_decide_eq_false_2.
Qed.

Lemma int_to_bit_string_error n d e :
  0 ≤ d →
  bits.int_to_bit_string n d = inl e → e = ValueError ∧ (n < 0 ∨ d < 0 ∨ 2 ^ d ≤ n).
Proof.
  intros Hd. rewrite int_to_bit_string_cases. pose proof float_limit_pos.
  destruct (decide (n < 0)); [intros [= <-]; auto|].
  rewrite decide_False by lia.
  destruct (decide (d < 0 ∨ 2 ^ d ≤ n)) as [[?|?]|?]; [intros [= <-]; auto..|].
  by destruct (decide (d = 0)).
Qed.

Lemma int_to_bit_string_0 : bits.int_to_bit_string 0 0 = inr ["0"%char].
Proof. done. Qed.

Lemma popcount_of_bits_le bs :
  popcount (of_bits_le bs) = Z.of_nat (count (λ b, b = true) bs).
Proof.
  induction bs as [|b bs IH]; [done|].
  cbn [of_bits_le]. rewrite Z.add_comm.
  rewrite popcount_double by apply of_bits_le_range. rewrite IH.
  unfold count. rewrite filter_cons.
  destruct b; case_decide; try done; cbn [Z.b2z length]; lia.
Qed.

Lemma popcount_count_bits (k : nat) n :
  0 ≤ n < 2 ^ Z.of_nat k →
  popcount n = Z.of_nat (count (λ b, b = true) (to_bits_le n k)).
Proof.
  intros Hn. rewrite <- popcount_of_bits_le. by rewrite of_bits_le_to_bits_le.
Qed.

(** X1. For every dimension [d >= 0] and every [v] in [[0, 2^d)],
    [int_to_bit_string] succeeds and [bit_string_to_int] reads the string
    back as [v]. *)
Theorem bit_string_round_trip (v d : Z) :
  0 ≤ d → 0 ≤ v < 2 ^ d →
  ∃ s, bits.int_to_bit_string v d = inr s ∧ bits.bit_string_to_int s = inr v.
Proof.
  intros Hd Hv. destruct (decide (d = 0)) as [->|Hne].
  { assert (v = 0) as -> by (simpl in Hv; lia). by eexists. }
  eexists. split; [apply int_to_bit_string_bits; lia|].
  rewrite bit_string_to_int_bits.
  - unfold bits_be. rewrite reverse_involutive.
    by rewrite of_bits_le_to_bits_le by (rewrite Z2Nat.id by lia; done).
  - intros Hnil. apply (f_equal length) in Hnil. unfold bits_be in Hnil.
    rewrite length_reverse, length_to_bits_le in Hnil. simpl in Hnil. lia.
Qed.

Lemma bit_string_round_trip_witness :
  ∃ s, bits.int_to_bit_string 11 5 = inr s ∧ bits.bit_string_to_int s = inr 11.
Proof. apply (bit_string_round_trip 11 5); lia. Defined.

(** X2. On a nonempty string of [0]s and [1]s, [bit_string_to_int]
    succeeds with a value below [2^len], and [int_to_bit_string] at
    dimension [len] writes the very same string back, leading zeros
    included. *)
Theorem bit_string_to_int_round_trip (s : pystr) :
  s ≠ [] → Forall (λ c, bits.is_bit_char c = true) s →
  ∃ n, bits.bit_string_to_int s = inr n ∧
       0 ≤ n < 2 ^ Z.of_nat (length s) ∧
       bits.int_to_bit_string n (Z.of_nat (length s)) = inr s.
Proof.
  intros Hne Hchars. rewrite (bit_string_chars s Hchars).
  set (bs := bool_of_char <$> s).
  assert (Hlen : length bs = length s) by (subst bs; by rewrite length_fmap).
  assert (Hbs : bs ≠ []) by (subst bs; by destruct s).
  rewrite bit_string_to_int_bits by done. eexists. split; [done|].
  rewrite length_fmap, Hlen.
  pose proof (of_bits_le_range (reverse bs)) as Hrange.
  rewrite length_reverse, Hlen in Hrange. split; [done|].
  rewrite int_to_bit_string_bits; [|destruct s; [done|simpl; lia]|done].
  unfold bits_be. rewrite Nat2Z.id, <- Hlen, <- (length_reverse bs).
  by rewrite to_bits_le_of_bits_le, reverse_involutive.
Qed.

Lemma bit_string_to_int_round_trip_witness :
  ∃ n, bits.bit_string_to_int (list_ascii_of_string "00101") = inr n ∧
       0 ≤ n < 2 ^ Z.of_nat (length (list_ascii_of_string "00101")) ∧
       bits.int_to_bit_string n (Z.of_nat (length (list_ascii_of_string "00101")))
       = inr (list_ascii_of_string "00101").
Proof.
  apply (bit_string_to_int_round_trip (list_ascii_of_string "00101")).
  - done.
  - repeat constructor.
Defined.

(** X3. [bit_string_to_int] raises nothing but [ValueError], and exactly
    on the empty string or on a character other than [0] and [1].
    [int_to_bit_string] raises [ValueError] exactly on a negative number
    and, for a dimension above [-(2^1024 - 2^970)], on a negative
    dimension or a number from [2^d] on; for a number that is not negative
    and a dimension at or below [-(2^1024 - 2^970)] it raises
    [OverflowError], because [2 ** dimension] cannot convert the exponent
    to a float; it raises nothing else.  Otherwise [int_to_bit_string]
    returns [max(d, 1)] characters, the character at position [i] being
    bit [d - 1 - i] of the number. *)
Theorem bit_string_conversions_errors (s : pystr) (n d : Z) :
  (∀ e, bits.bit_string_to_int s = inl e
        ↔ e = ValueError ∧ (s = [] ∨ ¬ Forall (λ c, bits.is_bit_char c = true) s)) ∧
  (∀ e, bits.int_to_bit_string n d = inl e
        ↔ (e = ValueError ∧
           (n < 0 ∨ (- (2 ^ 1024 - 2 ^ 970) < d ∧ (d < 0 ∨ 2 ^ d ≤ n))))
          ∨ (e = OverflowError ∧ 0 ≤ n ∧ d ≤ - (2 ^ 1024 - 2 ^ 970))) ∧
  (∀ r, bits.int_to_bit_string n d = inr r →
        Z.of_nat (length r) = Z.max d 1 ∧
        Forall (λ c, bits.is_bit_char c = true) r ∧
        ∀ i : nat, Z.of_nat i < d →
          r !! i = Some (char_of_bool (Z.testbit n (d - 1 - Z.of_nat i)))).
Proof.
  split_and!.
  - intros e. unfold bits.bit_string_to_int.
    destruct (bits.BIT_STRING_PATTERN s) eqn:Hpat; simpl.
    + apply bit_string_pattern_spec in Hpat as [Hne Hall].
      split; [done|]. intros [_ [?|?]]; done.
    + split; [intros [= <-]; split; [done|]|by intros [-> _]].
      destruct (decide (s = [])) as [?|Hne]; [by left|right].
      intros Hall. assert (bits.BIT_STRING_PATTERN s = true); [|congruence].
      by apply bit_string_pattern_spec.
  - intros e. rewrite int_to_bit_string_cases.
    pose proof float_limit_pos as Hlimit.
    generalize dependent (2 ^ 1024 - 2 ^ 970). intros limit Hlimit.
    destruct (decide (n < 0)) as [?|Hn].
    { split; [intros [= <-]; auto|]. intros [[-> _]|(_ & ? & _)]; [done|lia]. }
    destruct (decide (d ≤ - limit)) as [Hbig|Hbig].
    { split; [intros [= <-]; right; split_and!; (done || lia)|].
      intros [[_ [?|[? _]]]|[-> _]]; (done || lia). }
    destruct (decide (d < 0 ∨ 2 ^ d ≤ n)) as [Hbad|Hok].
    { split; [intros [= <-]; left; split; [done|]; right; split; [lia|done]|].
      intros [[-> _]|(_ & _ & ?)]; [done|lia]. }
    split; [by destruct (decide (d = 0))|].
    intros [[_ [?|[_ ?]]]|(_ & _ & ?)]; [lia|done|lia].
  - intros r Hr.
    assert (Hok : 0 ≤ d ∧ 0 ≤ n < 2 ^ d).
    { rewrite int_to_bit_string_cases in Hr.
      destruct (decide (n < 0)); [done|].
      destruct (decide (d ≤ - (2 ^ 1024 - 2 ^ 970))); [done|].
      destruct (decide (d < 0 ∨ 2 ^ d ≤ n)); [done|]. lia. }
    destruct Hok as [Hd Hn]. destruct (decide (d = 0)) as [->|Hne].
    { assert (n = 0) as -> by (simpl in Hn; lia).
      rewrite int_to_bit_string_0 in Hr. injection Hr as <-.
      split_and!; [done|by repeat constructor|intros; lia]. }
    rewrite int_to_bit_string_bits in Hr by lia. injection Hr as <-.
    split_and!.
    + unfold bits_be. rewrite length_fmap, length_reverse, length_to_bits_le. lia.
    + apply Forall_fmap, Forall_forall. intros b _. by destruct b.
    + intros i Hi. rewrite list_lookup_fmap, lookup_bits_be by lia.
      simpl. do 3 f_equal. lia.
Qed.

(** X4. [weight] raises [ValueError] on a negative number; on a number in
    [[0, 2^k)] it returns how many of the bit positions below [k] hold a
    1. *)
Theorem weight_counts_set_bits (n k : Z) :
  (n < 0 → bits.weight n = inl ValueError) ∧
  (0 ≤ k → 0 ≤ n < 2 ^ k →
   bits.weight n
   = inr (Z.of_nat (length (filter (λ i, Z.testbit n i = true) (seqZ 0 k))))).
Proof.
  split.
  - intros Hn. by destruct n.
  - intros Hk Hn. rewrite weight_popcount by lia. f_equal.
    rewrite (popcount_count_bits (Z.to_nat k)) by (rewrite Z2Nat.id by lia; done).
    f_equal. unfold to_bits_le. rewrite count_fmap. unfold seqZ. symmetry.
    etransitivity;
      [apply (count_fmap (λ i : nat, Z.of_nat i + 0) (λ i, Z.testbit n i = true))|].
    apply count_ext. intros i _. by rewrite Z.add_0_r.
Qed.

Lemma weight_counts_set_bits_witness :
  bits.weight (-3) = inl ValueError ∧
  bits.weight 11
  = inr (Z.of_nat (length (filter (λ i, Z.testbit 11 i = true) (seqZ 0 6)))).
Proof.
  split.
  - apply (proj1 (weight_counts_set_bits (-3) 0)). lia.
  - apply (proj2 (weight_counts_set_bits 11 6)); lia.
Defined.

(** ** Bit permutations *)

Lemma valid_list_checks l d : valid_list l d ↔ rotation_checks l d = true.
Proof.
  unfold valid_list, rotation_checks. rewrite andb_true_iff.
  rewrite bool_decide_eq_true, forallb_forall.
  split; intros [Hlen Hall]; (split; [done|]).
  - intros i Hi%list_elem_of_In%elem_of_seqZ.
    apply bool_decide_eq_true_2, Hall. lia.
  - intros i Hi. eapply bool_decide_eq_true_1, Hall.
    apply list_elem_of_In, elem_of_seqZ. lia.
Qed.

Lemma testbit_permuted l d n (j : nat) x :
  rotation_checks l d = true → l !! j = Some x →
  Z.testbit (permuted l d n) (d - 1 - Z.of_nat j) = Z.testbit n (d - 1 - x).
Proof.
  intros Hchecks Hj. pose proof (lookup_lt_Some _ _ _ Hj) as Hlt.
  assert (Hlen : length l = Z.to_nat d)
    by (by rewrite <- (rotation_checks_perm l d Hchecks), length_seqZ).
  replace (d - 1 - Z.of_nat j) with (Z.of_nat (length l - S j)) by lia.
  unfold permuted. rewrite testbit_of_bits_le.
  rewrite reverse_lookup by (rewrite length_fmap; lia).
  rewrite length_fmap.
  replace (length l - S (length l - S j))%nat with j by lia.
  by rewrite list_lookup_fmap, Hj.
Qed.

Lemma int_to_bit_string_fails n d :
  0 ≤ d → n < 0 ∨ 2 ^ d ≤ n → bits.int_to_bit_string n d = inl ValueError.
Proof.
  intros Hd Hbad. rewrite int_to_bit_string_cases. pose proof float_limit_pos.
  destruct (decide (n < 0)); [done|].
  rewrite decide_False by lia. rewrite decide_True; [done|]. right. lia.
Qed.

Lemma permute_error_is_ValueError v l d e :
  bits.permute_bits_by_index_list v l d = inl e → e = ValueError.
Proof.
  destruct (decide (0 < d ∧ rotation_checks l d = true ∧ 0 ≤ v < 2 ^ d))
    as [(Hd & Hchecks & Hv)|Hbad].
  { by rewrite permute_permuted. }
  unfold bits.permute_bits_by_index_list.
  destruct (bool_decide (d < 0)) eqn:Hneg; [congruence|].
  apply bool_decide_eq_false_1 in Hneg.
  destruct (bool_decide (Z.of_nat (length l) = d)) eqn:Hlen; [|simpl; congruence].
  destruct (forallb _ _) eqn:Hall; [|simpl; congruence]. simpl.
  assert (Hchecks : rotation_checks l d = true).
  { unfold rotation_checks. by rewrite Hlen, Hall. }
  destruct (bits.int_to_bit_string v d) as [e'|bit_string] eqn:Hs.
  { apply int_to_bit_string_error in Hs as [-> _]; [|lia].
    unfold mbind, res_bind. congruence. }
  assert (d = 0) as ->.
  { destruct (decide (d = 0)); [done|]. exfalso. apply Hbad.
    split_and!; [lia|done| |].
    - destruct (decide (0 ≤ v)); [done|].
      assert (bits.int_to_bit_string v d = inl ValueError); [|congruence].
      apply int_to_bit_string_fails; [lia|]. left. lia.
    - destruct (decide (v < 2 ^ d)); [done|].
      assert (bits.int_to_bit_string v d = inl ValueError); [|congruence].
      apply int_to_bit_string_fails; [lia|]. right. lia. }
  apply bool_decide_eq_true_1 in Hlen. destruct l; [|done].
  unfold mbind, res_bind. simpl. by intros [= <-].
Qed.

(** X5. For a dimension [d >= 1], a list of length [d] that holds every
    index of [range(d)] and a number in [[0, 2^d)],
    [permute_bits_by_index_list] succeeds with a number in [[0, 2^d)]
    whose bit-string position [j] is the number's position [indices[j]]
    (position [j] of a [d]-bit string being bit [d - 1 - j]). *)
Theorem permute_bits_spec (v : Z) (l : list Z) (d : Z) :
  1 ≤ d → valid_list l d → 0 ≤ v < 2 ^ d →
  ∃ r, bits.permute_bits_by_index_list v l d = inr r ∧
       0 ≤ r < 2 ^ d ∧
       ∀ (j : nat) x, l !! j = Some x →
         Z.testbit r (d - 1 - Z.of_nat j) = Z.testbit v (d - 1 - x).
Proof.
  intros Hd Hvalid%valid_list_checks Hv. exists (permuted l d v).
  split; [|split].
  - apply permute_permuted; (done || lia).
  - apply permuted_range; (done || lia).
  - intros j x Hj. by apply testbit_permuted.
Qed.

Lemma permute_bits_spec_witness :
  ∃ r, bits.permute_bits_by_index_list 6 [2; 0; 1] 3 = inr r ∧
       0 ≤ r < 2 ^ 3 ∧
       ∀ (j : nat) x, [2; 0; 1] !! j = Some x →
         Z.testbit r (3 - 1 - Z.of_nat j) = Z.testbit 6 (3 - 1 - x).
Proof.
  apply (permute_bits_spec 6 [2; 0; 1] 3); [lia| |lia].
  split; [reflexivity|]. intros i Hi. rewrite !elem_of_cons. lia.
Defined.

(** X6. [permute_bits_by_index_list] raises nothing but [ValueError], and
    it raises exactly when the dimension is below 1, the list has another
    length than the dimension or misses an index of [range(d)], or the
    number is outside [[0, 2^d)]; in particular it always raises in
    dimension 0. *)
Theorem permute_bits_errors (v : Z) (l : list Z) (d : Z) (e : exn) :
  bits.permute_bits_by_index_list v l d = inl e
  ↔ e = ValueError ∧ (d ≤ 0 ∨ ¬ valid_list l d ∨ v < 0 ∨ 2 ^ d ≤ v).
Proof.
  split.
  - intros Herr. split; [by eapply permute_error_is_ValueError|].
    destruct (decide (d ≤ 0)); [by left|right].
    destruct (rotation_checks l d) eqn:Hchecks; [right|left].
    + destruct (decide (0 ≤ v < 2 ^ d)); [|lia].
      rewrite permute_permuted in Herr; [done|lia|done|done].
    + intros Hvalid%valid_list_checks. congruence.
  - intros [-> Hbad].
    destruct (bits.permute_bits_by_index_list v l d) as [e|r] eqn:Hrun.
    { f_equal. by eapply permute_error_is_ValueError. }
    exfalso. unfold bits.permute_bits_by_index_list in Hrun.
    destruct (bool_decide (d < 0)) eqn:Hneg; [done|].
    apply bool_decide_eq_false_1 in Hneg.
    destruct (bool_decide (Z.of_nat (length l) = d)) eqn:Hlen; [|done].
    destruct (forallb _ _) eqn:Hall; [|done]. simpl in Hrun.
    assert (Hvalid : valid_list l d).
    { apply valid_list_checks. unfold rotation_checks. by rewrite Hlen, Hall. }
    destruct (bits.int_to_bit_string v d) as [e'|bit_string] eqn:Hs; [done|].
    destruct (decide (d = 0)) as [->|Hne].
    + apply bool_decide_eq_true_1 in Hlen. destruct l; [|done].
      unfold mbind, res_bind in Hrun. simpl in Hrun. done.
    + destruct Hbad as [?|[?|Hv]]; [lia|done|].
      rewrite int_to_bit_string_fails in Hs; [done|lia|]. lia.
Qed.

(** X7. For [d >= 1], permuting by the identity list [[0, ..., d-1]]
    returns the number itself. *)
Theorem permute_bits_identity (v d : Z) :
  1 ≤ d → 0 ≤ v < 2 ^ d →
  bits.permute_bits_by_index_list v (range d) d = inr v.
Proof.
  intros Hd Hv.
  assert (Hchecks : rotation_checks (range d) d = true).
  { apply valid_list_checks. split.
    - unfold range. rewrite length_seqZ. lia.
    - intros i Hi. apply elem_of_seqZ. lia. }
  rewrite permute_permuted by (done || lia). f_equal.
  pose proof (permuted_range (range d) d ltac:(lia) Hchecks v) as Hr.
  apply Z.bits_inj'. intros k Hk.
  destruct (decide (k < d)) as [Hlt|Hge].
  - replace k with (d - 1 - Z.of_nat (Z.to_nat (d - 1 - k))) at 1 by lia.
    rewrite (testbit_permuted _ _ _ _ (d - 1 - k)); [f_equal; lia|done|].
    unfold range. rewrite lookup_seqZ_lt by lia. f_equal. lia.
  - by rewrite (testbit_above d (permuted _ _ _)), (testbit_above d v) by lia.
Qed.

Lemma permute_bits_identity_witness :
  bits.permute_bits_by_index_list 9 (range 4) 4 = inr 9.
Proof. apply (permute_bits_identity 9 4); lia. Defined.

(** X8. For [d >= 1], if [l] and [l'] are valid index lists with
    [l[l'[j]] == j] for every [j], then permuting by [l] and then by [l']
    gives the number back. *)
Theorem permute_bits_inverse (v : Z) (l l' : list Z) (d : Z) :
  1 ≤ d → valid_list l d → valid_list l' d →
  (∀ (j : nat) x, l' !! j = Some x → l !! Z.to_nat x = Some (Z.of_nat j)) →
  0 ≤ v < 2 ^ d →
  ∃ r, bits.permute_bits_by_index_list v l d = inr r ∧
       bits.permute_bits_by_index_list r l' d = inr v.
Proof.
  intros Hd Hl%valid_list_checks Hl'%valid_list_checks Hinv Hv.
  exists (permuted l d v). split; [apply permute_permuted; (done || lia)|].
  pose proof (permuted_range l d ltac:(lia) Hl v) as Hr.
  rewrite permute_permuted by (done || lia). f_equal.
  pose proof (permuted_range l' d ltac:(lia) Hl' (permuted l d v)) as Hr'.
  apply Z.bits_inj'. intros k Hk.
  destruct (decide (k < d)) as [Hlt|Hge].
  - destruct (lookup_lt_is_Some_2 l' (Z.to_nat (d - 1 - k))) as [x Hx].
    { pose proof (length_indices l' d ltac:(lia) Hl'). lia. }
    assert (Hxr : 0 ≤ x < d).
    { apply (elem_of_indices l' d ltac:(lia) Hl').
      by eapply list_elem_of_lookup_2. }
    replace k with (d - 1 - Z.of_nat (Z.to_nat (d - 1 - k))) at 1 by lia.
    rewrite (testbit_permuted _ _ _ _ x) by done.
    replace (d - 1 - x) with (d - 1 - Z.of_nat (Z.to_nat x)) by lia.
    rewrite (testbit_permuted _ _ _ _ (Z.of_nat (Z.to_nat (d - 1 - k))));
      [f_equal; lia|done|by apply Hinv].
  - by rewrite (testbit_above d (permuted _ _ _)), (testbit_above d v) by lia.
Qed.

Lemma permute_bits_inverse_witness :
  ∃ r, bits.permute_bits_by_index_list 6 [1; 2; 0] 3 = inr r ∧
       bits.permute_bits_by_index_list r [2; 0; 1] 3 = inr 6.
Proof.
  apply (permute_bits_inverse 6 [1; 2; 0] [2; 0; 1] 3); [lia| | | |lia].
  - split; [reflexivity|]. intros i Hi. rewrite !elem_of_cons. lia.
  - split; [reflexivity|]. intros i Hi. rewrite !elem_of_cons. lia.
  - intros [|[|[|j]]] x Hx; simplify_eq/=; done.
Defined.


(** ** Lists of bit strings, reversal and patterns without a choice *)

Lemma res_map_inl {A B} (f : A → result B) xs e :
  res_map f xs = inl e → ∃ x, x ∈ xs ∧ f x = inl e.
Proof.
  induction xs as [|x xs IH]; [done|]. cbn [res_map].
  destruct (f x) as [e'|y] eqn:Hx.
  { intros [= ->]. exists x. split; [left|done]. }
  unfold mbind at 1, res_bind.
  destruct (res_map f xs) as [e'|ys]; [|done].
  intros [= ->]. destruct IH as (x' & Hin & Hx'); [done|].
  exists x'. split; [by right|done].
Qed.

Lemma bit_string_to_int_ok s :
  s ≠ [] → Forall (λ c, bits.is_bit_char c = true) s →
  ∃ n, bits.bit_string_to_int s = inr n ∧ 0 ≤ n < 2 ^ Z.of_nat (length s).
Proof.
  intros Hne Hchars. rewrite (bit_string_chars s Hchars).
  rewrite bit_string_to_int_bits by (by destruct s).
  eexists. split; [done|].
  pose proof (of_bits_le_range (reverse (bool_of_char <$> s))) as H.
  rewrite length_reverse, length_fmap in H. by rewrite !length_fmap.
Qed.

Lemma bit_string_to_int_fails s e :
  bits.bit_string_to_int s = inl e →
  e = ValueError ∧ (s = [] ∨ ¬ Forall (λ c, bits.is_bit_char c = true) s).
Proof.
  unfold bits.bit_string_to_int.
  destruct (bits.BIT_STRING_PATTERN s) eqn:Hpat; simpl; [done|].
  intros [= <-]. split; [done|].
  destruct (decide (s = [])) as [?|Hne]; [by left|right].
  intros Hall. assert (bits.BIT_STRING_PATTERN s = true); [|congruence].
  by apply bit_string_pattern_spec.
Qed.

Lemma forallb_false_witness {A} (f : A → bool) (l : list A) :
  forallb f l = false → ∃ x, x ∈ l ∧ f x = false.
Proof.
  induction l as [|x l IH]; [done|]. simpl.
  destruct (f x) eqn:Hx; simpl.
  - intros (y & Hin & Hy)%IH. exists y. split; [by right|done].
  - intros _. exists x. split; [left|done].
Qed.

(** X9. [strings_to_int_list] succeeds when every string has length [d]
    and is a nonempty string of [0]s and [1]s, returning one value in
    [[0, 2^d)] per string, in order; it raises nothing but [ValueError],
    and only when some string has another length, is empty or holds
    another character.  In dimension 0 it therefore raises on every
    nonempty list. *)
Theorem strings_to_int_list_spec (bit_strings : list pystr) (d : Z) :
  ((∀ s, s ∈ bit_strings →
      Z.of_nat (length s) = d ∧ s ≠ [] ∧ Forall (λ c, bits.is_bit_char c = true) s) →
   ∃ l, bits.strings_to_int_list bit_strings d = inr l ∧
        length l = length bit_strings ∧
        ∀ (i : nat) s, bit_strings !! i = Some s →
          ∃ n, l !! i = Some n ∧ bits.bit_string_to_int s = inr n ∧ 0 ≤ n < 2 ^ d) ∧
  (∀ e, bits.strings_to_int_list bit_strings d = inl e →
        e = ValueError ∧
        ∃ s, s ∈ bit_strings ∧
          (Z.of_nat (length s) ≠ d ∨ s = []
           ∨ ¬ Forall (λ c, bits.is_bit_char c = true) s)) ∧
  (d = 0 → bit_strings ≠ [] →
   bits.strings_to_int_list bit_strings d = inl ValueError).
Proof.
  assert (Herr : ∀ e, bits.strings_to_int_list bit_strings d = inl e →
            e = ValueError ∧
            ∃ s, s ∈ bit_strings ∧
              (Z.of_nat (length s) ≠ d ∨ s = []
               ∨ ¬ Forall (λ c, bits.is_bit_char c = true) s)).
  { intros e. unfold bits.strings_to_int_list.
    destruct (forallb _ _) eqn:Hall; simpl.
    - intros (s & Hin & [-> Hs]%bit_string_to_int_fails)%res_map_inl.
      split; [done|]. exists s. auto.
    - intros [= <-]. split; [done|].
      apply forallb_false_witness in Hall as (s & Hin & Hs).
      exists s. split; [done|]. left. by apply bool_decide_eq_false_1 in Hs. }
  split_and!; [|done|].
  - intros Hok. unfold bits.strings_to_int_list.
    assert (forallb (λ string, bool_decide (Z.of_nat (length string) = d))
              bit_strings = true) as ->.
    { apply forallb_forall. intros s Hs%list_elem_of_In.
      apply bool_decide_eq_true_2. by apply Hok. }
    simpl.
    set (h := λ s, match bits.bit_string_to_int s with inr n => n | inl _ => 0 end).
    assert (Hh : ∀ s, s ∈ bit_strings →
              bits.bit_string_to_int s = inr (h s) ∧ 0 ≤ h s < 2 ^ d).
    { intros s Hs. destruct (Hok s Hs) as (Hlen & Hne & Hchars).
      destruct (bit_string_to_int_ok s Hne Hchars) as (n & Hn & Hrange).
      unfold h. rewrite Hn. rewrite Hlen in Hrange. done. }
    rewrite (res_map_inr _ h) by (intros s Hs; by apply Hh).
    eexists. split; [done|]. split; [by rewrite length_fmap|].
    intros i s Hi. exists (h s). rewrite list_lookup_fmap, Hi.
    split; [done|]. apply Hh. by eapply list_elem_of_lookup_2.
  - intros -> Hne.
    destruct (bits.strings_to_int_list bit_strings 0) as [e|l] eqn:Hrun.
    { f_equal. by apply Herr. }
    exfalso. unfold bits.strings_to_int_list in Hrun.
    destruct (forallb _ _) eqn:Hall; [|done]. simpl in Hrun.
    destruct bit_strings as [|s rest]; [done|].
    simpl in Hall. apply andb_prop in Hall as [Hs%bool_decide_eq_true_1 _].
    destruct s; [|done]. done.
Qed.

Lemma strings_to_int_list_spec_witness :
  ∃ l, bits.strings_to_int_list
         [list_ascii_of_string "011"; list_ascii_of_string "100"] 3 = inr l ∧
       length l = length [list_ascii_of_string "011"; list_ascii_of_string "100"] ∧
       ∀ (i : nat) s,
         [list_ascii_of_string "011"; list_ascii_of_string "100"] !! i = Some s →
         ∃ n, l !! i = Some n ∧ bits.bit_string_to_int s = inr n ∧ 0 ≤ n < 2 ^ 3.
Proof.
  apply (proj1 (strings_to_int_list_spec
                  [list_ascii_of_string "011"; list_ascii_of_string "100"] 3)).
  intros s Hs. rewrite !elem_of_cons in Hs.
  destruct Hs as [->|[->|Hs]]; [| |by apply elem_of_nil in Hs];
    (split_and!; [reflexivity|done|repeat constructor]).
Defined.

Lemma bool_of_char_of_bool (bs : list bool) :
  bool_of_char <$> (char_of_bool <$> bs) = bs.
Proof.
  induction bs as [|b bs IH]; [done|]. rewrite !fmap_cons, IH. by destruct b.
Qed.

(** X10. For [d >= 1], writing numbers of [[0, 2^d)] with
    [int_to_bit_string] and reading the strings with
    [strings_to_int_list] gives the numbers back. *)
Theorem strings_to_int_list_round_trip (vs : list Z) (d : Z) :
  1 ≤ d → (∀ v, v ∈ vs → 0 ≤ v < 2 ^ d) →
  ∃ strings,
    res_map (λ v, bits.int_to_bit_string v d) vs = inr strings ∧
    bits.strings_to_int_list strings d = inr vs.
Proof.
  intros Hd Hvs.
  exists ((λ v, char_of_bool <$> bits_be (Z.to_nat d) v) <$> vs). split.
  - apply res_map_inr. intros v Hv. apply int_to_bit_string_bits; [lia|by apply Hvs].
  - unfold bits.strings_to_int_list.
    assert (forallb (λ string, bool_decide (Z.of_nat (length string) = d))
              ((λ v, char_of_bool <$> bits_be (Z.to_nat d) v) <$> vs) = true) as ->.
    { apply forallb_forall. intros s (v & -> & _)%list_elem_of_In%list_elem_of_fmap.
      apply bool_decide_eq_true_2. unfold bits_be.
      rewrite length_fmap, length_reverse, length_to_bits_le. lia. }
    simpl. rewrite (res_map_inr _ (λ s, of_bits_le (reverse (bool_of_char <$> s)))).
    + f_equal. rewrite <- list_fmap_compose.
      rewrite <- (list_fmap_id vs) at 2. apply list_fmap_ext.
      intros i v Hv%list_elem_of_lookup_2. unfold compose, id.
      rewrite bool_of_char_of_bool. unfold bits_be. rewrite reverse_involutive.
      apply of_bits_le_to_bits_le. rewrite Z2Nat.id by lia. by apply Hvs.
    + intros s (v & -> & _)%list_elem_of_fmap.
      rewrite bit_string_to_int_bits.
      * by rewrite bool_of_char_of_bool.
      * intros Hnil. apply (f_equal length) in Hnil. unfold bits_be in Hnil.
        rewrite length_reverse, length_to_bits_le in Hnil. simpl in Hnil. lia.
Qed.

Lemma strings_to_int_list_round_trip_witness :
  ∃ strings,
    res_map (λ v, bits.int_to_bit_string v 3) [5; 0; 7] = inr strings ∧
    bits.strings_to_int_list strings 3 = inr [5; 0; 7].
Proof.
  apply (strings_to_int_list_round_trip [5; 0; 7] 3); [lia|].
  intros v Hv. rewrite !elem_of_cons in Hv.
  destruct Hv as [->|[->|[->|Hv]]]; [lia..|by apply elem_of_nil in Hv].
Defined.

Lemma reverse_value n d :
  0 < d → 0 ≤ n < 2 ^ d →
  bits.reverse n d = inr (of_bits_le (bits_be (Z.to_nat d) n)).
Proof.
  intros Hd Hn. unfold bits.reverse.
  rewrite int_to_bit_string_bits by done. unfold mbind, res_bind.
  rewrite <- fmap_reverse, bit_string_to_int_bits.
  - by rewrite reverse_involutive.
  - intros Hnil. apply (f_equal length) in Hnil. unfold bits_be in Hnil.
    rewrite !length_reverse, length_to_bits_le in Hnil. simpl in Hnil. lia.
Qed.

(** X11. For every dimension [d >= 0] and every number in [[0, 2^d)],
    [reverse] succeeds with a number in [[0, 2^d)] whose bit [i] is the
    number's bit [d - 1 - i], and reversing the result gives the number
    back. *)
Theorem reverse_mirrors_bits (n d : Z) :
  0 ≤ d → 0 ≤ n < 2 ^ d →
  ∃ r, bits.reverse n d = inr r ∧
       0 ≤ r < 2 ^ d ∧
       (∀ i, 0 ≤ i < d → Z.testbit r i = Z.testbit n (d - 1 - i)) ∧
       bits.reverse r d = inr n.
Proof.
  intros Hd Hn. destruct (decide (d = 0)) as [->|Hne].
  { assert (n = 0) as -> by (simpl in Hn; lia). exists 0.
    split_and!; [done|done|done|intros; lia|done]. }
  set (r := of_bits_le (bits_be (Z.to_nat d) n)).
  assert (Hr : 0 ≤ r < 2 ^ d).
  { pose proof (of_bits_le_range (bits_be (Z.to_nat d) n)) as H.
    unfold bits_be in H. rewrite length_reverse, length_to_bits_le in H.
    by rewrite Z2Nat.id in H by lia. }
  exists r. split_and!; [by apply reverse_value; lia|lia|lia| |].
  - intros i Hi. rewrite <- (Z2Nat.id i) at 1 by lia.
    subst r. rewrite testbit_of_bits_le, lookup_bits_be by lia. simpl.
    f_equal. lia.
  - rewrite reverse_value by lia. f_equal. unfold bits_be at 1.
    assert (to_bits_le r (Z.to_nat d) = bits_be (Z.to_nat d) n) as ->.
    { subst r. pose proof (to_bits_le_of_bits_le (bits_be (Z.to_nat d) n)) as H.
      unfold bits_be in H at 2. by rewrite length_reverse, length_to_bits_le in H. }
    unfold bits_be. rewrite reverse_involutive.
    apply of_bits_le_to_bits_le. by rewrite Z2Nat.id by lia.
Qed.

Lemma reverse_mirrors_bits_witness :
  ∃ r, bits.reverse 6 4 = inr r ∧
       0 ≤ r < 2 ^ 4 ∧
       (∀ i, 0 ≤ i < 4 → Z.testbit r i = Z.testbit 6 (4 - 1 - i)) ∧
       bits.reverse r 4 = inr 6.
Proof. apply (reverse_mirrors_bits 6 4); lia. Defined.

Lemma singleton_list {A} (l : list A) (v : A) :
  NoDup l → v ∈ l → (∀ x, x ∈ l → x = v) → l = [v].
Proof.
  intros Hnd Hin Hall. destruct l as [|x l]; [by apply elem_of_nil in Hin|].
  assert (x = v) as -> by (apply Hall; left).
  apply NoDup_cons in Hnd as [Hv Hnd].
  destruct l as [|y l]; [done|].
  assert (y = v) as -> by (apply Hall; right; left).
  exfalso. apply Hv. left.
Qed.

Lemma filter_all {A} (P : A → Prop) `{∀ x, Decision (P x)} (l : list A) :
  (∀ x, x ∈ l → P x) → filter P l = l.
Proof.
  induction l as [|x l IH]; intros Hall; [done|].
  rewrite filter_cons_True by (apply Hall; left).
  f_equal. apply IH. intros; apply Hall; by right.
Qed.

(** X12. For [d >= 1], the bit string of a number of [[0, 2^d)], taken
    as a pattern, matches that number and no other; the pattern of [d]
    stars matches every number of [[0, 2^d)], in increasing order. *)
Theorem pattern_without_choice (v d : Z) :
  1 ≤ d → 0 ≤ v < 2 ^ d →
  (∃ s, bits.int_to_bit_string v d = inr s ∧
        bits.pattern_to_int_list s d = inr [v]) ∧
  bits.pattern_to_int_list (replicate (Z.to_nat d) "*"%char) d = inr (range (2 ^ d)).
Proof.
  intros Hd Hv. split.
  - set (s := char_of_bool <$> bits_be (Z.to_nat d) v).
    assert (Hlen : Z.of_nat (length s) = d).
    { subst s. unfold bits_be.
      rewrite length_fmap, length_reverse, length_to_bits_le. lia. }
    assert (Hchars : Forall (λ c, bits.is_wildcard_char c = true) s).
    { subst s. apply Forall_fmap, Forall_forall. intros b _. by destruct b. }
    assert (Hlook : ∀ i : nat, Z.of_nat i < d →
              s !! i = Some (char_of_bool (Z.testbit v (d - 1 - Z.of_nat i)))).
    { intros i Hi. subst s. rewrite list_lookup_fmap, lookup_bits_be by lia.
      simpl. do 3 f_equal. lia. }
    exists s. split; [apply int_to_bit_string_bits; lia|].
    rewrite pattern_to_int_list_filter by (done || lia). f_equal.
    apply singleton_list.
    + apply NoDup_filter, NoDup_seqZ.
    + apply elem_of_pattern_filter; [lia|done|done|]. split; [done|].
      intros i. destruct (decide (Z.of_nat i < d)) as [Hi|Hi].
      * rewrite Hlook by done.
        split; intros [= Hc]; by destruct (Z.testbit v _).
      * rewrite lookup_ge_None_2 by lia. done.
    + intros x [Hx Hm]%elem_of_pattern_filter; [|lia|done|done].
      apply Z.bits_inj'. intros k Hk.
      destruct (decide (k < d)) as [Hlt|Hge].
      * destruct (Hm (Z.to_nat (d - 1 - k))) as [H0 H1].
        rewrite Hlook in H0, H1 by lia.
        replace (d - 1 - Z.of_nat (Z.to_nat (d - 1 - k))) with k in * by lia.
        destruct (Z.testbit v k); [by apply H1|by apply H0].
      * by rewrite (testbit_above d x), (testbit_above d v) by lia.
  - rewrite pattern_to_int_list_filter.
    + f_equal. apply filter_all. intros x Hx%elem_of_seqZ.
      destruct (matches_spec (replicate (Z.to_nat d) "*"%char) d) with (v := x)
        as (b & Hb & Hiff);
        [lia|rewrite length_replicate; lia|by apply Forall_replicate|lia|].
      rewrite Hb. f_equal. apply Hiff. intros i.
      split; intros [[=] _]%lookup_replicate_1.
    + lia.
    + rewrite length_replicate. lia.
    + by apply Forall_replicate.
Qed.

Lemma pattern_without_choice_witness :
  (∃ s, bits.int_to_bit_string 5 3 = inr s ∧
        bits.pattern_to_int_list s 3 = inr [5]) ∧
  bits.pattern_to_int_list (replicate (Z.to_nat 3) "*"%char) 3 = inr (range (2 ^ 3)).
Proof. apply (pattern_without_choice 5 3); lia. Defined.

Lemma truncate_mod number d :
  0 ≤ d → bits.truncate_within_dimension number d = inr (number mod 2 ^ d).
Proof.
  intros Hd. unfold bits.truncate_within_dimension.
  rewrite bool_decide_eq_false_2 by lia. f_equal.
  replace (2 ^ d - 1) with (Z.ones d) by (rewrite Z.ones_equiv; lia).
  by apply Z.land_ones.
Qed.

Lemma truncate_negative number d :
  d < 0 →
  bits.truncate_within_dimension number d
  = inl (if decide (d ≤ - (2 ^ 1024 - 2 ^ 970)) then OverflowError else TypeError).
Proof.
  intros Hd. unfold bits.truncate_within_dimension, bits.int_too_large_for_float.
  rewrite bool_decide_eq_true_2 by done.
  generalize (2 ^ 1024 - 2 ^ 970). intros limit.
  destruct (decide (d ≤ - limit)).
  - by rewrite bool_decide_eq_true_2 by lia.
  - by rewrite bool_decide_eq_false_2 by lia.
Qed.

Lemma reflect_as_relocate self bit_mask preserve_colors :
  0 ≤ VertexSet.dimension self →
  VertexSet.reflect bit_mask preserve_colors self
  = relocate preserve_colors
      (λ location, inr (Z.lxor location (bit_mask mod 2 ^ VertexSet.dimension self)))
      self.
Proof.
  intros Hd. unfold VertexSet.reflect. unfold mbind at 1, M_bind, gets.
  unfold mbind at 1, M_bind, lift. rewrite truncate_mod by done.
  by destruct preserve_colors.
Qed.

(** X13. [truncate_within_dimension] raises [TypeError] for a negative
    dimension above [-(2^1024 - 2^970)] and [OverflowError] for a
    dimension at or below it, where [2 ** dimension] cannot convert the
    exponent to a float; for a dimension that is not negative it returns
    the number modulo [2^d], which lies in [[0, 2^d)] for negative numbers
    too; two masks that agree modulo [2^d] reflect a vertex set of
    dimension [d] in the same way. *)
Theorem reflect_mask_modulo
    (self : VertexSet.t) (mask1 mask2 : Z) (preserve_colors : bool) :
  let d := VertexSet.dimension self in
  (- (2 ^ 1024 - 2 ^ 970) < d < 0 →
   bits.truncate_within_dimension mask1 d = inl TypeError) ∧
  (d ≤ - (2 ^ 1024 - 2 ^ 970) →
   bits.truncate_within_dimension mask1 d = inl OverflowError) ∧
  (0 ≤ d →
   bits.truncate_within_dimension mask1 d = inr (mask1 mod 2 ^ d) ∧
   0 ≤ mask1 mod 2 ^ d < 2 ^ d) ∧
  (0 ≤ d → mask1 mod 2 ^ d = mask2 mod 2 ^ d →
   VertexSet.reflect mask1 preserve_colors self
   = VertexSet.reflect mask2 preserve_colors self).
Proof.
  cbv zeta. split_and!.
  - intros Hd. by rewrite truncate_negative, decide_False by lia.
  - intros Hd. pose proof float_limit_pos.
    by rewrite truncate_negative, decide_True by lia.
  - intros Hd. split; [by apply truncate_mod|].
    apply Z.mod_pos_bound. lia.
  - intros Hd Hmod. by rewrite !reflect_as_relocate, Hmod by done.
Qed.

Lemma reflect_mask_modulo_witness :
  bits.truncate_within_dimension (-1) 2 = inr ((-1) mod 2 ^ 2) ∧
  0 ≤ (-1) mod 2 ^ 2 < 2 ^ 2 ∧
  VertexSet.reflect (-1) true (VertexSet.init 2)
  = VertexSet.reflect 7 true (VertexSet.init 2).
Proof.
  pose proof (reflect_mask_modulo (VertexSet.init 2) (-1) 7 true)
    as (_ & _ & H1 & H2).
  split_and!; [apply H1; simpl; lia|apply H1; simpl; lia|apply H1; simpl; lia|].
  apply H2; [simpl; lia|reflexivity].
Defined.

(** * Further properties of the cube *)

(** ** Automorphisms keep distances *)

Lemma popcount_permuted l d w :
  0 < d → rotation_checks l d = true → 0 ≤ w < 2 ^ d →
  popcount (permuted l d w) = popcount w.
Proof.
  intros Hd Hchecks Hw. unfold permuted.
  rewrite popcount_of_bits_le.
  rewrite (popcount_count_bits (Z.to_nat d)) by (rewrite Z2Nat.id by lia; done).
  f_equal. unfold count.
  assert (Hperm : reverse ((λ i, Z.testbit w (d - 1 - i)) <$> l)
                  ≡ₚ to_bits_le w (Z.to_nat d)).
  { rewrite reverse_Permutation, <- (rotation_checks_perm l d Hchecks).
    rewrite <- (reverse_Permutation (to_bits_le w (Z.to_nat d))).
    fold (bits_be (Z.to_nat d) w).
    assert ((λ i, Z.testbit w (d - 1 - i)) <$> seqZ 0 d = bits_be (Z.to_nat d) w)
      as ->; [|done].
    apply list_eq. intros i. rewrite list_lookup_fmap.
    destruct (decide (Z.of_nat i < d)) as [Hi|Hi].
    - rewrite lookup_seqZ_lt, lookup_bits_be by lia. simpl. do 2 f_equal. lia.
    - rewrite lookup_seqZ_ge by lia. symmetry. apply lookup_ge_None_2.
      unfold bits_be. rewrite length_reverse, length_to_bits_le. lia. }
  apply Permutation_length. by apply filter_Permutation.
Qed.

Lemma permuted_lxor l d u v :
  0 < d → rotation_checks l d = true → 0 ≤ u < 2 ^ d → 0 ≤ v < 2 ^ d →
  Z.lxor (permuted l d u) (permuted l d v) = permuted l d (Z.lxor u v).
Proof.
  intros Hd Hchecks Hu Hv.
  pose proof (permuted_range l d Hd Hchecks u) as Hpu.
  pose proof (permuted_range l d Hd Hchecks v) as Hpv.
  pose proof (permuted_range l d Hd Hchecks (Z.lxor u v)) as Hpx.
  pose proof (lxor_below_pow2 d _ _ Hpu Hpv) as Hx.
  apply Z.bits_inj'. intros k Hk. rewrite Z.lxor_spec.
  destruct (decide (k < d)) as [Hlt|Hge].
  - destruct (lookup_lt_is_Some_2 l (Z.to_nat (d - 1 - k))) as [x Hx'].
    { pose proof (length_indices l d Hd Hchecks). lia. }
    replace k with (d - 1 - Z.of_nat (Z.to_nat (d - 1 - k))) by lia.
    rewrite !(testbit_permuted _ _ _ _ x) by done. by rewrite Z.lxor_spec.
  - by rewrite !(testbit_above d (permuted _ _ _)) by lia.
Qed.

Lemma isometry_relocated d self g new :
  (∀ i, (i < Z.to_nat (2 ^ d))%nat → (g i < Z.to_nat (2 ^ d))%nat) →
  (∀ i j, (i < Z.to_nat (2 ^ d))%nat → (j < Z.to_nat (2 ^ d))%nat →
          g i = g j → i = j) →
  (∀ i j, (i < Z.to_nat (2 ^ d))%nat → (j < Z.to_nat (2 ^ d))%nat →
          popcount (Z.lxor (Z.of_nat (g i)) (Z.of_nat (g j)))
          = popcount (Z.lxor (Z.of_nat i) (Z.of_nat j))) →
  inv d self → relocated g (VertexSet.vertices self) new →
  isometry d self → isometry d (VertexSet.set_vertices new self).
Proof.
  intros Hran Hinj Hiso Hinv [Hlen Hmove] Hold u v a b Hu Hv. simpl in *.
  rewrite (inv_length d self Hinv) in Hlen, Hmove.
  destruct (injection_onto _ g Hran Hinj u) as (i & Hi & <-).
  { apply lookup_lt_Some in Hu. lia. }
  destruct (injection_onto _ g Hran Hinj v) as (j & Hj & <-).
  { apply lookup_lt_Some in Hv. lia. }
  rewrite Hmove in Hu, Hv by done.
  rewrite Hiso by done. by eapply Hold.
Qed.

Lemma isometry_arrangement d self self' :
  same_arrangement self self' → isometry d self → isometry d self'.
Proof. intros (_ & Hv & _) Hiso u v a b. rewrite Hv. apply Hiso. Qed.

Lemma isometry_seq d self :
  VertexSet.vertices self = seq 0 (Z.to_nat (2 ^ d)) → isometry d self.
Proof.
  intros Hv u v a b. rewrite Hv.
  intros [-> _]%lookup_seq [-> _]%lookup_seq. done.
Qed.

Lemma flip_of_nat d bit_mask k :
  0 ≤ d → Z.of_nat (flip d bit_mask k)
          = Z.lxor (Z.of_nat k) (Z.land bit_mask (2 ^ d - 1)).
Proof.
  intros Hd. unfold flip. rewrite Z2Nat.id; [done|].
  pose proof (land_mask_range bit_mask d Hd). apply Z.lxor_nonneg. lia.
Qed.

Lemma rotate_ok d rotation_list preserve_colors self :
  0 ≤ d → inv d self → isometry d self →
  isometry d (VertexSet.rotate rotation_list preserve_colors self).1.
Proof.
  intros Hd Hinv Hiso.
  destruct (decide (0 < d ∧ rotation_checks rotation_list d = true))
    as [[Hpos Hchecks]|Hbad].
  - destruct (rotate_relocates d self rotation_list preserve_colors)
      as (new & self' & -> & Hmove & Hsame);
      [done|done|apply Hinv|by apply inv_length|].
    eapply isometry_arrangement; [done|].
    assert (Hr : ∀ k : nat, 0 ≤ permuted rotation_list d (Z.of_nat k) < 2 ^ d)
      by (intros; by apply permuted_range).
    eapply isometry_relocated; [| | |done|done|done].
    + intros k Hk. cbv beta. specialize (Hr k). lia.
    + intros i j Hi Hj Hij. cbv beta in Hij.
      pose proof (Hr i). pose proof (Hr j).
      apply Nat2Z.inj, (permuted_inj rotation_list d Hpos Hchecks); lia.
    + intros i j Hi Hj. cbv beta. pose proof (Hr i). pose proof (Hr j).
      rewrite !Z2Nat.id by lia.
      rewrite permuted_lxor by (done || lia).
      apply popcount_permuted; [done|done|].
      apply lxor_below_pow2; lia.
  - rewrite (rotate_fails d); [done|done| |apply Hinv|by eapply inv_nonempty].
    destruct (decide (d = 0)); [by left|right].
    destruct (rotation_checks rotation_list d); [|done].
    exfalso. apply Hbad. split; [lia|done].
Qed.

Lemma reflect_ok d bit_mask preserve_colors self :
  0 ≤ d → inv d self → isometry d self →
  isometry d (VertexSet.reflect bit_mask preserve_colors self).1.
Proof.
  intros Hd Hinv Hiso.
  destruct (reflect_relocates d self bit_mask preserve_colors)
    as (new & self' & -> & Hmove & Hsame);
    [done|apply Hinv|by apply inv_length|].
  eapply isometry_arrangement; [done|].
  eapply isometry_relocated; [| | |done|done|done].
  - intros k Hk. by apply flip_lt.
  - intros i j Hi Hj Hij.
    by rewrite <- (flip_flip d bit_mask i), Hij, flip_flip.
  - intros i j Hi Hj. rewrite !flip_of_nat by done.
    rewrite (Z.lxor_comm (Z.of_nat j)), Z.lxor_assoc.
    rewrite <- (Z.lxor_assoc (Z.land _ _)), Z.lxor_nilpotent, Z.lxor_0_l. done.
Qed.

Lemma color_by_ids_keys u v tag es key :
  is_Some (EdgeSet.edges (EdgeSet.color_by_ids u v tag es).1 !! key)
  ↔ is_Some (EdgeSet.edges es !! key).
Proof.
  unfold EdgeSet.color_by_ids.
  destruct (bool_decide (is_Some (EdgeSet.edges es !! (u, v)))) eqn:Huv; simpl.
  { apply bool_decide_eq_true_1 in Huv.
    destruct (decide (key = (u, v))) as [->|Hne].
    - rewrite lookup_insert_eq. split; [done|by eauto].
    - by rewrite lookup_insert_ne. }
  destruct (bool_decide (is_Some (EdgeSet.edges es !! (v, u)))) eqn:Hvu; simpl; [|done].
  apply bool_decide_eq_true_1 in Hvu.
  destruct (decide (key = (v, u))) as [->|Hne].
  - rewrite lookup_insert_eq. split; [done|by eauto].
  - by rewrite lookup_insert_ne.
Qed.

Lemma color_edges_keys vertex_id_list tag es key :
  is_Some (EdgeSet.edges (EdgeSet.color_edges_by_id_list vertex_id_list tag es).1 !! key)
  ↔ is_Some (EdgeSet.edges es !! key).
Proof.
  unfold EdgeSet.color_edges_by_id_list. unfold mbind, M_bind.
  destruct (EdgeSet.get_induced_edges_from_id_list es vertex_id_list)
    as [e|induced]; [done|].
  apply (for_each_preserves
    (λ es', is_Some (EdgeSet.edges es' !! key) ↔ is_Some (EdgeSet.edges es !! key)));
    [|done].
  intros [low high] es' Hes'. by rewrite color_by_ids_keys.
Qed.

Lemma edges_inv_init d : edges_inv d (Cube.edge_set (new_cube d)).
Proof.
  intros key. simpl. rewrite insert_all_lookup, lookup_empty.
  case_decide; split; (done || by intros [? ?] || eauto).
Qed.

Lemma on_edge_set_edge_set {A} (m : M EdgeSet.t A) c :
  Cube.edge_set (Cube.on_edge_set m c).1 = (m (Cube.edge_set c)).1.
Proof. unfold Cube.on_edge_set. by destruct (m _). Qed.

Lemma run_ok d o c : 0 ≤ d → cube_ok d c → cube_ok d (Cube.run o c).1.
Proof.
  intros Hd (Hinv & Hiso & Hedges).
  split; [by apply run_inv|]. destruct o; simpl.
  - unfold Cube.rotate.
    rewrite on_vertex_set_vertex_set, on_vertex_set_edge_set.
    split; [by apply rotate_ok|done].
  - unfold Cube.reflect.
    rewrite on_vertex_set_vertex_set, on_vertex_set_edge_set.
    split; [by apply reflect_ok|done].
  - unfold Cube.reset_positions.
    rewrite on_vertex_set_vertex_set, on_vertex_set_edge_set.
    split; [|done]. rewrite (reset_positions_inv d) by done.
    by apply isometry_seq.
  - unfold Cube.color_vertices_by_id_list.
    rewrite on_vertex_set_vertex_set, on_vertex_set_edge_set.
    split; [|done].
    eapply isometry_arrangement; [apply color_vertices_arrangement|done].
  - unfold Cube.uncolor_vertices_by_id_list.
    rewrite on_vertex_set_vertex_set, on_vertex_set_edge_set.
    split; [|done].
    eapply isometry_arrangement; [apply color_vertices_arrangement|done].
  - unfold Cube.color_edges_by_id_list.
    rewrite on_edge_set_vertex_set, on_edge_set_edge_set.
    split; [done|]. intros key. rewrite color_edges_keys. apply Hedges.
  - unfold Cube.uncolor_edges_by_id_list.
    rewrite on_edge_set_vertex_set, on_edge_set_edge_set.
    split; [done|]. intros key. unfold EdgeSet.uncolor_edges_by_id_list.
    rewrite color_edges_keys. apply Hedges.
Qed.

Lemma reachable_ok d c : 0 ≤ d → reachable d c → cube_ok d c.
Proof.
  intros Hd (c0 & ops & Hinit & ->). rewrite cube_init in Hinit by done.
  injection Hinit as <-. fold (new_cube d).
  assert (H0 : cube_ok d (new_cube d)).
  { split_and!; [by apply inv_init| |apply edges_inv_init].
    apply isometry_seq. unfold new_cube, VertexSet.init. simpl.
    unfold bits.how_many_bit_strings, range.
    rewrite bool_decide_eq_false_2 by lia.
    by rewrite length_fmap, length_seqZ. }
  revert H0. generalize (new_cube d). induction ops as [|o ops IH]; intros c Hc; [done|].
  apply IH. by apply run_ok.
Qed.

(** ** Lookups, resets and failed rotations *)

Lemma on_vertex_set_result {A} (m : M VertexSet.t A) c :
  (Cube.on_vertex_set m c).2 = (m (Cube.vertex_set c)).2.
Proof. unfold Cube.on_vertex_set. by destruct (m _). Qed.

Lemma inv_elem d self v :
  inv d self → v ∈ VertexSet.vertices self ↔ (v < Z.to_nat (2 ^ d))%nat.
Proof. intros (_ & _ & _ & Hv). rewrite Hv, elem_of_seq. lia. Qed.

Lemma inv_NoDup d self : inv d self → NoDup (VertexSet.vertices self).
Proof. intros (_ & _ & _ & Hv). rewrite Hv. apply NoDup_seq. Qed.

Lemma inv_vertex_id d self v :
  inv d self → v ∈ VertexSet.vertices self →
  Vertex.vertex_id (VertexSet.deref self v) = Z.of_nat v.
Proof.
  intros Hinv Hv. pose proof Hinv as (_ & _ & Hid & _).
  apply Hid. by eapply inv_elem.
Qed.

Lemma inv_lookup_location_by_id d self (k v : nat) :
  inv d self → VertexSet.vertices self !! k = Some v →
  VertexSet.lookup_location_by_id self (Z.of_nat v) = Some k.
Proof.
  intros Hinv Hk. unfold VertexSet.lookup_location_by_id.
  assert (Hfind : list_find
            (λ vertex, Z.of_nat v = Vertex.vertex_id (VertexSet.deref self vertex))
            (VertexSet.vertices self) = Some (k, v)); [|by rewrite Hfind].
  apply list_find_Some. split_and!; [done| |].
  - symmetry. eapply inv_vertex_id; [done|]. by eapply list_elem_of_lookup_2.
  - intros j y Hj Hlt Hy.
    rewrite (inv_vertex_id d) in Hy by (done || by eapply list_elem_of_lookup_2).
    apply Nat2Z.inj in Hy as ->.
    pose proof (NoDup_lookup _ _ _ _ (inv_NoDup d self Hinv) Hj Hk). lia.
Qed.

Lemma inv_lookup_location_by_id_None d self vertex_id :
  0 ≤ d → inv d self → ¬ (0 ≤ vertex_id < 2 ^ d) →
  VertexSet.lookup_location_by_id self vertex_id = None.
Proof.
  intros Hd Hinv Hout. unfold VertexSet.lookup_location_by_id.
  destruct (list_find _ _) as [[i v]|] eqn:E; [|done]. exfalso.
  apply list_find_Some in E as (Hi & Hvid & _).
  apply list_elem_of_lookup_2 in Hi.
  rewrite (inv_vertex_id d) in Hvid by done.
  apply (inv_elem d self v Hinv) in Hi.
  pose proof (pow2_to_nat d Hd). lia.
Qed.

(** X14. In a cube a caller can hold, of dimension [d >= 0], the two
    directions of lookup are inverse to each other: every id of
    [[0, 2^d)] has a location, that location holds the id, and looking the
    vertex up by id or by that location gives the same object; every
    location of [[0, 2^d)] holds an id whose location it is; an id outside
    [[0, 2^d)] has neither location nor vertex. *)
Theorem lookups_are_inverse (d : Z) (c : Cube.t) :
  0 ≤ d → reachable d c →
  let self := Cube.vertex_set c in
  (∀ id, 0 ≤ id < 2 ^ d →
     ∃ location : nat,
       VertexSet.lookup_location_by_id self id = Some location ∧
       Z.of_nat location < 2 ^ d ∧
       VertexSet.lookup_id_by_location self (Z.of_nat location) = Some id ∧
       VertexSet.lookup_vertex_by_id self id
       = VertexSet.lookup_vertex_by_location self (Z.of_nat location)) ∧
  (∀ location : nat, Z.of_nat location < 2 ^ d →
     ∃ id, 0 ≤ id < 2 ^ d ∧
       VertexSet.lookup_id_by_location self (Z.of_nat location) = Some id ∧
       VertexSet.lookup_location_by_id self id = Some location) ∧
  (∀ id, ¬ (0 ≤ id < 2 ^ d) →
     VertexSet.lookup_location_by_id self id = None ∧
     VertexSet.lookup_vertex_by_id self id = None).
Proof.
  intros Hd Hreach self. pose proof (reachable_inv d c Hd Hreach) as Hinv.
  fold self in Hinv. pose proof (pow2_to_nat d Hd) as Hpow.
  pose proof (inv_length d self Hinv) as Hlen. split_and!.
  - intros id Hid.
    assert (Hin : Z.to_nat id ∈ VertexSet.vertices self)
      by (apply (inv_elem d); [done|lia]).
    apply list_elem_of_lookup in Hin as [k Hk].
    pose proof (lookup_lt_Some _ _ _ Hk).
    pose proof (inv_lookup_location_by_id d self k _ Hinv Hk) as Hloc.
    rewrite Z2Nat.id in Hloc by lia.
    exists k. split_and!; [done|lia| |].
    + rewrite lookup_id_by_location_nat, Hk. simpl.
      rewrite (inv_vertex_id d) by (done || by eapply list_elem_of_lookup_2).
      f_equal. lia.
    + unfold VertexSet.lookup_vertex_by_id. rewrite Hloc.
      by rewrite lookup_vertex_by_location_nat.
  - intros location Hloc.
    destruct (lookup_lt_is_Some_2 (VertexSet.vertices self) location)
      as [v Hv]; [lia|].
    pose proof (list_elem_of_lookup_2 _ _ _ Hv) as Hin.
    pose proof (proj1 (inv_elem d self v Hinv) Hin).
    exists (Z.of_nat v). split_and!; [lia|lia| |].
    + rewrite lookup_id_by_location_nat, Hv. simpl.
      by rewrite (inv_vertex_id d).
    + by eapply inv_lookup_location_by_id.
  - intros id Hout. split.
    + by eapply inv_lookup_location_by_id_None.
    + rewrite (inv_lookup_vertex_by_id d) by done. by rewrite decide_False.
Qed.

Lemma lookups_are_inverse_witness :
  let self := Cube.vertex_set (Cube.run_all [Cube.Rotate [2; 0; 1] false] (new_cube 3)) in
  (∀ id, 0 ≤ id < 2 ^ 3 →
     ∃ location : nat,
       VertexSet.lookup_location_by_id self id = Some location ∧
       Z.of_nat location < 2 ^ 3 ∧
       VertexSet.lookup_id_by_location self (Z.of_nat location) = Some id ∧
       VertexSet.lookup_vertex_by_id self id
       = VertexSet.lookup_vertex_by_location self (Z.of_nat location)) ∧
  (∀ location : nat, Z.of_nat location < 2 ^ 3 →
     ∃ id, 0 ≤ id < 2 ^ 3 ∧
       VertexSet.lookup_id_by_location self (Z.of_nat location) = Some id ∧
       VertexSet.lookup_location_by_id self id = Some location) ∧
  (∀ id, ¬ (0 ≤ id < 2 ^ 3) →
     VertexSet.lookup_location_by_id self id = None ∧
     VertexSet.lookup_vertex_by_id self id = None).
Proof.
  apply (lookups_are_inverse 3); [lia|].
  exists (new_cube 3), [Cube.Rotate [2; 0; 1] false].
  split; [vm_compute; reflexivity|reflexivity].
Defined.

Lemma inv_color_of d self vertex_id :
  0 ≤ d → inv d self →
  color_of self vertex_id
  = if decide (0 ≤ vertex_id < 2 ^ d)
    then Some (Vertex.color_string (VertexSet.deref self (Z.to_nat vertex_id)))
    else None.
Proof.
  intros Hd Hinv. unfold color_of.
  rewrite (inv_lookup_vertex_by_id d) by done. by case_decide.
Qed.

(** X15. In a cube a caller can hold, of dimension [d >= 0],
    [reset_positions] succeeds and puts every vertex at the location equal
    to its id; every vertex keeps its color and the edges are untouched. *)
Theorem reset_positions_restores (d : Z) (c : Cube.t) :
  0 ≤ d → reachable d c →
  ∃ c',
    Cube.reset_positions c = (c', inr ()) ∧
    (∀ location, 0 ≤ location < 2 ^ d →
       VertexSet.lookup_id_by_location (Cube.vertex_set c') location = Some location) ∧
    (∀ id, color_of (Cube.vertex_set c') id = color_of (Cube.vertex_set c) id) ∧
    Cube.edge_set c' = Cube.edge_set c.
Proof.
  intros Hd Hreach. pose proof (reachable_inv d c Hd Hreach) as Hinv.
  pose proof (reachable_inv d (Cube.reset_positions c).1 Hd) as Hinv'.
  unfold Cube.reset_positions, Cube.on_vertex_set in *.
  rewrite (reset_positions_inv d) in * by done. simpl in *.
  eexists. split; [done|]. simpl.
  assert (Hinv1 : inv d (VertexSet.set_vertices (seq 0 (Z.to_nat (2 ^ d)))
                           (Cube.vertex_set c))).
  { destruct Hinv as (? & ? & ? & ?). by repeat split. }
  split_and!; [| |done].
  - intros location Hloc. rewrite <- (Z2Nat.id location) at 1 by lia.
    rewrite lookup_id_by_location_nat. simpl.
    pose proof (pow2_to_nat d Hd).
    rewrite lookup_seq_lt by lia. simpl.
    destruct Hinv1 as (_ & _ & Hid & _). rewrite Hid by lia. f_equal. lia.
  - intros id. by rewrite !(inv_color_of d) by done.
Qed.

Lemma reset_positions_restores_witness :
  ∃ c',
    Cube.reset_positions
      (Cube.run_all [Cube.ColorVertices [1] "red"; Cube.Reflect 3 false] (new_cube 2))
      = (c', inr ()) ∧
    (∀ location, 0 ≤ location < 2 ^ 2 →
       VertexSet.lookup_id_by_location (Cube.vertex_set c') location = Some location) ∧
    (∀ id, color_of (Cube.vertex_set c') id
           = color_of (Cube.vertex_set
               (Cube.run_all [Cube.ColorVertices [1] "red"; Cube.Reflect 3 false]
                  (new_cube 2))) id) ∧
    Cube.edge_set c'
    = Cube.edge_set
        (Cube.run_all [Cube.ColorVertices [1] "red"; Cube.Reflect 3 false] (new_cube 2)).
Proof.
  apply (reset_positions_restores 2); [lia|].
  exists (new_cube 2), [Cube.ColorVertices [1] "red"; Cube.Reflect 3 false].
  split; [vm_compute; reflexivity|reflexivity].
Defined.

(** X16. In a cube a caller can hold, [rotate] with a list that is not
    of length [d] or misses an index of [range(d)], and every [rotate] in
    dimension 0, raises [ValueError] and leaves the cube exactly as it
    was, for either value of [preserve_colors]. *)
Theorem rotate_invalid_leaves_cube
    (d : Z) (c : Cube.t) (rotation_list : list Z) (preserve_colors : bool) :
  0 ≤ d → reachable d c →
  d = 0 ∨ ¬ valid_list rotation_list d →
  Cube.rotate rotation_list preserve_colors c = (c, inl ValueError).
Proof.
  intros Hd Hreach Hbad. pose proof (reachable_inv d c Hd Hreach) as Hinv.
  unfold Cube.rotate, Cube.on_vertex_set.
  rewrite (rotate_fails d);
    [by destruct c|done| |apply Hinv|by eapply inv_nonempty].
  destruct Hbad as [?|Hbad]; [by left|right].
  destruct (rotation_checks rotation_list d) eqn:Hc; [|done].
  exfalso. by apply Hbad, valid_list_checks.
Qed.

Lemma rotate_invalid_leaves_cube_witness :
  Cube.rotate [0; 0; 2] true (Cube.run_all [Cube.Reflect 1 false] (new_cube 3))
  = (Cube.run_all [Cube.Reflect 1 false] (new_cube 3), inl ValueError).
Proof.
  apply (rotate_invalid_leaves_cube 3); [lia| |].
  - exists (new_cube 3), [Cube.Reflect 1 false].
    split; [vm_compute; reflexivity|reflexivity].
  - right. intros [_ H]. specialize (H 1 ltac:(lia)).
    rewrite !elem_of_cons in H. destruct H as [?|[?|[?|H]]]; [lia..|].
    by apply elem_of_nil in H.
Defined.

Lemma is_valid_rotation_list_checks d indices :
  cube_repl.is_valid_rotation_list d indices = rotation_checks indices d.
Proof.
  unfold cube_repl.is_valid_rotation_list, rotation_checks.
  destruct (bool_decide _); [|done]. by destruct (forallb _ _).
Qed.

(** X17. The check the REPL makes before it rotates is the right one: in
    a cube a caller can hold, of dimension [d >= 0], [Cube.rotate]
    succeeds exactly when [d] is not 0 and [is_valid_rotation_list]
    accepts the list. *)
Theorem repl_rotation_check_is_exact
    (d : Z) (c : Cube.t) (indices : list Z) (preserve_colors : bool) :
  0 ≤ d → reachable d c →
  (Cube.rotate indices preserve_colors c).2 = inr ()
  ↔ d ≠ 0 ∧ cube_repl.is_valid_rotation_list d indices = true.
Proof.
  intros Hd Hreach. pose proof (reachable_inv d c Hd Hreach) as Hinv.
  rewrite is_valid_rotation_list_checks.
  unfold Cube.rotate. rewrite on_vertex_set_result.
  destruct (decide (d ≠ 0 ∧ rotation_checks indices d = true)) as [[Hne Hc]|Hbad].
  - destruct (rotate_relocates d (Cube.vertex_set c) indices preserve_colors)
      as (new & self' & -> & _); [lia|done|apply Hinv|by apply inv_length|].
    done.
  - rewrite (rotate_fails d); [|done| |apply Hinv|by eapply inv_nonempty].
    + split; [done|]. intros. by destruct Hbad.
    + destruct (decide (d = 0)); [by left|right].
      destruct (rotation_checks indices d); [|done]. by destruct Hbad.
Qed.

Lemma repl_rotation_check_is_exact_witness :
  (Cube.rotate [1; 0] false (new_cube 2)).2 = inr ()
  ↔ 2 ≠ 0 ∧ cube_repl.is_valid_rotation_list 2 [1; 0] = true.
Proof.
  apply (repl_rotation_check_is_exact 2); [lia|].
  exists (new_cube 2), []. split; [vm_compute; reflexivity|reflexivity].
Defined.

(** ** Where rotations and reflections put vertices and colors *)

Lemma color_by_location_found d self (k v : nat) color_string :
  0 ≤ d → inv d self → VertexSet.vertices self !! k = Some v →
  VertexSet.color_by_location (Z.of_nat k) color_string self
  = (VertexSet.set_heap
       (alter (λ x, Vertex.color x color_string) v (VertexSet.heap self)) self,
     inr ()).
Proof.
  intros Hd Hinv Hk. unfold VertexSet.color_by_location.
  rewrite lookup_id_by_location_nat, Hk. simpl.
  pose proof (list_elem_of_lookup_2 _ _ _ Hk) as Hin.
  rewrite (inv_vertex_id d) by done.
  apply color_by_id_found. rewrite (inv_lookup_vertex_by_id d) by done.
  pose proof (proj1 (inv_elem d self v Hinv) Hin).
  pose proof (pow2_to_nat d Hd).
  rewrite decide_True by lia. f_equal. lia.
Qed.

Lemma recolor_loop_colors d self (color_mapping : list (nat * color)) :
  0 ≤ d → inv d self → NoDup color_mapping.*1 →
  (∀ k c, (k, c) ∈ color_mapping → (k < Z.to_nat (2 ^ d))%nat) →
  ∃ self',
    for_each (λ '(location, color_string),
                 VertexSet.color_by_location location color_string)
      (prod_map Z.of_nat id <$> color_mapping) self = (self', inr ()) ∧
    same_arrangement self self' ∧
    (∀ k c v, (k, c) ∈ color_mapping →
       VertexSet.vertices self !! k = Some v →
       Vertex.color_string (VertexSet.deref self' v) = c) ∧
    (∀ v, (∀ k c, (k, c) ∈ color_mapping →
             VertexSet.vertices self !! k ≠ Some v) →
       Vertex.color_string (VertexSet.deref self' v)
       = Vertex.color_string (VertexSet.deref self v)).
Proof.
  intros Hd. revert self.
  induction color_mapping as [|[k c] cm IH]; intros self Hinv Hnd Hrange.
  { exists self. split_and!; [done|apply same_arrangement_refl| |done].
    intros k c v Hin. by apply elem_of_nil in Hin. }
  rewrite fmap_cons in Hnd. apply NoDup_cons in Hnd as [Hk Hnd].
  destruct (lookup_lt_is_Some_2 (VertexSet.vertices self) k) as [v0 Hv0].
  { rewrite (inv_length d self Hinv). eapply Hrange. left. }
  pose proof (list_elem_of_lookup_2 _ _ _ Hv0) as Hin0.
  assert (Hlt0 : (v0 < length (VertexSet.heap self))%nat).
  { by eapply inv_heap_ok. }
  rewrite fmap_cons. cbn [for_each prod_map fst snd id].
  unfold mbind, M_bind. rewrite (color_by_location_found d _ _ v0) by done.
  set (s1 := VertexSet.set_heap _ self).
  assert (Hsame1 : same_arrangement self s1).
  { pose proof (color_by_location_arrangement (Z.of_nat k) c self) as H.
    by rewrite (color_by_location_found d _ _ v0) in H. }
  pose proof Hsame1 as (_ & Hv1 & _).
  destruct (IH s1) as (self' & Hrun & Hsame' & Hcol & Hother).
  { by eapply inv_arrangement. }
  { done. }
  { intros k' c' Hin. eapply Hrange. by right. }
  assert (Hfresh : ∀ k' c', (k', c') ∈ cm → VertexSet.vertices s1 !! k' ≠ Some v0).
  { intros k' c' Hin Hk'. rewrite Hv1 in Hk'.
    pose proof (NoDup_lookup _ _ _ _ (inv_NoDup d self Hinv) Hk' Hv0) as ->.
    apply Hk, list_elem_of_fmap. by exists (k, c'). }
  exists self'. split_and!; [done|by eapply same_arrangement_trans| |].
  - intros k' c' v [[= -> ->]|Hin]%elem_of_cons Hv.
    + assert (v = v0) as -> by congruence.
      rewrite Hother by done. subst s1.
      rewrite deref_color, decide_True by done. done.
    + eapply Hcol; [done|]. by rewrite Hv1.
  - intros v Hv. rewrite Hother.
    + subst s1. rewrite deref_color, decide_False; [done|].
      intros [-> _]. by apply (Hv k c); [left|].
    + intros k' c' Hin. rewrite Hv1. apply (Hv k' c'). by right.
Qed.

Lemma color_at_nat self (k : nat) :
  color_at self (Z.of_nat k)
  = (λ v, Vertex.color_string (VertexSet.deref self v)) <$> VertexSet.vertices self !! k.
Proof.
  unfold color_at. rewrite lookup_vertex_by_location_nat.
  by destruct (_ !! k).
Qed.

Lemma enumerate_imap_colors self (l : list ref) :
  imap (λ i v, (Z.of_nat i, Vertex.color_string (VertexSet.deref self v))) l
  = prod_map Z.of_nat id
      <$> imap (λ i v, (i, Vertex.color_string (VertexSet.deref self v))) l.
Proof. rewrite fmap_imap. by apply imap_ext. Qed.

(** What a relocation does to a vertex set that satisfies the invariant. *)
Lemma relocate_contract d preserve_colors function g self :
  0 ≤ d → inv d self →
  (∀ k, (k < Z.to_nat (2 ^ d))%nat →
     function (Z.of_nat k) = inr (Z.of_nat (g k)) ∧ (g k < Z.to_nat (2 ^ d))%nat) →
  (∀ i j, (i < Z.to_nat (2 ^ d))%nat → (j < Z.to_nat (2 ^ d))%nat →
          g i = g j → i = j) →
  ∃ self',
    relocate preserve_colors function self = (self', inr ()) ∧
    inv d self' ∧
    relocated g (VertexSet.vertices self) (VertexSet.vertices self') ∧
    if preserve_colors
    then ∀ k, (k < Z.to_nat (2 ^ d))%nat →
           color_at self' (Z.of_nat k) = color_at self (Z.of_nat k)
    else ∀ id, color_of self' id = color_of self id.
Proof.
  intros Hd Hinv Hf Hinj. pose proof (inv_length d self Hinv) as Hlen.
  assert (Hran : ∀ i, (i < Z.to_nat (2 ^ d))%nat → (g i < Z.to_nat (2 ^ d))%nat)
    by (intros; by apply Hf).
  destruct preserve_colors; simpl.
  - destruct (map_to_locations_not_colors_moves function g self)
      as (new & Hmove & ->); [by rewrite Hlen..|].
    set (s0 := VertexSet.set_vertices new self).
    assert (Hinv0 : inv d s0) by (by eapply inv_relocated).
    rewrite enumerate_imap_colors.
    destruct (recolor_loop_colors d s0
                (imap (λ i v, (i, Vertex.color_string (VertexSet.deref self v)))
                   (VertexSet.vertices self)))
      as (self' & Hrun & Hsame & Hcol & _); [done|done| | |].
    { rewrite fmap_imap. apply NoDup_alt. intros a b y.
      rewrite !list_lookup_imap.
      destruct (_ !! a); [|done]. destruct (_ !! b); [|done]. simpl. congruence. }
    { intros k c' (i & v & [= -> ->] & Hi%lookup_lt_Some)%elem_of_lookup_imap. lia. }
    exists self'. pose proof Hsame as (_ & Hv' & _). simpl in Hv'.
    split_and!; [done|by eapply inv_arrangement|by rewrite Hv'|].
    intros k Hk. rewrite !color_at_nat, Hv'.
    destruct (lookup_lt_is_Some_2 new k) as [w Hw];
      [destruct Hmove as [-> _]; lia|].
    destruct (lookup_lt_is_Some_2 (VertexSet.vertices self) k) as [v Hv]; [lia|].
    rewrite Hw, Hv. simpl. f_equal.
    eapply Hcol; [|exact Hw].
    apply elem_of_lookup_imap. eauto.
  - destruct (map_to_locations_relocates function g self)
      as (new & -> & Hmove); [by rewrite Hlen..|].
    assert (Hinv0 : inv d (VertexSet.set_vertices new self))
      by (by eapply inv_relocated).
    eexists. split_and!; [done|done|done|].
    intros id. by rewrite !(inv_color_of d) by done.
Qed.

Lemma relocated_lookup (g : nat → nat) self self' (k : nat) :
  relocated g (VertexSet.vertices self) (VertexSet.vertices self') →
  (k < length (VertexSet.vertices self))%nat →
  VertexSet.lookup_vertex_by_location self' (Z.of_nat (g k))
  = VertexSet.lookup_vertex_by_location self (Z.of_nat k).
Proof.
  intros [_ Hmove] Hk. rewrite !lookup_vertex_by_location_nat. by apply Hmove.
Qed.

(** X18. In a cube a caller can hold, of dimension [d >= 1], [rotate]
    with a list of length [d] that holds every index of [range(d)]
    succeeds and moves the vertex at each location [l] to the location
    [permute_bits_by_index_list(l, list, d)].  Without [preserve_colors]
    every vertex keeps its color; with it every location keeps its color.
    The edges are untouched. *)
Theorem rotate_contract
    (d : Z) (c : Cube.t) (rotation_list : list Z) (preserve_colors : bool) :
  1 ≤ d → reachable d c → valid_list rotation_list d →
  ∃ c',
    Cube.rotate rotation_list preserve_colors c = (c', inr ()) ∧
    (∀ location, 0 ≤ location < 2 ^ d →
       ∃ r, bits.permute_bits_by_index_list location rotation_list d = inr r ∧
            VertexSet.lookup_vertex_by_location (Cube.vertex_set c') r
            = VertexSet.lookup_vertex_by_location (Cube.vertex_set c) location) ∧
    (if preserve_colors
     then ∀ location, 0 ≤ location < 2 ^ d →
            color_at (Cube.vertex_set c') location
            = color_at (Cube.vertex_set c) location
     else ∀ id, color_of (Cube.vertex_set c') id = color_of (Cube.vertex_set c) id) ∧
    Cube.edge_set c' = Cube.edge_set c.
Proof.
  intros Hd Hreach Hchecks%valid_list_checks.
  pose proof (reachable_inv d c ltac:(lia) Hreach) as Hinv.
  set (self := Cube.vertex_set c) in *.
  pose proof (pow2_to_nat d ltac:(lia)) as Hpow.
  assert (Hr : ∀ k : nat, 0 ≤ permuted rotation_list d (Z.of_nat k) < 2 ^ d)
    by (intros; apply permuted_range; (done || lia)).
  destruct (relocate_contract d preserve_colors
              (λ location, bits.permute_bits_by_index_list location rotation_list d)
              (λ k, Z.to_nat (permuted rotation_list d (Z.of_nat k))) self)
    as (self' & Hrun & Hinv' & Hmove & Hcolors); [lia|done| | |].
  { intros k Hk. specialize (Hr k).
    rewrite permute_permuted by (done || lia). split; [f_equal; lia|lia]. }
  { intros i j Hi Hj Hij. pose proof (Hr i). pose proof (Hr j).
    apply Nat2Z.inj, (permuted_inj rotation_list d ltac:(lia) Hchecks); lia. }
  exists (Cube.mk (Cube.dimension c) self' (Cube.edge_set c)).
  split_and!; simpl.
  - unfold Cube.rotate, Cube.on_vertex_set, VertexSet.rotate. fold self.
    destruct Hinv as (-> & _). unfold relocate in Hrun.
    by destruct preserve_colors; rewrite Hrun.
  - intros location Hloc. exists (permuted rotation_list d location).
    split; [apply permute_permuted; (done || lia)|].
    rewrite <- (Z2Nat.id location) by lia. specialize (Hr (Z.to_nat location)).
    rewrite <- (relocated_lookup _ self self' (Z.to_nat location) Hmove)
      by (rewrite (inv_length d self Hinv); lia).
    f_equal. lia.
  - destruct preserve_colors; [|done].
    intros location Hloc. rewrite <- (Z2Nat.id location) by lia.
    apply Hcolors. lia.
  - done.
Qed.

Lemma rotate_contract_witness :
  ∃ c',
    Cube.rotate [1; 2; 0] true
      (Cube.run_all [Cube.ColorVertices [3] "red"] (new_cube 3)) = (c', inr ()) ∧
    (∀ location, 0 ≤ location < 2 ^ 3 →
       ∃ r, bits.permute_bits_by_index_list location [1; 2; 0] 3 = inr r ∧
            VertexSet.lookup_vertex_by_location (Cube.vertex_set c') r
            = VertexSet.lookup_vertex_by_location
                (Cube.vertex_set
                   (Cube.run_all [Cube.ColorVertices [3] "red"] (new_cube 3)))
                location) ∧
    (if true
     then ∀ location, 0 ≤ location < 2 ^ 3 →
            color_at (Cube.vertex_set c') location
            = color_at (Cube.vertex_set
                (Cube.run_all [Cube.ColorVertices [3] "red"] (new_cube 3))) location
     else ∀ id, color_of (Cube.vertex_set c') id
                = color_of (Cube.vertex_set
                    (Cube.run_all [Cube.ColorVertices [3] "red"] (new_cube 3))) id) ∧
    Cube.edge_set c'
    = Cube.edge_set (Cube.run_all [Cube.ColorVertices [3] "red"] (new_cube 3)).
Proof.
  apply (rotate_contract 3); [lia| |].
  - exists (new_cube 3), [Cube.ColorVertices [3] "red"].
    split; [vm_compute; reflexivity|reflexivity].
  - split; [reflexivity|]. intros i Hi. rewrite !elem_of_cons. lia.
Defined.

(** X19. In a cube a caller can hold, of dimension [d >= 0], [reflect]
    succeeds for every integer mask and moves the vertex at each location
    [l] to the location [l ^ (mask mod 2^d)].  Without [preserve_colors]
    every vertex keeps its color; with it every location keeps its color.
    The edges are untouched. *)
Theorem reflect_contract
    (d : Z) (c : Cube.t) (bit_mask : Z) (preserve_colors : bool) :
  0 ≤ d → reachable d c →
  ∃ c',
    Cube.reflect bit_mask preserve_colors c = (c', inr ()) ∧
    (∀ location, 0 ≤ location < 2 ^ d →
       VertexSet.lookup_vertex_by_location (Cube.vertex_set c')
         (Z.lxor location (bit_mask mod 2 ^ d))
       = VertexSet.lookup_vertex_by_location (Cube.vertex_set c) location) ∧
    (if preserve_colors
     then ∀ location, 0 ≤ location < 2 ^ d →
            color_at (Cube.vertex_set c') location
            = color_at (Cube.vertex_set c) location
     else ∀ id, color_of (Cube.vertex_set c') id = color_of (Cube.vertex_set c) id) ∧
    Cube.edge_set c' = Cube.edge_set c.
Proof.
  intros Hd Hreach.
  pose proof (reachable_inv d c Hd Hreach) as Hinv.
  set (self := Cube.vertex_set c) in *.
  pose proof (pow2_to_nat d Hd) as Hpow.
  assert (Hmask : Z.land bit_mask (2 ^ d - 1) = bit_mask mod 2 ^ d).
  { replace (2 ^ d - 1) with (Z.ones d) by (rewrite Z.ones_equiv; lia).
    by apply Z.land_ones. }
  destruct (relocate_contract d preserve_colors
              (λ location, inr (Z.lxor location (bit_mask mod 2 ^ d)))
              (flip d bit_mask) self)
    as (self' & Hrun & Hinv' & Hmove & Hcolors); [done|done| | |].
  { intros k Hk. split; [|by apply flip_lt].
    by rewrite flip_of_nat, Hmask. }
  { intros i j Hi Hj Hij.
    by rewrite <- (flip_flip d bit_mask i), Hij, flip_flip. }
  exists (Cube.mk (Cube.dimension c) self' (Cube.edge_set c)).
  split_and!; simpl.
  - unfold Cube.reflect, Cube.on_vertex_set. fold self.
    rewrite reflect_as_relocate by (destruct Hinv as (-> & _); done).
    destruct Hinv as (-> & _). by rewrite Hrun.
  - intros location Hloc. rewrite <- (Z2Nat.id location) by lia.
    rewrite <- (relocated_lookup _ self self' (Z.to_nat location) Hmove)
      by (rewrite (inv_length d self Hinv); lia).
    by rewrite flip_of_nat, Hmask.
  - destruct preserve_colors; [|done].
    intros location Hloc. rewrite <- (Z2Nat.id location) by lia.
    apply Hcolors. lia.
  - done.
Qed.

Lemma reflect_contract_witness :
  ∃ c',
    Cube.reflect (-2) false (new_cube 2) = (c', inr ()) ∧
    (∀ location, 0 ≤ location < 2 ^ 2 →
       VertexSet.lookup_vertex_by_location (Cube.vertex_set c')
         (Z.lxor location ((-2) mod 2 ^ 2))
       = VertexSet.lookup_vertex_by_location (Cube.vertex_set (new_cube 2)) location) ∧
    (if false
     then ∀ location, 0 ≤ location < 2 ^ 2 →
            color_at (Cube.vertex_set c') location
            = color_at (Cube.vertex_set (new_cube 2)) location
     else ∀ id, color_of (Cube.vertex_set c') id
                = color_of (Cube.vertex_set (new_cube 2)) id) ∧
    Cube.edge_set c' = Cube.edge_set (new_cube 2).
Proof.
  apply (reflect_contract 2); [lia|].
  exists (new_cube 2), []. split; [vm_compute; reflexivity|reflexivity].
Defined.

Lemma permuted_inverse l l' d v :
  0 < d → rotation_checks l d = true → rotation_checks l' d = true →
  (∀ (j : nat) x, l' !! j = Some x → l !! Z.to_nat x = Some (Z.of_nat j)) →
  0 ≤ v < 2 ^ d → permuted l' d (permuted l d v) = v.
Proof.
  intros Hd Hl Hl' Hinv Hv.
  pose proof (permuted_range l' d Hd Hl' (permuted l d v)) as Hr'.
  apply Z.bits_inj'. intros k Hk.
  destruct (decide (k < d)) as [Hlt|Hge].
  - destruct (lookup_lt_is_Some_2 l' (Z.to_nat (d - 1 - k))) as [x Hx].
    { pose proof (length_indices l' d Hd Hl'). lia. }
    assert (Hxr : 0 ≤ x < d).
    { apply (elem_of_indices l' d Hd Hl'). by eapply list_elem_of_lookup_2. }
    replace k with (d - 1 - Z.of_nat (Z.to_nat (d - 1 - k))) at 1 by lia.
    rewrite (testbit_permuted _ _ _ _ x) by done.
    replace (d - 1 - x) with (d - 1 - Z.of_nat (Z.to_nat x)) by lia.
    rewrite (testbit_permuted _ _ _ _ (Z.of_nat (Z.to_nat (d - 1 - k))));
      [f_equal; lia|done|by apply Hinv].
  - by rewrite (testbit_above d (permuted _ _ _)), (testbit_above d v) by lia.
Qed.

Lemma relocated_compose {A} (g g' : nat → nat) (old mid new : list A) :
  (∀ k, (k < length old)%nat → (g k < length old)%nat ∧ g' (g k) = k) →
  relocated g old mid → relocated g' mid new → new = old.
Proof.
  intros Hg [Hlen1 H1] [Hlen2 H2]. apply list_eq. intros k.
  destruct (decide (k < length old)%nat) as [Hk|Hk].
  - destruct (Hg k Hk) as [Hgk Hgg].
    rewrite <- (H1 k Hk), <- (H2 (g k)) by lia. by rewrite Hgg.
  - rewrite !lookup_ge_None_2; [done|lia..].
Qed.

(** X20. In a cube a caller can hold, of dimension [d >= 1], rotating by
    a valid list [l] and then by a valid list [l'] with [l[l'[j]] == j]
    for every [j] succeeds both times and puts every vertex back at the
    location it had. *)
Theorem rotate_inverse
    (d : Z) (c : Cube.t) (l l' : list Z) (preserve_colors : bool) :
  1 ≤ d → reachable d c → valid_list l d → valid_list l' d →
  (∀ (j : nat) x, l' !! j = Some x → l !! Z.to_nat x = Some (Z.of_nat j)) →
  ∃ c1 c2,
    Cube.rotate l preserve_colors c = (c1, inr ()) ∧
    Cube.rotate l' preserve_colors c1 = (c2, inr ()) ∧
    ∀ location,
      VertexSet.lookup_vertex_by_location (Cube.vertex_set c2) location
      = VertexSet.lookup_vertex_by_location (Cube.vertex_set c) location.
Proof.
  intros Hd Hreach Hl%valid_list_checks Hl'%valid_list_checks Hinverse.
  pose proof (reachable_inv d c ltac:(lia) Hreach) as Hinv.
  set (self := Cube.vertex_set c) in *.
  destruct (rotate_relocates d self l preserve_colors)
    as (new1 & self1 & Hrun1 & Hmove1 & Hsame1);
    [lia|done|apply Hinv|by apply inv_length|].
  pose proof Hsame1 as (Hdim1 & Hv1 & _ & _). simpl in Hdim1, Hv1.
  destruct (rotate_relocates d self1 l' preserve_colors)
    as (new2 & self2 & Hrun2 & Hmove2 & Hsame2).
  { lia. }
  { done. }
  { rewrite Hdim1. apply Hinv. }
  { rewrite Hv1. destruct Hmove1 as [-> _]. by apply inv_length. }
  rewrite Hv1 in Hmove2.
  assert (new2 = VertexSet.vertices self) as Hback.
  { eapply relocated_compose; [|done|done].
    rewrite (inv_length d self Hinv). intros k Hk. cbv beta.
    pose proof (permuted_range l d ltac:(lia) Hl (Z.of_nat k)).
    pose proof (pow2_to_nat d ltac:(lia)).
    split; [lia|]. rewrite Z2Nat.id by lia.
    rewrite permuted_inverse by (done || lia). lia. }
  exists (Cube.mk (Cube.dimension c) self1 (Cube.edge_set c)).
  exists (Cube.mk (Cube.dimension c) self2 (Cube.edge_set c)).
  unfold Cube.rotate, Cube.on_vertex_set. fold self. simpl.
  rewrite Hrun1, Hrun2. split_and!; [done|done|].
  intros location. unfold VertexSet.lookup_vertex_by_location.
  destruct Hsame2 as (_ & -> & _). simpl. by rewrite Hback.
Qed.

Lemma rotate_inverse_witness :
  ∃ c1 c2,
    Cube.rotate [1; 2; 0] true (new_cube 3) = (c1, inr ()) ∧
    Cube.rotate [2; 0; 1] true c1 = (c2, inr ()) ∧
    ∀ location,
      VertexSet.lookup_vertex_by_location (Cube.vertex_set c2) location
      = VertexSet.lookup_vertex_by_location (Cube.vertex_set (new_cube 3)) location.
Proof.
  apply (rotate_inverse 3); [lia| | | |].
  - exists (new_cube 3), []. split; [vm_compute; reflexivity|reflexivity].
  - split; [reflexivity|]. intros i Hi. rewrite !elem_of_cons. lia.
  - split; [reflexivity|]. intros i Hi. rewrite !elem_of_cons. lia.
  - intros [|[|[|j]]] x Hx; simplify_eq/=; done.
Defined.

(** ** Edges between locations *)

Lemma inv_lookup_id_by_location d self (k a : nat) :
  inv d self → VertexSet.vertices self !! k = Some a →
  VertexSet.lookup_id_by_location self (Z.of_nat k) = Some (Z.of_nat a).
Proof.
  intros Hinv Hk. rewrite lookup_id_by_location_nat, Hk. simpl. f_equal.
  eapply inv_vertex_id; [done|]. by eapply list_elem_of_lookup_2.
Qed.

Lemma edges_inv_key d es a b :
  edges_inv d es →
  is_Some (EdgeSet.edges es !! (a, b)) ↔ 0 ≤ a ≤ b ∧ b < 2 ^ d ∧ is_edge a b.
Proof. intros H. rewrite (H (a, b)). apply elem_of_edge_keys. Qed.

Lemma is_edge_ne a b : is_edge a b → a ≠ b.
Proof.
  intros H ->. unfold is_edge in H. by rewrite Z.lxor_nilpotent in H.
Qed.

Lemma is_edge_min_max a b : is_edge a b → is_edge (a `min` b) (a `max` b).
Proof.
  intros H. destruct (decide (a ≤ b)).
  - by rewrite Z.min_l, Z.max_r by lia.
  - rewrite Z.min_r, Z.max_l by lia. unfold is_edge. by rewrite Z.lxor_comm.
Qed.

Lemma edges_inv_min_max d es a b :
  edges_inv d es →
  is_Some (EdgeSet.edges es !! (a `min` b, a `max` b))
  ↔ 0 ≤ a < 2 ^ d ∧ 0 ≤ b < 2 ^ d ∧ is_edge a b.
Proof.
  intros H. rewrite (edges_inv_key d) by done. split.
  - intros (? & ? & Hedge). split_and!; try lia.
    destruct (decide (a ≤ b)).
    + by rewrite Z.min_l, Z.max_r in Hedge by lia.
    + rewrite Z.min_r, Z.max_l in Hedge by lia.
      unfold is_edge in *. by rewrite Z.lxor_comm.
  - intros (? & ? & Hedge). split_and!; try lia. by apply is_edge_min_max.
Qed.

Lemma color_by_ids_spec d es u v tag :
  edges_inv d es →
  EdgeSet.color_by_ids u v tag es
  = if decide (0 ≤ u < 2 ^ d ∧ 0 ≤ v < 2 ^ d ∧ is_edge u v)
    then (EdgeSet.set_edges (<[(u `min` v, u `max` v) := tag]> (EdgeSet.edges es)) es,
          inr ())
    else (es, inl ValueError).
Proof.
  intros Hedges. unfold EdgeSet.color_by_ids.
  destruct (decide _) as [(Hu & Hv & Hedge)|Hno].
  - destruct (decide (u ≤ v)).
    + rewrite bool_decide_eq_true_2
        by (apply (edges_inv_key d); [done|split_and!; (lia || done)]).
      by rewrite Z.min_l, Z.max_r by lia.
    + rewrite bool_decide_eq_false_2 by (rewrite (edges_inv_key d) by done; lia).
      rewrite bool_decide_eq_true_2.
      * by rewrite Z.min_r, Z.max_l by lia.
      * apply (edges_inv_key d); [done|]. split_and!; try lia.
        unfold is_edge in *. by rewrite Z.lxor_comm.
  - rewrite !bool_decide_eq_false_2; [done|..];
      rewrite (edges_inv_key d) by done; intros (? & ? & Hedge); apply Hno;
      split_and!; try lia; [unfold is_edge in *; by rewrite Z.lxor_comm|done].
Qed.

Lemma lookup_color_by_vertex_ids_spec d es u v :
  edges_inv d es →
  EdgeSet.lookup_color_by_vertex_ids es u v
  = EdgeSet.edges es !! (u `min` v, u `max` v).
Proof.
  intros Hedges. unfold EdgeSet.lookup_color_by_vertex_ids.
  destruct (decide (u ≤ v)).
  - rewrite Z.min_l, Z.max_r by lia.
    destruct (EdgeSet.edges es !! (u, v)) as [color|] eqn:Huv; [done|].
    destruct (EdgeSet.edges es !! (v, u)) as [color|] eqn:Hvu; [|done].
    assert (is_Some (EdgeSet.edges es !! (v, u))) as Hkey by eauto.
    apply (edges_inv_key d) in Hkey as (? & ? & Hedge); [|done].
    assert (u = v) as -> by lia. by apply is_edge_ne in Hedge.
  - rewrite Z.min_r, Z.max_l by lia.
    destruct (EdgeSet.edges es !! (u, v)) as [color|] eqn:Huv; [|done].
    assert (is_Some (EdgeSet.edges es !! (u, v))) as Hkey by eauto.
    apply (edges_inv_key d) in Hkey as (? & ? & Hedge); [|done]. lia.
Qed.

Lemma edges_inv_insert d es key tag :
  edges_inv d es → is_Some (EdgeSet.edges es !! key) →
  edges_inv d (EdgeSet.set_edges (<[key := tag]> (EdgeSet.edges es)) es).
Proof.
  intros Hedges Hkey key'. simpl. rewrite <- (Hedges key').
  destruct (decide (key' = key)) as [->|Hne].
  - rewrite lookup_insert_eq. split; [done|by eauto].
  - by rewrite lookup_insert_ne.
Qed.

Section locations.
Variables (d : Z) (vs : VertexSet.t) (es : EdgeSet.t) (ku kv a b : nat).
Hypothesis d_nonneg : 0 ≤ d.
Hypothesis vs_inv : inv d vs.
Hypothesis vs_isometry : isometry d vs.
Hypothesis at_u : VertexSet.vertices vs !! ku = Some a.
Hypothesis at_v : VertexSet.vertices vs !! kv = Some b.

Lemma ids_in_range : 0 ≤ Z.of_nat a < 2 ^ d ∧ 0 ≤ Z.of_nat b < 2 ^ d.
Proof using All.
  pose proof (pow2_to_nat d d_nonneg).
  assert (a < Z.to_nat (2 ^ d))%nat
    by (eapply inv_elem; [done|by eapply list_elem_of_lookup_2]).
  assert (b < Z.to_nat (2 ^ d))%nat
    by (eapply inv_elem; [done|by eapply list_elem_of_lookup_2]).
  lia.
Qed.

Lemma adjacent_ids :
  0 ≤ Z.of_nat a < 2 ^ d ∧ 0 ≤ Z.of_nat b < 2 ^ d ∧ is_edge (Z.of_nat a) (Z.of_nat b)
  ↔ popcount (Z.lxor (Z.of_nat ku) (Z.of_nat kv)) = 1.
Proof using All.
  pose proof ids_in_range. unfold is_edge.
  rewrite (vs_isometry ku kv a b at_u at_v). tauto.
Qed.

Lemma lookup_edge_id_by_locations_spec :
  edges_inv d es →
  EdgeSet.lookup_edge_id_by_locations es vs (Z.of_nat ku) (Z.of_nat kv)
  = if decide (popcount (Z.lxor (Z.of_nat ku) (Z.of_nat kv)) = 1)
    then Some (Some (Z.of_nat a `min` Z.of_nat b), Some (Z.of_nat a `max` Z.of_nat b))
    else None.
Proof using All.
  intros Hedges. unfold EdgeSet.lookup_edge_id_by_locations.
  rewrite (inv_lookup_id_by_location d vs ku a),
    (inv_lookup_id_by_location d vs kv b) by done.
  unfold EdgeSet.mem. pose proof ids_in_range as [Ha Hb].
  destruct (decide _) as [Hadj|Hadj].
  - apply adjacent_ids in Hadj as (_ & _ & Hedge).
    destruct (decide (Z.of_nat a ≤ Z.of_nat b)).
    + rewrite bool_decide_eq_true_2
        by (apply (edges_inv_key d); [done|split_and!; (lia || done)]).
      by rewrite Z.min_l, Z.max_r by lia.
    + rewrite bool_decide_eq_false_2 by (rewrite (edges_inv_key d) by done; lia).
      rewrite bool_decide_eq_true_2.
      * by rewrite Z.min_r, Z.max_l by lia.
      * apply (edges_inv_key d); [done|]. split_and!; try lia.
        unfold is_edge in *. by rewrite Z.lxor_comm.
  - rewrite !bool_decide_eq_false_2; [done|..];
      rewrite (edges_inv_key d) by done; intros (? & ? & Hedge); apply Hadj;
      apply adjacent_ids; split_and!; try lia;
      [unfold is_edge in *; by rewrite Z.lxor_comm|done].
Qed.

Lemma lookup_color_by_locations_spec :
  edges_inv d es →
  EdgeSet.lookup_color_by_locations es vs (Z.of_nat ku) (Z.of_nat kv)
  = if decide (popcount (Z.lxor (Z.of_nat ku) (Z.of_nat kv)) = 1)
    then EdgeSet.edges es !! (Z.of_nat a `min` Z.of_nat b, Z.of_nat a `max` Z.of_nat b)
    else None.
Proof using All.
  intros Hedges. unfold EdgeSet.lookup_color_by_locations.
  rewrite lookup_edge_id_by_locations_spec by done.
  destruct (decide _) as [Hadj|Hadj]; [|done].
  rewrite (lookup_color_by_vertex_ids_spec d) by done.
  by rewrite Z.min_l, Z.max_r by lia.
Qed.

Lemma color_by_locations_spec tag :
  edges_inv d es →
  EdgeSet.color_by_locations vs (Z.of_nat ku) (Z.of_nat kv) tag es
  = if decide (popcount (Z.lxor (Z.of_nat ku) (Z.of_nat kv)) = 1)
    then (EdgeSet.set_edges
            (<[(Z.of_nat a `min` Z.of_nat b, Z.of_nat a `max` Z.of_nat b) := tag]>
               (EdgeSet.edges es)) es, inr ())
    else (es, inl ValueError).
Proof using All.
  intros Hedges. unfold EdgeSet.color_by_locations.
  rewrite lookup_edge_id_by_locations_spec by done.
  destruct (decide _) as [Hadj|Hadj]; [|done].
  apply adjacent_ids in Hadj as (Ha & Hb & Hedge).
  rewrite (color_by_ids_spec d) by done.
  rewrite decide_True by (split_and!; try lia; by apply is_edge_min_max).
  by rewrite Z.min_l, Z.max_r by lia.
Qed.

End locations.

Lemma weight_is_popcount u v :
  0 ≤ u → 0 ≤ v → bits.weight (Z.lxor u v) = inr 1 ↔ popcount (Z.lxor u v) = 1.
Proof.
  intros Hu Hv. rewrite weight_popcount by (by apply Z.lxor_nonneg).
  split; [by intros [= ->]|by intros ->].
Qed.

Lemma inv_at d self location :
  0 ≤ d → inv d self → 0 ≤ location < 2 ^ d →
  ∃ k a : nat, location = Z.of_nat k ∧ VertexSet.vertices self !! k = Some a.
Proof.
  intros Hd Hinv Hloc.
  destruct (lookup_lt_is_Some_2 (VertexSet.vertices self) (Z.to_nat location))
    as [a Ha].
  { rewrite (inv_length d) by done. pose proof (pow2_to_nat d Hd). lia. }
  exists (Z.to_nat location), a. split; [lia|done].
Qed.

(** X21. In a cube a caller can hold, of dimension [d >= 0], however it
    has been rotated and reflected, two locations of [[0, 2^d)] have an
    edge between them exactly when they differ in one bit:
    [lookup_edge_id_by_locations] then returns the ids at the two
    locations, lower id first, and [lookup_color_by_locations] a color;
    otherwise both return [None]. *)
Theorem edges_join_adjacent_locations
    (d : Z) (c : Cube.t) (u_location v_location : Z) :
  0 ≤ d → reachable d c →
  0 ≤ u_location < 2 ^ d → 0 ≤ v_location < 2 ^ d →
  ∃ u_id v_id,
    VertexSet.lookup_id_by_location (Cube.vertex_set c) u_location = Some u_id ∧
    VertexSet.lookup_id_by_location (Cube.vertex_set c) v_location = Some v_id ∧
    (bits.weight (Z.lxor u_location v_location) = inr 1 →
       EdgeSet.lookup_edge_id_by_locations (Cube.edge_set c) (Cube.vertex_set c)
         u_location v_location
       = Some (Some (u_id `min` v_id), Some (u_id `max` v_id)) ∧
       is_Some (EdgeSet.lookup_color_by_locations (Cube.edge_set c)
                  (Cube.vertex_set c) u_location v_location)) ∧
    (bits.weight (Z.lxor u_location v_location) ≠ inr 1 →
       EdgeSet.lookup_edge_id_by_locations (Cube.edge_set c) (Cube.vertex_set c)
         u_location v_location = None ∧
       EdgeSet.lookup_color_by_locations (Cube.edge_set c) (Cube.vertex_set c)
         u_location v_location = None).
Proof.
  intros Hd Hreach Hu Hv.
  destruct (reachable_ok d c Hd Hreach) as (Hinv & Hiso & Hedges).
  destruct (inv_at d _ u_location Hd Hinv Hu) as (ku & a & -> & Ha).
  destruct (inv_at d _ v_location Hd Hinv Hv) as (kv & b & -> & Hb).
  exists (Z.of_nat a), (Z.of_nat b).
  rewrite (inv_lookup_id_by_location d _ ku a),
    (inv_lookup_id_by_location d _ kv b) by done.
  rewrite (lookup_edge_id_by_locations_spec d _ _ ku kv a b),
    (lookup_color_by_locations_spec d _ _ ku kv a b) by done.
  rewrite weight_is_popcount by lia.
  split_and!; [done|done|intros Hadj|intros Hadj].
  - rewrite !decide_True by done. split; [done|].
    apply (edges_inv_min_max d); [done|].
    by apply (adjacent_ids d (Cube.vertex_set c) (Cube.edge_set c) ku kv a b).
  - by rewrite !decide_False by done.
Qed.

Lemma edges_join_adjacent_locations_witness :
  ∃ u_id v_id,
    VertexSet.lookup_id_by_location
      (Cube.vertex_set (Cube.run_all [Cube.Rotate [1; 2; 0] false] (new_cube 3))) 1
    = Some u_id ∧
    VertexSet.lookup_id_by_location
      (Cube.vertex_set (Cube.run_all [Cube.Rotate [1; 2; 0] false] (new_cube 3))) 5
    = Some v_id ∧
    (bits.weight (Z.lxor 1 5) = inr 1 →
       EdgeSet.lookup_edge_id_by_locations
         (Cube.edge_set (Cube.run_all [Cube.Rotate [1; 2; 0] false] (new_cube 3)))
         (Cube.vertex_set (Cube.run_all [Cube.Rotate [1; 2; 0] false] (new_cube 3)))
         1 5
       = Some (Some (u_id `min` v_id), Some (u_id `max` v_id)) ∧
       is_Some (EdgeSet.lookup_color_by_locations
         (Cube.edge_set (Cube.run_all [Cube.Rotate [1; 2; 0] false] (new_cube 3)))
         (Cube.vertex_set (Cube.run_all [Cube.Rotate [1; 2; 0] false] (new_cube 3)))
         1 5)) ∧
    (bits.weight (Z.lxor 1 5) ≠ inr 1 →
       EdgeSet.lookup_edge_id_by_locations
         (Cube.edge_set (Cube.run_all [Cube.Rotate [1; 2; 0] false] (new_cube 3)))
         (Cube.vertex_set (Cube.run_all [Cube.Rotate [1; 2; 0] false] (new_cube 3)))
         1 5 = None ∧
       EdgeSet.lookup_color_by_locations
         (Cube.edge_set (Cube.run_all [Cube.Rotate [1; 2; 0] false] (new_cube 3)))
         (Cube.vertex_set (Cube.run_all [Cube.Rotate [1; 2; 0] false] (new_cube 3)))
         1 5 = None).
Proof.
  apply (edges_join_adjacent_locations 3); [lia| |lia|lia].
  exists (new_cube 3), [Cube.Rotate [1; 2; 0] false].
  split; [vm_compute; reflexivity|reflexivity].
Defined.

(** X22. In a cube a caller can hold, of dimension [d >= 0],
    [color_by_locations] on two locations of [[0, 2^d)] that differ in one
    bit succeeds; afterwards [lookup_color_by_locations] returns the new
    color for the two locations in either order and what it returned
    before for every other pair of locations.  On two locations that do
    not differ in exactly one bit it raises [ValueError] and changes
    nothing. *)
Theorem color_by_locations_contract
    (d : Z) (c : Cube.t) (u_location v_location : Z) (color_string : string) :
  0 ≤ d → reachable d c →
  0 ≤ u_location < 2 ^ d → 0 ≤ v_location < 2 ^ d →
  (bits.weight (Z.lxor u_location v_location) = inr 1 →
     ∃ es',
       EdgeSet.color_by_locations (Cube.vertex_set c) u_location v_location
         color_string (Cube.edge_set c) = (es', inr ()) ∧
       EdgeSet.lookup_color_by_locations es' (Cube.vertex_set c)
         u_location v_location = Some color_string ∧
       EdgeSet.lookup_color_by_locations es' (Cube.vertex_set c)
         v_location u_location = Some color_string ∧
       ∀ u' v', 0 ≤ u' < 2 ^ d → 0 ≤ v' < 2 ^ d →
         ¬ (u' = u_location ∧ v' = v_location) →
         ¬ (u' = v_location ∧ v' = u_location) →
         EdgeSet.lookup_color_by_locations es' (Cube.vertex_set c) u' v'
         = EdgeSet.lookup_color_by_locations (Cube.edge_set c) (Cube.vertex_set c)
             u' v') ∧
  (bits.weight (Z.lxor u_location v_location) ≠ inr 1 →
     EdgeSet.color_by_locations (Cube.vertex_set c) u_location v_location
       color_string (Cube.edge_set c) = (Cube.edge_set c, inl ValueError)).
Proof.
  intros Hd Hreach Hu Hv.
  destruct (reachable_ok d c Hd Hreach) as (Hinv & Hiso & Hedges).
  set (vs := Cube.vertex_set c) in *. set (es := Cube.edge_set c) in *.
  destruct (inv_at d _ u_location Hd Hinv Hu) as (ku & a & -> & Ha).
  destruct (inv_at d _ v_location Hd Hinv Hv) as (kv & b & -> & Hb).
  rewrite (color_by_locations_spec d vs es ku kv a b) by done.
  rewrite weight_is_popcount by lia.
  split; intros Hadj; [|by rewrite decide_False].
  rewrite decide_True by done.
  set (key := (Z.of_nat a `min` Z.of_nat b, Z.of_nat a `max` Z.of_nat b)).
  assert (Hkey : is_Some (EdgeSet.edges es !! key)).
  { apply (edges_inv_min_max d); [done|].
    by apply (adjacent_ids d vs es ku kv a b). }
  pose proof (edges_inv_insert d es key color_string Hedges Hkey) as Hedges'.
  eexists. split; [done|]. split_and!.
  - rewrite (lookup_color_by_locations_spec d vs _ ku kv a b) by done.
    rewrite decide_True by done. simpl. apply lookup_insert_eq.
  - rewrite (lookup_color_by_locations_spec d vs _ kv ku b a) by done.
    rewrite decide_True by (by rewrite Z.lxor_comm). simpl.
    rewrite Z.min_comm, Z.max_comm. apply lookup_insert_eq.
  - intros u' v' Hu' Hv' Hne1 Hne2.
    destruct (inv_at d _ u' Hd Hinv Hu') as (ku' & a' & -> & Ha').
    destruct (inv_at d _ v' Hd Hinv Hv') as (kv' & b' & -> & Hb').
    rewrite !(lookup_color_by_locations_spec d vs _ ku' kv' a' b') by done.
    destruct (decide _); [|done]. simpl. apply lookup_insert_ne.
    unfold key. intros [= Hmin Hmax].
    pose proof (inv_NoDup d vs Hinv) as Hnodup.
    assert ((a' = a ∧ b' = b) ∨ (a' = b ∧ b' = a)) as [[-> ->]|[-> ->]] by lia.
    + apply Hne1. split; f_equal; eapply NoDup_lookup; eauto.
    + apply Hne2. split; f_equal; eapply NoDup_lookup; eauto.
Qed.

Lemma color_by_locations_contract_witness :
  (bits.weight (Z.lxor 0 2) = inr 1 →
     ∃ es',
       EdgeSet.color_by_locations (Cube.vertex_set (new_cube 2)) 0 2
         "red" (Cube.edge_set (new_cube 2)) = (es', inr ()) ∧
       EdgeSet.lookup_color_by_locations es' (Cube.vertex_set (new_cube 2)) 0 2
       = Some "red"%string ∧
       EdgeSet.lookup_color_by_locations es' (Cube.vertex_set (new_cube 2)) 2 0
       = Some "red"%string ∧
       ∀ u' v', 0 ≤ u' < 2 ^ 2 → 0 ≤ v' < 2 ^ 2 →
         ¬ (u' = 0 ∧ v' = 2) → ¬ (u' = 2 ∧ v' = 0) →
         EdgeSet.lookup_color_by_locations es' (Cube.vertex_set (new_cube 2)) u' v'
         = EdgeSet.lookup_color_by_locations (Cube.edge_set (new_cube 2))
             (Cube.vertex_set (new_cube 2)) u' v') ∧
  (bits.weight (Z.lxor 0 2) ≠ inr 1 →
     EdgeSet.color_by_locations (Cube.vertex_set (new_cube 2)) 0 2
       "red" (Cube.edge_set (new_cube 2))
     = (Cube.edge_set (new_cube 2), inl ValueError)).
Proof.
  apply (color_by_locations_contract 2); [lia| |lia|lia].
  exists (new_cube 2), []. split; [vm_compute; reflexivity|reflexivity].
Defined.

(** X23. In a cube a caller can hold, of dimension [d >= 0],
    [color_by_ids] succeeds exactly on two ids of [[0, 2^d)] that differ
    in one bit, in either order; afterwards
    [lookup_color_by_vertex_ids] returns the new color for the two ids in
    either order and what it returned before for every other pair.  On
    any other two ids it raises [ValueError], changes nothing, and
    [lookup_color_by_vertex_ids] returns [None] for them. *)
Theorem color_by_ids_contract
    (d : Z) (c : Cube.t) (u_id v_id : Z) (color_string : string) :
  0 ≤ d → reachable d c →
  (0 ≤ u_id < 2 ^ d ∧ 0 ≤ v_id < 2 ^ d ∧
   bits.weight (Z.lxor u_id v_id) = inr 1 →
     ∃ es',
       EdgeSet.color_by_ids u_id v_id color_string (Cube.edge_set c) = (es', inr ()) ∧
       EdgeSet.lookup_color_by_vertex_ids es' u_id v_id = Some color_string ∧
       EdgeSet.lookup_color_by_vertex_ids es' v_id u_id = Some color_string ∧
       ∀ a b, ¬ (a = u_id ∧ b = v_id) → ¬ (a = v_id ∧ b = u_id) →
         EdgeSet.lookup_color_by_vertex_ids es' a b
         = EdgeSet.lookup_color_by_vertex_ids (Cube.edge_set c) a b) ∧
  (¬ (0 ≤ u_id < 2 ^ d ∧ 0 ≤ v_id < 2 ^ d ∧
      bits.weight (Z.lxor u_id v_id) = inr 1) →
     EdgeSet.color_by_ids u_id v_id color_string (Cube.edge_set c)
     = (Cube.edge_set c, inl ValueError) ∧
     EdgeSet.lookup_color_by_vertex_ids (Cube.edge_set c) u_id v_id = None).
Proof.
  intros Hd Hreach.
  destruct (reachable_ok d c Hd Hreach) as (_ & _ & Hedges).
  set (es := Cube.edge_set c) in *.
  rewrite (color_by_ids_spec d) by done.
  assert (Hcond : 0 ≤ u_id < 2 ^ d ∧ 0 ≤ v_id < 2 ^ d ∧
                  bits.weight (Z.lxor u_id v_id) = inr 1
                  ↔ 0 ≤ u_id < 2 ^ d ∧ 0 ≤ v_id < 2 ^ d ∧ is_edge u_id v_id).
  { unfold is_edge. split; intros (? & ? & Hw); (split; [done|split; [done|]]).
    - apply weight_is_popcount in Hw; (lia || done).
    - apply weight_is_popcount; (lia || done). }
  rewrite Hcond. split; intros Hadj.
  - rewrite decide_True by done.
    set (key := (u_id `min` v_id, u_id `max` v_id)).
    assert (Hkey : is_Some (EdgeSet.edges es !! key))
      by (by apply (edges_inv_min_max d)).
    pose proof (edges_inv_insert d es key color_string Hedges Hkey) as Hedges'.
    eexists. split; [done|]. split_and!.
    + rewrite (lookup_color_by_vertex_ids_spec d) by done. simpl.
      apply lookup_insert_eq.
    + rewrite (lookup_color_by_vertex_ids_spec d) by done. simpl.
      rewrite Z.min_comm, Z.max_comm. apply lookup_insert_eq.
    + intros a b Hne1 Hne2.
      rewrite !(lookup_color_by_vertex_ids_spec d) by done. simpl.
      apply lookup_insert_ne. unfold key. intros [= Hmin Hmax]. lia.
  - rewrite decide_False by done. split; [done|].
    rewrite (lookup_color_by_vertex_ids_spec d) by done.
    apply eq_None_not_Some. by rewrite (edges_inv_min_max d) by done.
Qed.

Lemma color_by_ids_contract_witness :
  (0 ≤ 3 < 2 ^ 2 ∧ 0 ≤ 1 < 2 ^ 2 ∧ bits.weight (Z.lxor 3 1) = inr 1 →
     ∃ es',
       EdgeSet.color_by_ids 3 1 "red" (Cube.edge_set (new_cube 2)) = (es', inr ()) ∧
       EdgeSet.lookup_color_by_vertex_ids es' 3 1 = Some "red"%string ∧
       EdgeSet.lookup_color_by_vertex_ids es' 1 3 = Some "red"%string ∧
       ∀ a b, ¬ (a = 3 ∧ b = 1) → ¬ (a = 1 ∧ b = 3) →
         EdgeSet.lookup_color_by_vertex_ids es' a b
         = EdgeSet.lookup_color_by_vertex_ids (Cube.edge_set (new_cube 2)) a b) ∧
  (¬ (0 ≤ 3 < 2 ^ 2 ∧ 0 ≤ 1 < 2 ^ 2 ∧ bits.weight (Z.lxor 3 1) = inr 1) →
     EdgeSet.color_by_ids 3 1 "red" (Cube.edge_set (new_cube 2))
     = (Cube.edge_set (new_cube 2), inl ValueError) ∧
     EdgeSet.lookup_color_by_vertex_ids (Cube.edge_set (new_cube 2)) 3 1 = None).
Proof.
  apply (color_by_ids_contract 2); [lia|].
  exists (new_cube 2), []. split; [vm_compute; reflexivity|reflexivity].
Defined.

(** ** Induced edges *)

Lemma res_fold_append {X A} (g : X → list A)
    (body : list A → X → result (list A)) xs acc :
  (∀ acc x, x ∈ xs → body acc x = inr (acc ++ g x)) →
  res_fold body xs acc = inr (acc ++ (xs ≫= g)).
Proof.
  revert acc. induction xs as [|x xs IH]; intros acc Hbody; cbn [res_fold].
  - by rewrite app_nil_r.
  - rewrite Hbody by left.
    rewrite bind_cons, app_assoc, <- IH by (intros; apply Hbody; by right).
    done.
Qed.

Lemma induced_edges_spec es ids :
  ∃ induced,
    EdgeSet.get_induced_edges_from_id_list es ids = inr induced ∧
    ∀ a b, (a, b) ∈ induced ↔
      is_Some (EdgeSet.edges es !! (a, b)) ∧
      ∃ i j : nat, (i ≤ j)%nat ∧ ids !! i = Some a ∧ ids !! j = Some b.
Proof.
  set (cell := λ i j : Z,
    match ids !! Z.to_nat i, ids !! Z.to_nat j with
    | Some u, Some v =>
        if decide (is_Some (EdgeSet.edges es !! (u, v))) then [(u, v)] else []
    | _, _ => []
    end).
  set (n := Z.of_nat (length ids)).
  exists (range n ≫= λ i, range2 i n ≫= cell i). split.
  - unfold EdgeSet.get_induced_edges_from_id_list. fold n.
    rewrite (res_fold_append (λ i, range2 i n ≫= cell i)); [done|].
    intros acc i Hi%elem_of_seqZ.
    apply (res_fold_append (cell i)). intros acc' j Hj%elem_of_seqZ.
    destruct (lookup_lt_is_Some_2 ids (Z.to_nat i)) as [u Hu]; [lia|].
    destruct (lookup_lt_is_Some_2 ids (Z.to_nat j)) as [v Hv]; [lia|].
    rewrite (py_getitem_to_nat ids i u), (py_getitem_to_nat ids j v)
      by (lia || done).
    unfold cell. rewrite Hu, Hv. simpl.
    destruct (decide _).
    + by rewrite bool_decide_eq_true_2.
    + rewrite bool_decide_eq_false_2 by done. by rewrite app_nil_r.
  - intros a b. rewrite list_elem_of_bind. split.
    + intros (i & Hin & Hi%elem_of_seqZ).
      apply list_elem_of_bind in Hin as (j & Hin & Hj%elem_of_seqZ).
      unfold cell in Hin.
      destruct (ids !! Z.to_nat i) as [u|] eqn:Hu;
        [|by apply elem_of_nil in Hin].
      destruct (ids !! Z.to_nat j) as [v|] eqn:Hv;
        [|by apply elem_of_nil in Hin].
      destruct (decide _) as [Hkey|]; [|by apply elem_of_nil in Hin].
      apply list_elem_of_singleton in Hin as [= -> ->].
      split; [done|]. exists (Z.to_nat i), (Z.to_nat j).
      split; [lia|done].
    + intros (Hkey & i & j & Hij & Hi & Hj).
      pose proof (lookup_lt_Some _ _ _ Hi). pose proof (lookup_lt_Some _ _ _ Hj).
      exists (Z.of_nat i). split; [|apply elem_of_seqZ; lia].
      apply list_elem_of_bind. exists (Z.of_nat j).
      split; [|apply elem_of_seqZ; lia].
      unfold cell. rewrite !Nat2Z.id, Hi, Hj, decide_True by done.
      by apply list_elem_of_singleton.
Qed.

Lemma StronglySorted_lookup {A} (R : relation A) l (i j : nat) x y :
  StronglySorted R l → (i < j)%nat → l !! i = Some x → l !! j = Some y → R x y.
Proof.
  intros Hs. revert i j.
  induction Hs as [|z l Hs IH Hall]; intros i j Hij Hi Hj; [done|].
  destruct i as [|i], j as [|j]; try lia; simplify_eq/=.
  - rewrite Forall_forall in Hall. apply Hall. by eapply list_elem_of_lookup_2.
  - apply (IH i j); [lia|done|done].
Qed.

Lemma foldl_insert_lookup (tag : string) (ks : list (Z * Z))
    (m : gmap (Z * Z) string) k :
  foldl (λ m k, <[k := tag]> m) m ks !! k
  = if decide (k ∈ ks) then Some tag else m !! k.
Proof.
  revert m. induction ks as [|k0 ks IH]; intros m.
  { rewrite decide_False; [done|apply not_elem_of_nil]. }
  cbn [foldl]. rewrite IH.
  destruct (decide (k ∈ ks)) as [Hin|Hnin].
  - rewrite decide_True; [done|by right].
  - destruct (decide (k = k0)) as [->|Hne].
    + rewrite decide_True by left. apply lookup_insert_eq.
    + rewrite decide_False by (intros [?|?]%elem_of_cons; done).
      by apply lookup_insert_ne.
Qed.

Lemma color_keys_loop tag (keys : list (Z * Z)) es :
  (∀ k, k ∈ keys → is_Some (EdgeSet.edges es !! k)) →
  for_each (λ '(low_index, high_index),
      EdgeSet.color_by_ids low_index high_index tag) keys es
  = (EdgeSet.set_edges (foldl (λ m k, <[k := tag]> m) (EdgeSet.edges es) keys) es,
     inr ()).
Proof.
  revert es. induction keys as [|[u v] keys IH]; intros es Hkeys.
  { by destruct es. }
  cbn [for_each foldl]. unfold mbind, M_bind.
  unfold EdgeSet.color_by_ids at 1.
  rewrite bool_decide_eq_true_2 by (apply Hkeys; left).
  rewrite IH; [done|]. intros k Hk. simpl.
  destruct (decide (k = (u, v))) as [->|Hne].
  - rewrite lookup_insert_eq. eauto.
  - rewrite lookup_insert_ne by done. apply Hkeys. by right.
Qed.

(** X24. [get_induced_edges_from_id_list] never raises, whatever the
    list holds, and returns the pair [(a, b)] exactly when [(a, b)] is a
    key of the edge dictionary and [a] stands in the list at a position
    not after one of [b]. *)
Theorem induced_edges_characterised (es : EdgeSet.t) (vertex_id_list : list Z) :
  ∃ induced,
    EdgeSet.get_induced_edges_from_id_list es vertex_id_list = inr induced ∧
    ∀ a b, (a, b) ∈ induced ↔
      EdgeSet.mem es (Some a) (Some b) = true ∧
      ∃ i j : nat, (i ≤ j)%nat ∧
        vertex_id_list !! i = Some a ∧ vertex_id_list !! j = Some b.
Proof.
  destruct (induced_edges_spec es vertex_id_list) as (induced & Hrun & Hin).
  exists induced. split; [done|]. intros a b. rewrite Hin.
  unfold EdgeSet.mem. by rewrite bool_decide_eq_true.
Qed.

(** X25. In a cube a caller can hold, of dimension [d >= 0], for a list
    in increasing order, as [pattern_to_int_list] returns it,
    [get_induced_edges_from_id_list] returns every edge between two
    listed ids and nothing else: the pairs [(a, b)] of listed ids of
    [[0, 2^d)] with [a < b] that differ in one bit. *)
Theorem induced_edges_of_sorted_list (d : Z) (c : Cube.t) (vertex_id_list : list Z) :
  0 ≤ d → reachable d c → StronglySorted Z.le vertex_id_list →
  ∃ induced,
    EdgeSet.get_induced_edges_from_id_list (Cube.edge_set c) vertex_id_list
    = inr induced ∧
    ∀ a b, (a, b) ∈ induced ↔
      a ∈ vertex_id_list ∧ b ∈ vertex_id_list ∧
      0 ≤ a < b ∧ b < 2 ^ d ∧ bits.weight (Z.lxor a b) = inr 1.
Proof.
  intros Hd Hreach Hsorted.
  destruct (reachable_ok d c Hd Hreach) as (_ & _ & Hedges).
  destruct (induced_edges_spec (Cube.edge_set c) vertex_id_list)
    as (induced & Hrun & Hin).
  exists induced. split; [done|]. intros a b.
  rewrite Hin, (edges_inv_key d) by done. split.
  - intros ((Hab & Hb & Hedge) & i & j & Hij & Hi & Hj).
    pose proof (is_edge_ne a b Hedge).
    split_and!; try lia; [by eapply list_elem_of_lookup_2..|].
    apply weight_is_popcount; (lia || done).
  - intros (Ha & Hb & Hab & Hlt & Hw).
    apply weight_is_popcount in Hw; [|lia..].
    split; [split_and!; (lia || done)|].
    apply list_elem_of_lookup_1 in Ha as [i Hi].
    apply list_elem_of_lookup_1 in Hb as [j Hj].
    exists i, j. split; [|done].
    destruct (decide (i ≤ j)%nat) as [|Hji]; [done|]. exfalso.
    pose proof (StronglySorted_lookup Z.le vertex_id_list j i b a Hsorted
                  ltac:(lia) Hj Hi).
    lia.
Qed.

Lemma induced_edges_of_sorted_list_witness :
  ∃ induced,
    EdgeSet.get_induced_edges_from_id_list (Cube.edge_set (new_cube 2)) [0; 1; 3]
    = inr induced ∧
    ∀ a b, (a, b) ∈ induced ↔
      a ∈ [0; 1; 3] ∧ b ∈ [0; 1; 3] ∧
      0 ≤ a < b ∧ b < 2 ^ 2 ∧ bits.weight (Z.lxor a b) = inr 1.
Proof.
  apply (induced_edges_of_sorted_list 2); [lia| |].
  - exists (new_cube 2), []. split; [vm_compute; reflexivity|reflexivity].
  - repeat constructor; lia.
Defined.

(** X26. [color_edges_by_id_list] never raises: it gives the new color
    to every pair [get_induced_edges_from_id_list] returns for the list
    and leaves every other entry of the edge dictionary, and the
    vertices, as they were. *)
Theorem color_edges_by_id_list_contract
    (c : Cube.t) (vertex_id_list : list Z) (color_string : string) :
  ∃ c' induced,
    EdgeSet.get_induced_edges_from_id_list (Cube.edge_set c) vertex_id_list
    = inr induced ∧
    Cube.color_edges_by_id_list vertex_id_list color_string c = (c', inr ()) ∧
    Cube.vertex_set c' = Cube.vertex_set c ∧
    ∀ key, EdgeSet.edges (Cube.edge_set c') !! key
           = if decide (key ∈ induced) then Some color_string
             else EdgeSet.edges (Cube.edge_set c) !! key.
Proof.
  destruct (induced_edges_spec (Cube.edge_set c) vertex_id_list)
    as (induced & Hrun & Hin).
  eexists _, induced. split; [done|].
  unfold Cube.color_edges_by_id_list, Cube.on_edge_set,
    EdgeSet.color_edges_by_id_list.
  unfold mbind at 1, M_bind at 1. rewrite Hrun.
  rewrite color_keys_loop by (intros [a b] Hk; by apply Hin in Hk as [? _]).
  split_and!; [done|done|].
  intros key. simpl. apply foldl_insert_lookup.
Qed.

(** ** Coloring vertices *)

Lemma color_vertices_frame d self vertex_ids (color_string : color) :
  0 ≤ d → inv d self → (∀ id, id ∈ vertex_ids → 0 ≤ id < 2 ^ d) →
  ∃ self',
    VertexSet.color_vertices_by_id_list vertex_ids color_string self
    = (self', inr ()) ∧
    same_arrangement self self' ∧
    ∀ id, color_of self' id
          = if decide (id ∈ vertex_ids) then Some color_string else color_of self id.
Proof.
  intros Hd Hinv Hids.
  assert (Hlookup : ∀ id, id ∈ vertex_ids →
            VertexSet.lookup_vertex_by_id self id = Some (Z.to_nat id)).
  { intros id Hid. rewrite (inv_lookup_vertex_by_id d) by done.
    by rewrite decide_True by (by apply Hids). }
  destruct (color_loop self color_string vertex_ids self)
    as (self' & Hrun & Hsame & Hcol & Hframe).
  { by eapply inv_heap_ok. }
  { apply same_arrangement_refl. }
  { intros id Hid. rewrite Hlookup by done. eauto. }
  exists self'. split_and!; [done|done|].
  intros id. unfold color_of.
  rewrite (lookup_vertex_by_id_arrangement self self') by done.
  rewrite (inv_lookup_vertex_by_id d) by done.
  destruct (decide (id ∈ vertex_ids)) as [Hin|Hnin].
  - rewrite decide_True by (by apply Hids). simpl. f_equal.
    eapply Hcol; [done|]. by apply Hlookup.
  - case_decide; [|done]. simpl. f_equal. apply Hframe.
    intros id' Hid'. rewrite Hlookup by done. intros [= Heq].
    apply Hnin. pose proof (Hids id' Hid').
    by replace id with id' by lia.
Qed.

(** X27. In a cube a caller can hold, of dimension [d >= 0],
    [color_vertices_by_id_list] and [uncolor_vertices_by_id_list] with
    ids that are all in [[0, 2^d)] succeed: every listed vertex gets the
    new color (the empty string when uncoloring), every other vertex keeps
    its color, and no vertex moves; the edges are untouched. *)
Theorem color_vertices_by_id_list_contract
    (d : Z) (c : Cube.t) (vertex_id_list : list Z) (color_string : string) :
  0 ≤ d → reachable d c →
  (∀ id, id ∈ vertex_id_list → 0 ≤ id < 2 ^ d) →
  (∃ c',
     Cube.color_vertices_by_id_list vertex_id_list color_string c = (c', inr ()) ∧
     (∀ id, color_of (Cube.vertex_set c') id
            = if decide (id ∈ vertex_id_list) then Some (Some color_string)
              else color_of (Cube.vertex_set c) id) ∧
     VertexSet.vertices (Cube.vertex_set c') = VertexSet.vertices (Cube.vertex_set c) ∧
     Cube.edge_set c' = Cube.edge_set c) ∧
  (∃ c',
     Cube.uncolor_vertices_by_id_list vertex_id_list c = (c', inr ()) ∧
     (∀ id, color_of (Cube.vertex_set c') id
            = if decide (id ∈ vertex_id_list) then Some (Some EmptyString)
              else color_of (Cube.vertex_set c) id) ∧
     VertexSet.vertices (Cube.vertex_set c') = VertexSet.vertices (Cube.vertex_set c) ∧
     Cube.edge_set c' = Cube.edge_set c).
Proof.
  intros Hd Hreach Hids.
  pose proof (reachable_inv d c Hd Hreach) as Hinv.
  split.
  - destruct (color_vertices_frame d _ vertex_id_list (Some color_string)
                Hd Hinv Hids) as (self' & Hrun & Hsame & Hcolors).
    exists (Cube.mk (Cube.dimension c) self' (Cube.edge_set c)).
    unfold Cube.color_vertices_by_id_list, Cube.on_vertex_set.
    rewrite Hrun. simpl. split_and!; [done|done| |done].
    by destruct Hsame as (_ & -> & _).
  - destruct (color_vertices_frame d _ vertex_id_list (Some EmptyString)
                Hd Hinv Hids) as (self' & Hrun & Hsame & Hcolors).
    exists (Cube.mk (Cube.dimension c) self' (Cube.edge_set c)).
    unfold Cube.uncolor_vertices_by_id_list, Cube.on_vertex_set,
      VertexSet.uncolor_vertices_by_id_list.
    rewrite Hrun. simpl. split_and!; [done|done| |done].
    by destruct Hsame as (_ & -> & _).
Qed.

Lemma color_vertices_by_id_list_contract_witness :
  (∃ c',
     Cube.color_vertices_by_id_list [3; 0; 3] "red" (new_cube 2) = (c', inr ()) ∧
     (∀ id, color_of (Cube.vertex_set c') id
            = if decide (id ∈ [3; 0; 3]) then Some (Some "red"%string)
              else color_of (Cube.vertex_set (new_cube 2)) id) ∧
     VertexSet.vertices (Cube.vertex_set c')
     = VertexSet.vertices (Cube.vertex_set (new_cube 2)) ∧
     Cube.edge_set c' = Cube.edge_set (new_cube 2)) ∧
  (∃ c',
     Cube.uncolor_vertices_by_id_list [3; 0; 3] (new_cube 2) = (c', inr ()) ∧
     (∀ id, color_of (Cube.vertex_set c') id
            = if decide (id ∈ [3; 0; 3]) then Some (Some EmptyString)
              else color_of (Cube.vertex_set (new_cube 2)) id) ∧
     VertexSet.vertices (Cube.vertex_set c')
     = VertexSet.vertices (Cube.vertex_set (new_cube 2)) ∧
     Cube.edge_set c' = Cube.edge_set (new_cube 2)).
Proof.
  apply (color_vertices_by_id_list_contract 2); [lia| |].
  - exists (new_cube 2), []. split; [vm_compute; reflexivity|reflexivity].
  - intros id Hid. rewrite !elem_of_cons, elem_of_nil in Hid. lia.
Defined.

(** X28. In a cube a caller can hold, of dimension [d >= 0],
    [color_by_location] on a location of [[0, 2^d)] succeeds and gives
    the color to the vertex at that location: that location shows the new
    color, every other location of [[0, 2^d)] the color it showed, and no
    vertex moves.  On a location below [-2^d] or from [2^d] on it raises
    [ValueError] and changes nothing. *)
Theorem color_by_location_contract
    (d : Z) (c : Cube.t) (location : Z) (color_string : color) :
  0 ≤ d → reachable d c →
  (0 ≤ location < 2 ^ d →
     ∃ self',
       VertexSet.color_by_location location color_string (Cube.vertex_set c)
       = (self', inr ()) ∧
       color_at self' location = Some color_string ∧
       (∀ location', 0 ≤ location' < 2 ^ d → location' ≠ location →
          color_at self' location' = color_at (Cube.vertex_set c) location') ∧
       VertexSet.vertices self' = VertexSet.vertices (Cube.vertex_set c)) ∧
  (location < - 2 ^ d ∨ 2 ^ d ≤ location →
     VertexSet.color_by_location location color_string (Cube.vertex_set c)
     = (Cube.vertex_set c, inl ValueError)).
Proof.
  intros Hd Hreach.
  pose proof (reachable_inv d c Hd Hreach) as Hinv.
  set (self := Cube.vertex_set c) in *.
  pose proof (pow2_to_nat d Hd) as Hpow.
  pose proof (inv_length d self Hinv) as Hlen.
  split.
  - intros Hloc.
    destruct (inv_at d self location Hd Hinv Hloc) as (k & v & -> & Hk).
    rewrite (color_by_location_found d self k v) by done.
    assert (Hv : (v < length (VertexSet.heap self))%nat).
    { eapply inv_heap_ok; [done|]. by eapply list_elem_of_lookup_2. }
    eexists. split; [done|]. split_and!.
    + rewrite color_at_nat. simpl. rewrite Hk. simpl.
      rewrite deref_color. by rewrite decide_True.
    + intros location' Hloc' Hne.
      destruct (inv_at d self location' Hd Hinv Hloc') as (k' & v' & -> & Hk').
      rewrite !color_at_nat. simpl. rewrite Hk'. simpl.
      rewrite deref_color. rewrite decide_False; [done|].
      intros [-> _]. apply Hne. f_equal.
      by apply (NoDup_lookup _ _ _ _ (inv_NoDup d self Hinv) Hk' Hk).
    + done.
  - intros Hout. unfold VertexSet.color_by_location, VertexSet.lookup_id_by_location.
    rewrite lookup_vertex_by_location_cases. cbv zeta.
    by rewrite !decide_False by lia.
Qed.

Lemma color_by_location_contract_witness :
  (0 ≤ 2 < 2 ^ 2 →
     ∃ self',
       VertexSet.color_by_location 2 (Some "red"%string)
         (Cube.vertex_set (new_cube 2)) = (self', inr ()) ∧
       color_at self' 2 = Some (Some "red"%string) ∧
       (∀ location', 0 ≤ location' < 2 ^ 2 → location' ≠ 2 →
          color_at self' location'
          = color_at (Cube.vertex_set (new_cube 2)) location') ∧
       VertexSet.vertices self'
       = VertexSet.vertices (Cube.vertex_set (new_cube 2))) ∧
  (2 < - 2 ^ 2 ∨ 2 ^ 2 ≤ 2 →
     VertexSet.color_by_location 2 (Some "red"%string)
       (Cube.vertex_set (new_cube 2))
     = (Cube.vertex_set (new_cube 2), inl ValueError)).
Proof.
  apply (color_by_location_contract 2); [lia|].
  exists (new_cube 2), []. split; [vm_compute; reflexivity|reflexivity].
Defined.

(** ** Negative dimensions *)

Lemma induced_edges_empty es vertex_id_list :
  EdgeSet.edges es = ∅ →
  EdgeSet.get_induced_edges_from_id_list es vertex_id_list = inr [].
Proof.
  intros Hempty.
  destruct (induced_edges_spec es vertex_id_list) as (induced & -> & Hin).
  destruct induced as [|[a b] induced]; [done|].
  destruct (proj1 (Hin a b)) as [[color Hkey] _]; [left|].
  by rewrite Hempty, lookup_empty in Hkey.
Qed.

(** X29. [Cube(d)] with [d < 0] raises nothing and builds a cube with no
    vertex and no edge.  On it [rotate] accepts every list and does
    nothing; [reflect] raises for every mask and changes nothing,
    [TypeError] for a dimension above [-(2^1024 - 2^970)] and
    [OverflowError] for a dimension at or below it, where
    [2 ** dimension] cannot convert the exponent to a float; and no public
    operation changes the cube. *)
Theorem negative_dimension_cube (d : Z) :
  d < 0 →
  ∃ c,
    Cube.init d = inr c ∧
    VertexSet.vertices (Cube.vertex_set c) = [] ∧
    EdgeSet.edges (Cube.edge_set c) = ∅ ∧
    (∀ rotation_list preserve_colors,
       Cube.rotate rotation_list preserve_colors c = (c, inr ())) ∧
    (∀ bit_mask preserve_colors,
       Cube.reflect bit_mask preserve_colors c
       = (c, inl (if decide (d ≤ - (2 ^ 1024 - 2 ^ 970))
                  then OverflowError else TypeError))) ∧
    (∀ ops, Cube.run_all ops c = c).
Proof.
  intros Hd.
  set (c := Cube.mk d (VertexSet.mk d [] []) (EdgeSet.mk d ∅)).
  assert (Hrotate : ∀ rotation_list preserve_colors,
            Cube.rotate rotation_list preserve_colors c = (c, inr ())).
  { by intros rotation_list [|]. }
  assert (Hreflect : ∀ bit_mask preserve_colors,
            Cube.reflect bit_mask preserve_colors c
            = (c, inl (if decide (d ≤ - (2 ^ 1024 - 2 ^ 970))
                       then OverflowError else TypeError))).
  { intros bit_mask preserve_colors.
    unfold Cube.reflect, Cube.on_vertex_set, VertexSet.reflect.
    unfold mbind, M_bind, gets, lift. cbn [Cube.vertex_set VertexSet.dimension].
    by rewrite truncate_negative. }
  assert (Hcolor : ∀ vertex_ids color_string,
            (VertexSet.color_vertices_by_id_list vertex_ids color_string
               (Cube.vertex_set c)).1 = Cube.vertex_set c).
  { by intros [|vertex_id vertex_ids] color_string. }
  assert (Hedges : ∀ vertex_id_list color_string,
            (EdgeSet.color_edges_by_id_list vertex_id_list color_string
               (Cube.edge_set c)).1 = Cube.edge_set c).
  { intros vertex_id_list color_string.
    unfold EdgeSet.color_edges_by_id_list. unfold mbind, M_bind.
    by rewrite induced_edges_empty. }
  exists c. split_and!; [|done|done|done|done|].
  - unfold Cube.init, VertexSet.init, EdgeSet.init, EdgeSet.init_loop. simpl.
    unfold bits.how_many_bit_strings. by rewrite bool_decide_eq_true_2.
  - intros ops. induction ops as [|o ops IH]; [done|].
    unfold Cube.run_all in *. cbn [foldl].
    replace (Cube.run o c).1 with c; [done|].
    destruct o; simpl.
    + by rewrite Hrotate.
    + by rewrite Hreflect.
    + done.
    + unfold Cube.color_vertices_by_id_list, Cube.on_vertex_set.
      specialize (Hcolor vertex_id_list (Some color_string)).
      by destruct (VertexSet.color_vertices_by_id_list _ _ _) as [? ?];
        simpl in *; subst.
    + unfold Cube.uncolor_vertices_by_id_list, Cube.on_vertex_set,
        VertexSet.uncolor_vertices_by_id_list.
      specialize (Hcolor vertex_id_list (Some EmptyString)).
      by destruct (VertexSet.color_vertices_by_id_list _ _ _) as [? ?];
        simpl in *; subst.
    + unfold Cube.color_edges_by_id_list, Cube.on_edge_set.
      specialize (Hedges vertex_id_list color_string).
      by destruct (EdgeSet.color_edges_by_id_list _ _ _) as [? ?];
        simpl in *; subst.
    + unfold Cube.uncolor_edges_by_id_list, Cube.on_edge_set,
        EdgeSet.uncolor_edges_by_id_list.
      specialize (Hedges vertex_id_list EmptyString).
      by destruct (EdgeSet.color_edges_by_id_list _ _ _) as [? ?];
        simpl in *; subst.
Qed.

Lemma negative_dimension_cube_witness :
  ∃ c,
    Cube.init (-1) = inr c ∧
    VertexSet.vertices (Cube.vertex_set c) = [] ∧
    EdgeSet.edges (Cube.edge_set c) = ∅ ∧
    (∀ rotation_list preserve_colors,
       Cube.rotate rotation_list preserve_colors c = (c, inr ())) ∧
    (∀ bit_mask preserve_colors,
       Cube.reflect bit_mask preserve_colors c
       = (c, inl (if decide (-1 ≤ - (2 ^ 1024 - 2 ^ 970))
                  then OverflowError else TypeError))) ∧
    (∀ ops, Cube.run_all ops c = c).
Proof. apply (negative_dimension_cube (-1)). lia. Defined.

(** ** The edges of every cube *)

Lemma edges_inv_size d es :
  edges_inv d es → size (EdgeSet.edges es) = length (edge_keys (2 ^ d)).
Proof.
  intros Hedges. rewrite <- size_dom.
  assert (dom (EdgeSet.edges es) = list_to_set (edge_keys (2 ^ d))) as ->.
  { apply set_eq. intros key.
    rewrite elem_of_dom, elem_of_list_to_set. apply Hedges. }
  apply size_list_to_set, NoDup_edge_keys.
Qed.

(** X30. No public operation adds or removes an edge: in every cube a
    caller can hold, of dimension [d >= 0], the edge dictionary has
    [d * 2^(d-1)] keys, the pairs [(u, v)] with [0 <= u < v < 2^d] and
    [weight(u ^ v) == 1]. *)
Theorem edge_keys_never_change (d : Z) (c : Cube.t) :
  0 ≤ d → reachable d c →
  Z.of_nat (size (EdgeSet.edges (Cube.edge_set c))) = d * 2 ^ (d - 1) ∧
  ∀ u v, EdgeSet.mem (Cube.edge_set c) (Some u) (Some v) = true
         ↔ 0 ≤ u < v ∧ v < 2 ^ d ∧ bits.weight (Z.lxor u v) = inr 1.
Proof.
  intros Hd Hreach.
  destruct (reachable_ok d c Hd Hreach) as (_ & _ & Hedges). split.
  - rewrite (edges_inv_size d) by done.
    pose proof (edge_count (Z.to_nat d)) as Hcount.
    rewrite Z2Nat.id in Hcount by done.
    destruct (decide (d = 0)) as [->|Hne]; [simpl in *; lia|].
    replace d with (Z.succ (d - 1)) in Hcount at 2 3 by lia.
    rewrite Z.pow_succ_r in Hcount by lia. lia.
  - intros u v. unfold EdgeSet.mem.
    rewrite bool_decide_eq_true, (edges_inv_key d) by done. split.
    + intros (Hu & Hv & Hedge). pose proof (is_edge_ne u v Hedge).
      split_and!; try lia. apply weight_is_popcount; (lia || done).
    + intros (Hu & Hv & Hw). apply weight_is_popcount in Hw; [|lia..].
      split_and!; (lia || done).
Qed.

Lemma edge_keys_never_change_witness :
  Z.of_nat (size (EdgeSet.edges (Cube.edge_set
     (Cube.run_all [Cube.ColorEdges [0; 1; 3] "red"; Cube.Rotate [1; 0] false]
        (new_cube 2))))) = 2 * 2 ^ (2 - 1) ∧
  ∀ u v, EdgeSet.mem (Cube.edge_set
           (Cube.run_all [Cube.ColorEdges [0; 1; 3] "red"; Cube.Rotate [1; 0] false]
              (new_cube 2))) (Some u) (Some v) = true
         ↔ 0 ≤ u < v ∧ v < 2 ^ 2 ∧ bits.weight (Z.lxor u v) = inr 1.
Proof.
  apply (edge_keys_never_change 2); [lia|].
  exists (new_cube 2),
    [Cube.ColorEdges [0; 1; 3] "red"; Cube.Rotate [1; 0] false].
  split; [vm_compute; reflexivity|reflexivity].
Defined.
